(** * Luma: a PowerPC 32-bit runtime assembler (luma.hpp)

    A shallow embedding of the [PPCEmitter] class template: the code
    buffer and its growth policy, the instruction encoders of the
    rotate-and-mask family, of the three-register arithmetic, of the
    loads and stores and of the load-immediate pseudo-ops, the
    directives, and the branch label fix-up.

    Conventions of the embedding.
    - C++ integers are [Z]; every conversion to a fixed-width type is a
      [wrap_u] or [wrap_s] written where the C++ conversion happens.  A
      function converts its own integer parameters to their declared
      types on entry.
    - Pointers are byte addresses in [Z].  Pointer increments are plain
      additions; the casts to [uintptr_t] and [intptr_t] wrap at the
      pointer width [ptr_bits] of the host.
    - Memory is a total map from addresses to bytes; multi-byte stores
      use the byte order of the host ([big_endian]).
    - [panic] prints and never returns: an operation that reaches it has
      the outcome [Panic]. *)

From Stdlib Require Import ZArith List Lia Bool.
From Stdlib.Strings Require Import Byte.
Import ListNotations.
Local Open Scope Z_scope.

(** ** Fixed-width integers *)

Definition wrap_u (bits z : Z) : Z := z mod 2 ^ bits.

Definition wrap_s (bits z : Z) : Z :=
  (z + 2 ^ (bits - 1)) mod 2 ^ bits - 2 ^ (bits - 1).

Definition u8 : Z -> Z := wrap_u 8.
Definition u16 : Z -> Z := wrap_u 16.
Definition u32 : Z -> Z := wrap_u 32.
Definition u64 : Z -> Z := wrap_u 64.
Definition s16 : Z -> Z := wrap_s 16.

Definition INT16_MIN : Z := -32768.
Definition INT16_MAX : Z := 32767.
Definition INT26_MIN : Z := - 0x2000000.
Definition INT26_MAX : Z := 0x1FFFFFF.

Definition bool_to_Z (b : bool) : Z := if b then 1 else 0.

(** ** Enumerations of the header *)

Inductive GPR : Set :=
  | r0 | r1 | r2 | r3 | r4 | r5 | r6 | r7
  | r8 | r9 | r10 | r11 | r12 | r13 | r14 | r15
  | r16 | r17 | r18 | r19 | r20 | r21 | r22 | r23
  | r24 | r25 | r26 | r27 | r28 | r29 | r30 | r31.

(** The integer value of a [GPR] enumerator. *)
Definition gpr (r : GPR) : Z :=
  match r with
  | r0 => 0 | r1 => 1 | r2 => 2 | r3 => 3 | r4 => 4 | r5 => 5 | r6 => 6 | r7 => 7
  | r8 => 8 | r9 => 9 | r10 => 10 | r11 => 11 | r12 => 12 | r13 => 13
  | r14 => 14 | r15 => 15 | r16 => 16 | r17 => 17 | r18 => 18 | r19 => 19
  | r20 => 20 | r21 => 21 | r22 => 22 | r23 => 23 | r24 => 24 | r25 => 25
  | r26 => 26 | r27 => 27 | r28 => 28 | r29 => 29 | r30 => 30 | r31 => 31
  end.

Module Cond.

Inductive t : Set := Lt | Gt | Eq | Os | Ge | Le | Ne | Oc.

(** The ordinal of an enumerator of [enum class Cond]. *)
Definition ord (c : t) : Z :=
  match c with
  | Lt => 0 | Gt => 1 | Eq => 2 | Os => 3
  | Ge => 4 | Le => 5 | Ne => 6 | Oc => 7
  end.

End Cond.

Inductive BranchType : Set := Branch14 | Branch24.

Inductive GrowingMode : Set := FixedSize | AutoGrow.

(** [std::pair <uint32_t*, BranchType>] *)
Definition BranchLabel : Set := (Z * BranchType)%type.

(** ** Memory *)

Definition Memory : Set := Z -> byte.

Definition byte_of_Z (z : Z) : byte :=
  match Byte.of_N (Z.to_N (z mod 256)) with
  | Some b => b
  | None => x00
  end.

Definition Z_of_byte (b : byte) : Z := Z.of_N (Byte.to_N b).

(** The [n] low bytes of [v], least significant first. *)
Fixpoint le_bytes (n : nat) (v : Z) : list byte :=
  match n with
  | O => []
  | S k => byte_of_Z v :: le_bytes k (v / 256)
  end.

Fixpoint le_value (l : list byte) : Z :=
  match l with
  | [] => 0
  | b :: l' => Z_of_byte b + 256 * le_value l'
  end.

Definition store_bytes (m : Memory) (a : Z) (l : list byte) : Memory :=
  fun x =>
    if (a <=? x) && (x <? a + Z.of_nat (length l))
    then nth (Z.to_nat (x - a)) l x00
    else m x.

Definition load_bytes (m : Memory) (a : Z) (n : nat) : list byte :=
  map (fun i => m (a + Z.of_nat i)) (seq 0 n).

(** [std::memcpy (dst, src, n)] *)
Definition memcpy (m : Memory) (dst src n : Z) : Memory :=
  fun x => if (dst <=? x) && (x <? dst + n) then m (src + (x - dst)) else m x.

(** ** The emitter object *)

Record Emitter : Set := mkEmitter {
  code : Z;            (* uint32_t* code *)
  currentPointer : Z;  (* uint32_t* currentPointer *)
  reservedSize : Z;    (* uintptr_t reservedSize *)
  autoGrowSize : Z;    (* uintptr_t autoGrowSize *)
  mem : Memory
}.

(** Cursor minus base, as a mathematical difference. *)
Definition used (e : Emitter) : Z := currentPointer e - code e.

Inductive Fatal : Set :=
  | BufferSizeNotWordAligned
  | FailedToAllocate
  | AutoGrowSizeNotWordAligned
  | BadAlignment (bytes : Z)
  | UnalignedBranchDisplacement
  | InvalidLabel14 (words : Z)
  | InvalidLabel24 (words : Z).

Inductive Outcome (A : Type) : Type :=
  | Done (a : A) (e : Emitter)
  | Panic (f : Fatal).
Arguments Done {A} a e.
Arguments Panic {A} f.

(** Operations of the emitter: a state monad with fatal errors. *)
Definition M (A : Type) : Type := Emitter -> Outcome A.

Definition ret {A} (a : A) : M A := fun e => Done a e.

Definition bind {A B} (m : M A) (k : A -> M B) : M B :=
  fun e => match m e with
           | Done a e' => k a e'
           | Panic f => Panic f
           end.

Definition panic {A} (f : Fatal) : M A := fun _ => Panic f.

Declare Scope emit_scope.
Delimit Scope emit_scope with emit.
Notation "x <- m ;; k" := (bind m (fun x => k))
  (at level 61, m at next level, right associativity) : emit_scope.
Notation "m ;; k" := (bind m (fun _ => k))
  (at level 61, right associativity) : emit_scope.
Local Open Scope emit_scope.

(** ** Concrete hosts and emitters, for examples *)

Definition zero_memory : Memory := fun _ => x00.

(** An allocator that places every new array 1 MiB above the base of
    the buffer in use (above address 0 for the first one). *)
Definition next_block (e : Emitter) (n : Z) : Z := code e + 0x100000.

(** An allocator that places the first array at [0x100000] and every
    later one 16 bytes above the base of the buffer in use. *)
Definition near_block (e : Emitter) (n : Z) : Z :=
  if code e =? 0 then 0x100000 else code e + 16.

(** An allocator with two regions, [0x100000] and [0x200000], that
    hands out the one the buffer in use is not in. *)
Definition other_block (e : Emitter) (n : Z) : Z :=
  if code e =? 0x100000 then 0x200000 else 0x100000.

(** What [PPCEmitter (bufferSize)] builds with these allocators on a
    zeroed memory. *)
Definition fresh (bufferSize : Z) : Emitter :=
  {| code := 0x100000; currentPointer := 0x100000; reservedSize := bufferSize;
     autoGrowSize := 64 * 1024; mem := zero_memory |}.

(** The emitter an operation returned, [d] if it did not return. *)
Definition result {A} (o : Outcome A) (d : Emitter) : Emitter :=
  match o with
  | Done _ e => e
  | Panic _ => d
  end.

(** An emitter with its buffer at [0x1000], [n] bytes of it used. *)
Definition sample (n size : Z) : Emitter :=
  {| code := 0x1000; currentPointer := 0x1000 + n; reservedSize := size;
     autoGrowSize := 64 * 1024; mem := zero_memory |}.

(** * The emitter, on a host given by its pointer width, byte order
    and allocator, for a growth mode *)

Section Emitter.

(** Width of [uintptr_t] and [intptr_t] on the host. *)
Variable ptr_bits : Z.
(** Byte order of the host. *)
Variable big_endian : bool.
(** The template parameter of [PPCEmitter]. *)
Variable growMode : GrowingMode.
(** [new uint32_t [n]]: the address the allocator returns for [n] words. *)
Variable new_array : Emitter -> Z -> Z.

(** ** The buffer *)

Definition uptr : Z -> Z := wrap_u ptr_bits.
Definition iptr : Z -> Z := wrap_s ptr_bits.

Definition to_bytes (n : nat) (v : Z) : list byte :=
  if big_endian then rev (le_bytes n v) else le_bytes n v.

Definition of_bytes (l : list byte) : Z :=
  le_value (if big_endian then rev l else l).

Definition load (n : nat) (m : Memory) (a : Z) : Z := of_bytes (load_bytes m a n).
Definition store (n : nat) (m : Memory) (a : Z) (v : Z) : Memory :=
  store_bytes m a (to_bytes n v).

Definition load32 : Memory -> Z -> Z := load 4.
Definition store32 : Memory -> Z -> Z -> Memory := store 4.

Definition getCurr : M Z := fun e => Done (currentPointer e) e.

Definition getCodeSize (e : Emitter) : Z :=
  uptr (uptr (currentPointer e) - uptr (code e)).

(** The body of the AutoGrow branch of [write]: reallocate, copy the
    [currentSize] used bytes, move the cursor, update the size.  The
    diagnostic [printf] leaves the modelled state alone.  [delete code]
    releases the old block: it is defined for a null pointer and for a
    block that [new] returned, which is what [code] is on an emitter the
    constructor built, and there it leaves the modelled state alone; on
    a buffer the caller supplied through [setBuffer] its behaviour is
    undefined, and the model does not follow the program there. *)
Definition grow (currentSize : Z) (e : Emitter) : Emitter :=
  let newSize := uptr (reservedSize e + autoGrowSize e) in
  let newBuffer := new_array e (newSize / 4) in
  {| code := newBuffer;
     currentPointer := uptr (uptr newBuffer + currentSize);
     reservedSize := newSize;
     autoGrowSize := autoGrowSize e;
     mem := memcpy (mem e) newBuffer (code e) currentSize |}.

(** The test [currentSize + sizeof(T) >= reservedSize] of [write]. *)
Definition grows (n : nat) (e : Emitter) : bool :=
  uptr (getCodeSize e + Z.of_nat n) >=? reservedSize e.

(** [write <T> (val)], with [n = sizeof (T)] and [val] the object
    representation of the value as an unsigned integer. *)
Definition write (n : nat) (val : Z) : M unit :=
  fun e =>
    let e1 :=
      match growMode with
      | AutoGrow => if grows n e then grow (getCodeSize e) e else e
      | FixedSize => e
      end in
    Done tt {| code := code e1;
               currentPointer := currentPointer e1 + Z.of_nat n;
               reservedSize := reservedSize e1;
               autoGrowSize := autoGrowSize e1;
               mem := store n (mem e1) (currentPointer e1) val |}.

Definition write8 (val : Z) : M unit := write 1 (u8 val).
Definition write16 (val : Z) : M unit := write 2 (u16 val).
Definition write32 (val : Z) : M unit := write 4 (u32 val).
Definition write64 (val : Z) : M unit := write 8 (u64 val).

(** C++ operators, with the relative precedences of C++. *)
Local Infix "<<" := Z.shiftl (at level 55, left associativity).
Local Infix ">>" := Z.shiftr (at level 55, left associativity).
Local Infix ".&" := Z.land (at level 57, left associativity).
Local Infix ".|" := Z.lor (at level 59, left associativity).

(** [write (T* array, int size)], the array given as the list of its
    [size] elements. *)
Fixpoint write_array (n : nat) (array : list Z) : M unit :=
  match array with
  | [] => ret tt
  | v :: rest => write n (wrap_u (8 * Z.of_nat n) v) ;; write_array n rest
  end.

Definition emitBranch14 (opcode : Z) : M BranchLabel :=
  cia <- getCurr ;;
  write32 opcode ;;
  ret (cia, Branch14).

(** ** Construction and buffer accessors *)

(** The object before the constructor body runs, in a host memory [m]. *)
Definition blank (m : Memory) : Emitter :=
  {| code := 0; currentPointer := 0; reservedSize := 0;
     autoGrowSize := 64 * 1024; mem := m |}.

Definition set_buffer (c p r : Z) (e : Emitter) : Emitter :=
  {| code := c; currentPointer := p; reservedSize := r;
     autoGrowSize := autoGrowSize e; mem := mem e |}.

(** [PPCEmitter (uintptr_t bufferSize = 64 * 1024)] *)
Definition PPCEmitter (m : Memory) (bufferSize : Z) : Outcome unit :=
  let bufferSize := uptr bufferSize in
  let e := set_buffer 0 0 bufferSize (blank m) in
  if bufferSize =? 0 then Done tt e
  else if negb (bufferSize .& 3 =? 0) then Panic BufferSizeNotWordAligned
  else
    let p := new_array e (bufferSize / 4) in
    if p =? 0 then Panic FailedToAllocate
    else Done tt (set_buffer p p bufferSize e).

Definition getBuffer : M Z := fun e => Done (code e) e.

Definition setBuffer (pointer bufferSize : Z) : M unit :=
  fun e =>
    let bufferSize := uptr bufferSize in
    if negb (bufferSize .& 3 =? 0) then Panic BufferSizeNotWordAligned
    else Done tt (set_buffer pointer pointer bufferSize e).

Definition setAutoGrowSize (size : Z) : M unit :=
  fun e =>
    let size := uptr size in
    if negb (size .& 3 =? 0) then Panic AutoGrowSizeNotWordAligned
    else Done tt {| code := code e; currentPointer := currentPointer e;
                    reservedSize := reservedSize e; autoGrowSize := size;
                    mem := mem e |}.

(** ** Directives *)

Definition db (val : Z) : M unit := write8 val.
Definition dh (val : Z) : M unit := write16 val.
Definition dw (val : Z) : M unit := write32 val.
Definition dd (val : Z) : M unit := write64 val.
(** [df32] and [df64] take the IEEE bit pattern of their argument. *)
Definition df32 (bits : Z) : M unit := write 4 (u32 bits).
Definition df64 (bits : Z) : M unit := write 8 (u64 bits).

Definition db_array (arr : list Z) : M unit := write_array 1 arr.
Definition dh_array (arr : list Z) : M unit := write_array 2 arr.
Definition dw_array (arr : list Z) : M unit := write_array 4 arr.
Definition dd_array (arr : list Z) : M unit := write_array 8 arr.

(** [ds (const char* str)]: the characters up to the first NUL (or the
    end of the list), then the NUL. *)
Fixpoint ds (str : list Z) : M unit :=
  match str with
  | [] => db 0
  | c :: rest => if u8 c =? 0 then db 0 else db c ;; ds rest
  end.

(** [while (k--) body] for a counter that starts at [k]. *)
Fixpoint times (k : nat) (body : M unit) : M unit :=
  match k with
  | O => ret tt
  | S k' => body ;; times k' body
  end.

Definition align (bytes : Z) : M unit :=
  let bytes := wrap_s 32 bytes in
  if bytes =? 1 then ret tt
  else if bytes <? 1 then panic (BadAlignment bytes)
  else
    p <- getCurr ;;
    let remainder := uptr p mod uptr bytes in
    times (Z.to_nat remainder) (write8 0).

(** [repeat <end> (f)]: [f (0), f (1), ..., f (end - 1)] in this order. *)
Definition repeat_ (end_ : nat) (f : nat -> M unit) : M unit :=
  fold_right (fun i k => f i ;; k) (ret tt) (seq 0 end_).

Definition ud : M unit := write32 0.
Definition blr : M unit := write32 0x4E800020.
Definition bctr : M unit := write32 0x4E800420.
Definition bctrl : M unit := write32 0x4E800421.

(** ** Encoders *)

Definition ori_word (dest src : GPR) (imm : Z) : Z :=
  0x60000000 .| (gpr src << 21) .| (gpr dest << 16) .| imm.

Definition or_word (setFlags : bool) (dest src1 src2 : GPR) : Z :=
  0x7C000378 .| (gpr src1 << 21) .| (gpr dest << 16) .| (gpr src2 << 11)
  .| bool_to_Z setFlags.

Definition addi_word (dest src : GPR) (imm : Z) : Z :=
  0x38000000 .| (gpr dest << 21) .| (gpr src << 16) .| u16 imm.

Definition addis_word (dest src : GPR) (imm : Z) : Z :=
  0x3C000000 .| (gpr dest << 21) .| (gpr src << 16) .| u16 imm.

Definition addic_word (setFlags : bool) (dest src : GPR) (imm : Z) : Z :=
  if negb setFlags
  then 0x30000000 .| (gpr dest << 21) .| (gpr src << 16) .| u16 imm
  else 0x34000000 .| (gpr dest << 21) .| (gpr src << 16) .| u16 imm.

Definition rlwinm_word (setFlags : bool) (dest src : GPR) (shift mb me : Z) : Z :=
  0x54000000 .| (gpr src << 21) .| (gpr dest << 16) .| ((shift .& 31) << 11)
  .| (mb << 6) .| (me << 1) .| bool_to_Z setFlags.

Definition cntlzw_word (dest src : GPR) : Z :=
  0x7C000034 .| (gpr src << 21) .| (gpr dest << 16).

Definition bx_word (link : bool) : Z := 0x48000000 .| bool_to_Z link.

Definition bcx_word (cond : Cond.t) (link : bool) : Z :=
  let shouldBitBeSet := u32 (Cond.ord cond) <=? 3 in
  let bit := u32 (Cond.ord cond) .& 3 in
  0x40800000 .| (bool_to_Z shouldBitBeSet << 24) .| (bit << 16) .| bool_to_Z link.

(** ** Instructions and pseudo-ops *)

Definition ori (dest src : GPR) (imm : Z) : M unit :=
  let imm := u16 imm in write32 (ori_word dest src imm).

Definition or_ (setFlags : bool) (dest src1 src2 : GPR) : M unit :=
  write32 (or_word setFlags dest src1 src2).

Definition addi (dest src : GPR) (imm : Z) : M unit :=
  let imm := s16 imm in write32 (addi_word dest src imm).

Definition addis (dest src : GPR) (imm : Z) : M unit :=
  let imm := s16 imm in write32 (addis_word dest src imm).

Definition addic (setFlags : bool) (dest src : GPR) (imm : Z) : M unit :=
  let imm := s16 imm in write32 (addic_word setFlags dest src imm).

Definition nop : M unit := ori r0 r0 0.

Definition li (reg : GPR) (imm : Z) : M unit :=
  let imm := s16 imm in addi reg r0 imm.

Definition liu (reg : GPR) (imm : Z) : M unit :=
  let imm := u16 imm in
  if imm <? 0x8000 then li reg imm
  else li reg 0 ;; ori reg reg imm.

Definition lis (reg : GPR) (imm : Z) : M unit :=
  let imm := u16 imm in addis reg r0 imm.

Definition mr (setFlags : bool) (dest src : GPR) : M unit :=
  or_ setFlags dest src src.

Definition liw (reg : GPR) (imm : Z) : M unit :=
  let imm := u32 imm in
  if (imm <=? 0x7FFF) || (imm >=? 0xFFFF8000) then li reg imm
  else if imm .& 0xFFFF =? 0 then lis reg (imm >> 16)
  else lis reg (imm >> 16) ;; ori reg reg (u16 imm).

Definition rlwinm (setFlags : bool) (dest src : GPR) (shift mb me : Z) : M unit :=
  let shift := u8 shift in
  let mb := u8 mb in
  let me := u8 me in
  write32 (rlwinm_word setFlags dest src shift mb me).

Definition slwi (setFlags : bool) (dest src : GPR) (shift : Z) : M unit :=
  let shift := u8 shift in rlwinm setFlags dest src shift 0 (31 - shift).

Definition srwi (setFlags : bool) (dest src : GPR) (shift : Z) : M unit :=
  let shift := u8 shift in rlwinm setFlags dest src (32 - shift) shift 31.

Definition clrlwi (setFlags : bool) (dest src : GPR) (len : Z) : M unit :=
  let len := u8 len in rlwinm setFlags dest src 0 len 31.

Definition clrrwi (setFlags : bool) (dest src : GPR) (len : Z) : M unit :=
  let len := u8 len in rlwinm setFlags dest src 0 0 (31 - len).

Definition rotlwi (setFlags : bool) (dest src : GPR) (amount : Z) : M unit :=
  let amount := u8 amount in rlwinm setFlags dest src amount 0 31.

Definition rotrwi (setFlags : bool) (dest src : GPR) (amount : Z) : M unit :=
  let amount := u8 amount in rlwinm setFlags dest src (32 - amount) 0 31.

Definition extlwi (setFlags : bool) (dest src : GPR) (n b : Z) : M unit :=
  let n := u8 n in
  let b := u8 b in
  rlwinm setFlags dest src b 0 (n - 1).

Definition extrwi (setFlags : bool) (dest src : GPR) (n b : Z) : M unit :=
  let n := u8 n in
  let b := u8 b in
  rlwinm setFlags dest src (b + n) (32 - n) 31.

Definition cntlzw (setFlags : bool) (dest src : GPR) : M unit :=
  write32 (cntlzw_word dest src).

Definition setz (dest src : GPR) : M unit :=
  cntlzw false dest src ;;
  srwi false dest dest 5.

(** ** Branches and labels *)

Definition bx (link : bool) : M BranchLabel :=
  cia <- getCurr ;;
  write32 (bx_word link) ;;
  ret (cia, Branch24).

Definition b : M BranchLabel := bx false.
Definition bl : M BranchLabel := bx true.

(** [bx (void* address)]: branch to a target known at emission time. *)
Definition bx_addr (link : bool) (address : Z) : M unit :=
  p <- getCurr ;;
  let cia := uptr p in
  let disp := iptr (iptr address - iptr cia) in
  if negb (uptr address .& 3 =? 0) then panic UnalignedBranchDisplacement
  else if (disp >=? INT26_MIN) && (disp <=? INT26_MAX)
  then write32 (0x48000000 .| (disp .& 0x3FFFFFC) .| bool_to_Z link)
  else if (iptr address >=? INT26_MIN) && (iptr address <=? INT26_MAX)
  then write32 (0x48000000 .| (uptr address .& 0x3FFFFFC) .| 2 .| bool_to_Z link)
  else panic (InvalidLabel24 (disp >> 2)).

Definition b_addr (address : Z) : M unit := bx_addr false address.
Definition bl_addr (address : Z) : M unit := bx_addr true address.

Definition bcx (cond : Cond.t) (link : bool) : M BranchLabel :=
  emitBranch14 (bcx_word cond link).

Definition beq : M BranchLabel := bcx Cond.Eq false.
Definition bne : M BranchLabel := bcx Cond.Ne false.
Definition blt : M BranchLabel := bcx Cond.Lt false.
Definition bge : M BranchLabel := bcx Cond.Ge false.
Definition ble : M BranchLabel := bcx Cond.Le false.
Definition bgt : M BranchLabel := bcx Cond.Gt false.
Definition bso : M BranchLabel := bcx Cond.Os false.
Definition bns : M BranchLabel := bcx Cond.Oc false.

Definition beql : M BranchLabel := bcx Cond.Eq true.
Definition bnel : M BranchLabel := bcx Cond.Ne true.
Definition bltl : M BranchLabel := bcx Cond.Lt true.
Definition bgel : M BranchLabel := bcx Cond.Ge true.
Definition blel : M BranchLabel := bcx Cond.Le true.
Definition bgtl : M BranchLabel := bcx Cond.Gt true.
Definition bsol : M BranchLabel := bcx Cond.Os true.
Definition bnsl : M BranchLabel := bcx Cond.Oc true.

(** Reading and assigning [*instrAddress], a [uint32_t]. *)
Definition peek32 (a : Z) : M Z := fun e => Done (load32 (mem e) a) e.

Definition poke32 (a v : Z) : M unit :=
  fun e => Done tt {| code := code e; currentPointer := currentPointer e;
                      reservedSize := reservedSize e;
                      autoGrowSize := autoGrowSize e;
                      mem := store32 (mem e) a (u32 v) |}.

(** The displacement [(intptr_t) address - (intptr_t) instrAddress]. *)
Definition label_disp (instrAddress address : Z) : Z :=
  iptr (iptr address - iptr instrAddress).

(** [setLabel (BranchLabel label, void* address)] *)
Definition setLabel (label : BranchLabel) (address : Z) : M unit :=
  let instrAddress := fst label in
  let type := snd label in
  let disp := label_disp instrAddress address in
  if negb (disp .& 3 =? 0) then panic UnalignedBranchDisplacement
  else
    match type with
    | Branch14 =>
        if (disp <=? INT16_MAX) && (disp >=? INT16_MIN) then
          w <- peek32 instrAddress ;;
          poke32 instrAddress (w .& u32 (Z.lnot 0xFFFE) .| (disp .& 0xFFFC))
        else if (iptr address <=? INT16_MAX) && (iptr address >=? INT16_MIN) then
          w <- peek32 instrAddress ;;
          poke32 instrAddress
            (w .& u32 (Z.lnot 0xFFFE) .| (uptr address .& 0xFFFC) .| 2)
        else panic (InvalidLabel14 (disp >> 2))
    | Branch24 =>
        if (disp >=? INT26_MIN) && (disp <=? INT26_MAX) then
          w <- peek32 instrAddress ;;
          poke32 instrAddress (w .& u32 (Z.lnot 0x3FFFFFE) .| (disp .& 0x3FFFFFC))
        else if (iptr address >=? INT26_MIN) && (iptr address <=? INT26_MAX) then
          w <- peek32 instrAddress ;;
          poke32 instrAddress
            (w .& u32 (Z.lnot 0x3FFFFFE) .| (uptr address .& 0x3FFFFFC) .| 2)
        else panic (InvalidLabel24 (disp >> 2))
    end.

(** [setLabel (BranchLabel label)]: resolve to the current cursor. *)
Definition setLabel_here (label : BranchLabel) : M unit :=
  p <- getCurr ;;
  setLabel label p.

(** [loop (counter, iterations, f)] *)
Definition loop (counter : GPR) (iterations : Z) (f : M unit) : M unit :=
  let iterations := uptr iterations in
  if iterations =? 0 then ret tt
  else
    liw counter iterations ;;
    label <- getCurr ;;
    f ;;
    addic true counter counter (-1) ;;
    slot <- bne ;;
    setLabel slot label.

(** ** Specification vocabulary *)

(** [alias] is the raw [rlwinm] call with the fields [(shift, mb, me)],
    and that call is one append of four bytes holding the word that
    encodes these fields. *)
Definition alias_of_rlwinm (setFlags : bool) (d s : GPR) (alias : M unit)
    (shift mb me : Z) : Prop :=
  alias = rlwinm setFlags d s shift mb me /\
  alias = write 4 (rlwinm_word setFlags d s shift mb me) /\
  0 <= rlwinm_word setFlags d s shift mb me < 2 ^ 32.

(** [write32] of each word of a list, in order. *)
Fixpoint emit_words (ws : list Z) : M unit :=
  match ws with
  | [] => ret tt
  | w :: rest => write32 w ;; emit_words rest
  end.

(** ** The instructions of the load-immediate pseudo-ops, executed

    The PowerPC semantics of [addi], [addis] and [ori] on a register
    file of 32-bit values indexed by register number: [addi] and [addis]
    read 0 instead of the register when their source field is 0, sign
    extend the immediate, and [addis] shifts it left by 16; [ori] ors
    the zero-extended immediate into its source. *)

Definition RegFile : Set := Z -> Z.

Definition set_reg (rf : RegFile) (r v : Z) : RegFile :=
  fun x => if x =? r then v else rf x.

Definition exec_word (w : Z) (rf : RegFile) : option RegFile :=
  let opcd := w >> 26 in
  let f21 := (w >> 21) .& 31 in
  let f16 := (w >> 16) .& 31 in
  let imm := w .& 0xFFFF in
  let base := if f16 =? 0 then 0 else rf f16 in
  if opcd =? 14 then Some (set_reg rf f21 (u32 (base + s16 imm)))
  else if opcd =? 15 then Some (set_reg rf f21 (u32 (base + s16 imm * 65536)))
  else if opcd =? 24 then Some (set_reg rf f16 (rf f21 .| imm))
  else None.

Fixpoint exec_words (ws : list Z) (rf : RegFile) : option RegFile :=
  match ws with
  | [] => Some rf
  | w :: rest =>
      match exec_word w rf with
      | Some rf' => exec_words rest rf'
      | None => None
      end
  end.

(** The outcome [o] of an operation on [e] is a normal return that
    leaves [w] in the 32-bit word at address [a] and changes nothing
    else: no other byte of memory and no field of the emitter. *)
Definition patches (e : Emitter) (a w : Z) (o : Outcome unit) : Prop :=
  exists e',
    o = Done tt e' /\
    load32 (mem e') a = w /\
    (forall x, x < a \/ a + 4 <= x -> mem e' x = mem e x) /\
    code e' = code e /\
    currentPointer e' = currentPointer e /\
    reservedSize e' = reservedSize e /\
    autoGrowSize e' = autoGrowSize e.

(** The constants of the two arms of [setLabel]. *)
Definition field_mask (type : BranchType) : Z :=
  match type with Branch14 => 0xFFFC | Branch24 => 0x3FFFFFC end.

Definition patch_mask (type : BranchType) : Z :=
  match type with Branch14 => 0xFFFE | Branch24 => 0x3FFFFFE end.

Definition disp_min (type : BranchType) : Z :=
  match type with Branch14 => INT16_MIN | Branch24 => INT26_MIN end.

Definition disp_max (type : BranchType) : Z :=
  match type with Branch14 => INT16_MAX | Branch24 => INT26_MAX end.

Definition invalid_label (type : BranchType) (words : Z) : Fatal :=
  match type with Branch14 => InvalidLabel14 words | Branch24 => InvalidLabel24 words end.

(** Two emitter objects with equal fields and equal memory contents. *)
Definition same_emitter (e e' : Emitter) : Prop :=
  code e' = code e /\
  currentPointer e' = currentPointer e /\
  reservedSize e' = reservedSize e /\
  autoGrowSize e' = autoGrowSize e /\
  forall x, mem e' x = mem e x.

(** The byte displacement a branch word encodes: its displacement
    field, sign extended from 16 bits (Branch14) or 26 bits (Branch24),
    the low two bits being zero. *)
Definition branch_disp (type : BranchType) (w : Z) : Z :=
  match type with
  | Branch14 => wrap_s 16 (w .& 0xFFFC)
  | Branch24 => wrap_s 26 (w .& 0x3FFFFFC)
  end.

(** The AA bit of a branch word. *)
Definition branch_aa (w : Z) : bool := Z.testbit w 1.

(** The next [k] bytes can be appended without a reallocation: always
    in FixedSize mode, and in AutoGrow mode when the used size plus
    [k] stays below the reserved size. *)
Definition room (k : Z) (e : Emitter) : Prop :=
  growMode = FixedSize \/
  (0 <= used e /\ used e + k < reservedSize e /\ reservedSize e <= 2 ^ ptr_bits).

(** The emitter after [n] bytes holding [val] were stored at the cursor. *)
Definition appended (n : nat) (val : Z) (e : Emitter) : Emitter :=
  {| code := code e;
     currentPointer := currentPointer e + Z.of_nat n;
     reservedSize := reservedSize e;
     autoGrowSize := autoGrowSize e;
     mem := store n (mem e) (currentPointer e) val |}.

(** [L = bne (); nop (); setLabel (L)] *)
Definition forward_branch : M unit :=
  L <- bne ;;
  nop ;;
  setLabel_here L.

(** [P = getCurr (); nop (); L = bne (); setLabel (L, P)] *)
Definition backward_branch : M unit :=
  P <- getCurr ;;
  nop ;;
  L <- bne ;;
  setLabel L P.

(** ** Emission operations as syntax

    The operations modelled above, as a datatype, so that a statement
    can range over every one of them.  Every mnemonic of the header
    that is not listed is one [write32] of its encoding, as [Odw] is.
    The bodies of [repeat] and [loop] are sequences of operations. *)

Inductive Op : Type :=
  | Odb (val : Z) | Odh (val : Z) | Odw (val : Z) | Odd (val : Z)
  | Odf32 (bits : Z) | Odf64 (bits : Z)
  | Odb_array (arr : list Z) | Odh_array (arr : list Z)
  | Odw_array (arr : list Z) | Odd_array (arr : list Z)
  | Ods (str : list Z)
  | Oalign (bytes : Z)
  | Orepeat (end_ : nat) (f : nat -> Ops)
  | Oloop (counter : GPR) (iterations : Z) (f : Ops)
  | Oud | Onop | Oblr | Obctr | Obctrl
  | Oli (reg : GPR) (imm : Z) | Oliu (reg : GPR) (imm : Z)
  | Olis (reg : GPR) (imm : Z) | Oliw (reg : GPR) (imm : Z)
  | Omr (setFlags : bool) (dest src : GPR)
  | Osetz (dest src : GPR)
  | Oori (dest src : GPR) (imm : Z)
  | Oor_ (setFlags : bool) (dest src1 src2 : GPR)
  | Oaddi (dest src : GPR) (imm : Z)
  | Oaddis (dest src : GPR) (imm : Z)
  | Oaddic (setFlags : bool) (dest src : GPR) (imm : Z)
  | Ocntlzw (setFlags : bool) (dest src : GPR)
  | Orlwinm (setFlags : bool) (dest src : GPR) (shift mb me : Z)
  | Oslwi (setFlags : bool) (dest src : GPR) (shift : Z)
  | Osrwi (setFlags : bool) (dest src : GPR) (shift : Z)
  | Oclrlwi (setFlags : bool) (dest src : GPR) (len : Z)
  | Oclrrwi (setFlags : bool) (dest src : GPR) (len : Z)
  | Orotlwi (setFlags : bool) (dest src : GPR) (amount : Z)
  | Orotrwi (setFlags : bool) (dest src : GPR) (amount : Z)
  | Oextlwi (setFlags : bool) (dest src : GPR) (n b : Z)
  | Oextrwi (setFlags : bool) (dest src : GPR) (n b : Z)
  | Obx (link : bool)
  | Obx_addr (link : bool) (address : Z)
  | Obcx (cond : Cond.t) (link : bool)
  | OsetLabel (label : BranchLabel) (address : Z)
  | OsetLabel_here (label : BranchLabel)
with Ops : Type :=
  | Onil
  | Ocons (o : Op) (rest : Ops).

Scheme Op_ops_ind := Induction for Op Sort Prop
  with Ops_op_ind := Induction for Ops Sort Prop.

Definition discard {A} (m : M A) : M unit := _ <- m ;; ret tt.

Fixpoint run (o : Op) : M unit :=
  match o with
  | Odb val => db val | Odh val => dh val | Odw val => dw val | Odd val => dd val
  | Odf32 bits => df32 bits | Odf64 bits => df64 bits
  | Odb_array arr => db_array arr | Odh_array arr => dh_array arr
  | Odw_array arr => dw_array arr | Odd_array arr => dd_array arr
  | Ods str => ds str
  | Oalign bytes => align bytes
  | Orepeat end_ f => repeat_ end_ (fun i => run_all (f i))
  | Oloop counter iterations f => loop counter iterations (run_all f)
  | Oud => ud | Onop => nop | Oblr => blr | Obctr => bctr | Obctrl => bctrl
  | Oli reg imm => li reg imm | Oliu reg imm => liu reg imm
  | Olis reg imm => lis reg imm | Oliw reg imm => liw reg imm
  | Omr setFlags dest src => mr setFlags dest src
  | Osetz dest src => setz dest src
  | Oori dest src imm => ori dest src imm
  | Oor_ setFlags dest src1 src2 => or_ setFlags dest src1 src2
  | Oaddi dest src imm => addi dest src imm
  | Oaddis dest src imm => addis dest src imm
  | Oaddic setFlags dest src imm => addic setFlags dest src imm
  | Ocntlzw setFlags dest src => cntlzw setFlags dest src
  | Orlwinm setFlags dest src shift mb me => rlwinm setFlags dest src shift mb me
  | Oslwi setFlags dest src shift => slwi setFlags dest src shift
  | Osrwi setFlags dest src shift => srwi setFlags dest src shift
  | Oclrlwi setFlags dest src len => clrlwi setFlags dest src len
  | Oclrrwi setFlags dest src len => clrrwi setFlags dest src len
  | Orotlwi setFlags dest src amount => rotlwi setFlags dest src amount
  | Orotrwi setFlags dest src amount => rotrwi setFlags dest src amount
  | Oextlwi setFlags dest src n b => extlwi setFlags dest src n b
  | Oextrwi setFlags dest src n b => extrwi setFlags dest src n b
  | Obx link => discard (bx link)
  | Obx_addr link address => bx_addr link address
  | Obcx cond link => discard (bcx cond link)
  | OsetLabel label address => setLabel label address
  | OsetLabel_here label => setLabel_here label
  end
with run_all (p : Ops) : M unit :=
  match p with
  | Onil => ret tt
  | Ocons o rest => run o ;; run_all rest
  end.

(** An operation that, when it returns, leaves the base pointer, the
    reserved size and the grow step alone and does not move the cursor
    backwards. *)
Definition keeps_buffer {A} (m : M A) : Prop :=
  forall e,
    match m e with
    | Done _ e' =>
        code e' = code e /\
        reservedSize e' = reservedSize e /\
        autoGrowSize e' = autoGrowSize e /\
        currentPointer e <= currentPointer e'
    | Panic _ => True
    end.

(** ** Vocabulary for the buffer *)

(** The array a growing append would allocate starts at a non-negative
    address and the used bytes fit between it and the end of the
    address space. *)
Definition alloc_fits (e : Emitter) : Prop :=
  let p := new_array e (uptr (reservedSize e + autoGrowSize e) / 4) in
  0 <= p /\ p + used e < 2 ^ ptr_bits.

(** The object after [autoGrowSize = size]. *)
Definition with_step (size : Z) (e : Emitter) : Emitter :=
  {| code := code e; currentPointer := currentPointer e;
     reservedSize := reservedSize e; autoGrowSize := size; mem := mem e |}.

(** Both sizes of the object are multiples of four. *)
Definition aligned_sizes (e : Emitter) : Prop :=
  reservedSize e mod 4 = 0 /\ autoGrowSize e mod 4 = 0.

(** An operation that, when it returns, leaves the emitter it was
    applied to and the emitter it returns related by [R]. *)
Definition respects (R : Emitter -> Emitter -> Prop) {A} (m : M A) : Prop :=
  forall e,
    match m e with
    | Done _ e' => R e e'
    | Panic _ => True
    end.

(** Aligned sizes stay aligned. *)
Definition sizes_kept (e e' : Emitter) : Prop :=
  aligned_sizes e -> aligned_sizes e'.

(** The cursor did not move backwards and no byte below the old cursor
    changed. *)
Definition extends (e e' : Emitter) : Prop :=
  currentPointer e <= currentPointer e' /\
  forall x, x < currentPointer e -> mem e' x = mem e x.

(** Operations that resolve no label given by the caller; the token
    [loop] resolves is the one of the branch it emits itself. *)
Fixpoint label_free (o : Op) : bool :=
  match o with
  | OsetLabel _ _ | OsetLabel_here _ => false
  | Orepeat end_ f => forallb (fun i => label_free_all (f i)) (seq 0 end_)
  | Oloop _ _ f => label_free_all f
  | _ => true
  end
with label_free_all (p : Ops) : bool :=
  match p with
  | Onil => true
  | Ocons o rest => label_free o && label_free_all rest
  end.

(** The characters of a C string: those before the first NUL. *)
Fixpoint c_str (str : list Z) : list Z :=
  match str with
  | [] => []
  | c :: rest => if u8 c =? 0 then [] else c :: c_str rest
  end.

(** ** The three-register arithmetic instructions

    [add], [subf], [mullw], [divw] and their relatives are one function
    each in the header, all of one shape: a constant or-ed with the
    destination at bit 21, the two sources at bits 16 and 11, and
    [setFlags]. *)

Inductive Arith3 : Set :=
  | Add | Addo | Addc | Addco | Adde | Addeo
  | Subf | Subfo | Subfc | Subfco | Subfe | Subfeo
  | Mullw | Mullwo | Mulhw | Mulhwu
  | Divwu | Divwuo | Divw | Divwo.

(** The constant of each function. *)
Definition arith3_base (m : Arith3) : Z :=
  match m with
  | Add => 0x7C000214 | Addo => 0x7C000614
  | Addc => 0x7C000014 | Addco => 0x7C000414
  | Adde => 0x7C000114 | Addeo => 0x7C000514
  | Subf => 0x7C000050 | Subfo => 0x7C000450
  | Subfc => 0x7C000010 | Subfco => 0x7C000410
  | Subfe => 0x7C000110 | Subfeo => 0x7C000510
  | Mullw => 0x7C0001D6 | Mullwo => 0x7C0003D6
  | Mulhw => 0x7C000096 | Mulhwu => 0x7C000016
  | Divwu => 0x7C000396 | Divwuo => 0x7C000796
  | Divw => 0x7C0003D6 | Divwo => 0x7C0007D6
  end.

Definition arith3_word (m : Arith3) (setFlags : bool) (dest src1 src2 : GPR) : Z :=
  arith3_base m .| (gpr dest << 21) .| (gpr src1 << 16) .| (gpr src2 << 11)
  .| bool_to_Z setFlags.

Definition arith3 (m : Arith3) (setFlags : bool) (dest src1 src2 : GPR) : M unit :=
  write32 (arith3_word m setFlags dest src1 src2).

Definition add : bool -> GPR -> GPR -> GPR -> M unit := arith3 Add.
Definition addo : bool -> GPR -> GPR -> GPR -> M unit := arith3 Addo.
Definition addc : bool -> GPR -> GPR -> GPR -> M unit := arith3 Addc.
Definition addco : bool -> GPR -> GPR -> GPR -> M unit := arith3 Addco.
Definition adde : bool -> GPR -> GPR -> GPR -> M unit := arith3 Adde.
Definition addeo : bool -> GPR -> GPR -> GPR -> M unit := arith3 Addeo.
Definition subf : bool -> GPR -> GPR -> GPR -> M unit := arith3 Subf.
Definition subfo : bool -> GPR -> GPR -> GPR -> M unit := arith3 Subfo.
Definition subfc : bool -> GPR -> GPR -> GPR -> M unit := arith3 Subfc.
Definition subfco : bool -> GPR -> GPR -> GPR -> M unit := arith3 Subfco.
Definition subfe : bool -> GPR -> GPR -> GPR -> M unit := arith3 Subfe.
Definition subfeo : bool -> GPR -> GPR -> GPR -> M unit := arith3 Subfeo.
Definition mullw : bool -> GPR -> GPR -> GPR -> M unit := arith3 Mullw.
Definition mullwo : bool -> GPR -> GPR -> GPR -> M unit := arith3 Mullwo.
Definition mulhw : bool -> GPR -> GPR -> GPR -> M unit := arith3 Mulhw.
Definition mulhwu : bool -> GPR -> GPR -> GPR -> M unit := arith3 Mulhwu.
Definition divwu : bool -> GPR -> GPR -> GPR -> M unit := arith3 Divwu.
Definition divwuo : bool -> GPR -> GPR -> GPR -> M unit := arith3 Divwuo.
Definition divw : bool -> GPR -> GPR -> GPR -> M unit := arith3 Divw.
Definition divwo : bool -> GPR -> GPR -> GPR -> M unit := arith3 Divwo.

(** The [sub] forms: the [subf] forms with the sources exchanged. *)
Definition sub (setFlags : bool) (dest src1 src2 : GPR) : M unit :=
  subf setFlags dest src2 src1.
Definition subo (setFlags : bool) (dest src1 src2 : GPR) : M unit :=
  subfo setFlags dest src2 src1.
Definition subc (setFlags : bool) (dest src1 src2 : GPR) : M unit :=
  subfc setFlags dest src2 src1.
Definition subco (setFlags : bool) (dest src1 src2 : GPR) : M unit :=
  subfco setFlags dest src2 src1.
Definition sube (setFlags : bool) (dest src1 src2 : GPR) : M unit :=
  subfe setFlags dest src2 src1.
Definition subeo (setFlags : bool) (dest src1 src2 : GPR) : M unit :=
  subfeo setFlags dest src2 src1.

(** ** The private helper [signExtend32]

    [(uint32_t) ((int32_t) value << bitsToShift >> bitsToShift)]: the
    shift to the left keeps the low 32 bits, the shift to the right is
    arithmetic. *)
Definition signExtend32 (value startingSize : Z) : Z :=
  let value := u32 value in
  let startingSize := u32 startingSize in
  let bitsToShift := u32 (32 - startingSize) in
  u32 (wrap_s 32 (wrap_s 32 value << bitsToShift) >> bitsToShift).

(** ** More of the instruction set, executed

    The PowerPC semantics of the instructions the remaining pseudo-ops
    are made of, on the register file of before: [rlwinm] rotates its
    source left and ands it with the mask of the bits [mb] to [me],
    numbered from the most significant bit, the mask wrapping around
    when [mb > me]; [or] ors two registers; [cntlzw] counts the leading
    zero bits, 32 for zero; [subf] subtracts its first source from its
    second.  The bit that records the result in CR0 has no effect on
    the registers. *)

Definition rotl32 (x n : Z) : Z := u32 (x << n) .| (x >> (32 - n)).

Definition rlw_mask (mb me : Z) : Z :=
  if mb <=? me then Z.ones (me - mb + 1) << (31 - me)
  else u32 (Z.lnot (Z.ones (mb - me - 1) << (32 - mb))).

Definition clz32 (x : Z) : Z := if x =? 0 then 32 else 31 - Z.log2 x.

Definition exec_insn (w : Z) (rf : RegFile) : option RegFile :=
  let opcd := w >> 26 in
  let f21 := (w >> 21) .& 31 in
  let f16 := (w >> 16) .& 31 in
  let f11 := (w >> 11) .& 31 in
  let xo := (w >> 1) .& 1023 in
  if opcd =? 21 then
    Some (set_reg rf f16
            (rotl32 (rf f21) f11 .& rlw_mask ((w >> 6) .& 31) ((w >> 1) .& 31)))
  else if opcd =? 31 then
    if xo =? 444 then Some (set_reg rf f16 (rf f21 .| rf f11))
    else if xo =? 26 then Some (set_reg rf f16 (clz32 (rf f21)))
    else if xo .& 511 =? 40 then Some (set_reg rf f21 (u32 (rf f11 - rf f16)))
    else None
  else exec_word w rf.

Fixpoint exec_insns (ws : list Z) (rf : RegFile) : option RegFile :=
  match ws with
  | [] => Some rf
  | w :: rest =>
      match exec_insn w rf with
      | Some rf' => exec_insns rest rf'
      | None => None
      end
  end.

(** [op] is one append of the 32-bit word [w], and [w] executed on [rf]
    writes [v] to register [d] and nothing else. *)
Definition computes (op : M unit) (rf : RegFile) (d : GPR) (v : Z) : Prop :=
  exists w,
    0 <= w < 2 ^ 32 /\
    op = write 4 w /\
    exec_insn w rf = Some (set_reg rf (gpr d) v).

(** ** Conditional branches, executed

    The four bits of CR0 are LT, GT, EQ and SO, numbered 0 to 3.  A
    [bc] word with the fields BO and BI is taken when the counter test
    and the condition test both pass: bit 2 of BO switches the counter
    test off, otherwise the counter is decremented and compared with
    zero as bit 1 of BO says; bit 4 of BO switches the condition test
    off, otherwise bit BI of the CR must equal bit 3 of BO. *)

Definition bc_taken (w : Z) (cr : Z -> bool) (ctr : Z) : bool :=
  let bo := (w >> 21) .& 31 in
  let bi := (w >> 16) .& 31 in
  let ctr_ok := Z.testbit bo 2 || xorb (negb (u32 (ctr - 1) =? 0)) (Z.testbit bo 1) in
  let cond_ok := Z.testbit bo 4 || Bool.eqb (cr bi) (Z.testbit bo 3) in
  ctr_ok && cond_ok.

(** What the name of a condition says about CR0. *)
Definition holds (c : Cond.t) (cr : Z -> bool) : bool :=
  match c with
  | Cond.Lt => cr 0
  | Cond.Gt => cr 1
  | Cond.Eq => cr 2
  | Cond.Os => cr 3
  | Cond.Ge => negb (cr 0)
  | Cond.Le => negb (cr 1)
  | Cond.Ne => negb (cr 2)
  | Cond.Oc => negb (cr 3)
  end.

(** ** Loads and stores with a 16-bit offset

    [stb], [lwz], [lmw] and their relatives are one function each in the
    header, all of one shape: a constant or-ed with the register moved
    at bit 21, the base register at bit 16 and the offset, an [int16_t],
    converted to [uint16_t]. *)

Inductive MemOp : Set :=
  | Stb | Stbu | Sth | Sthu | Stw | Stwu
  | Lbz | Lbzu | Lhz | Lhzu | Lwz | Lwzu
  | Lmw | Stmw.

Definition mem_base (m : MemOp) : Z :=
  match m with
  | Stb => 0x98000000 | Stbu => 0x9C000000
  | Sth => 0xB0000000 | Sthu => 0xB4000000
  | Stw => 0x90000000 | Stwu => 0x94000000
  | Lbz => 0x88000000 | Lbzu => 0x8C000000
  | Lhz => 0xA0000000 | Lhzu => 0xA4000000
  | Lwz => 0x80000000 | Lwzu => 0x84000000
  | Lmw => 0xB8000000 | Stmw => 0xBC000000
  end.

Definition mem_word (m : MemOp) (reg base : GPR) (offset : Z) : Z :=
  mem_base m .| (gpr reg << 21) .| (gpr base << 16) .| u16 offset.

Definition mem_op (m : MemOp) (reg base : GPR) (offset : Z) : M unit :=
  let offset := s16 offset in write32 (mem_word m reg base offset).

Definition stb : GPR -> GPR -> Z -> M unit := mem_op Stb.
Definition stbu : GPR -> GPR -> Z -> M unit := mem_op Stbu.
Definition sth : GPR -> GPR -> Z -> M unit := mem_op Sth.
Definition sthu : GPR -> GPR -> Z -> M unit := mem_op Sthu.
Definition stw : GPR -> GPR -> Z -> M unit := mem_op Stw.
Definition stwu : GPR -> GPR -> Z -> M unit := mem_op Stwu.
Definition lbz : GPR -> GPR -> Z -> M unit := mem_op Lbz.
Definition lbzu : GPR -> GPR -> Z -> M unit := mem_op Lbzu.
Definition lhz : GPR -> GPR -> Z -> M unit := mem_op Lhz.
Definition lhzu : GPR -> GPR -> Z -> M unit := mem_op Lhzu.
Definition lwz : GPR -> GPR -> Z -> M unit := mem_op Lwz.
Definition lwzu : GPR -> GPR -> Z -> M unit := mem_op Lwzu.
Definition lmw : GPR -> GPR -> Z -> M unit := mem_op Lmw.
Definition stmw : GPR -> GPR -> Z -> M unit := mem_op Stmw.

(** * Properties *)

(** Pointers are at least 32 bits wide. *)
Hypothesis ptr_wide : 32 <= ptr_bits.

(** ** Bytes and memory *)

Lemma Z_of_byte_range (b : byte) : 0 <= Z_of_byte b < 256.
Proof.
  unfold Z_of_byte. pose proof (Byte.to_N_bounded b) as H.
  split; [apply N2Z.is_nonneg|].
  change 256 with (Z.of_N 256). apply N2Z.inj_lt. lia.
Qed.

Lemma Z_of_byte_of_Z (z : Z) : Z_of_byte (byte_of_Z z) = z mod 256.
Proof.
  unfold Z_of_byte, byte_of_Z.
  assert (Hr : 0 <= z mod 256 < 256) by (apply Z.mod_pos_bound; lia).
  destruct (Byte.of_N (Z.to_N (z mod 256))) as [b|] eqn:E.
  - apply Byte.to_of_N in E. rewrite E. apply Z2N.id. lia.
  - apply Byte.of_N_None_iff in E. lia.
Qed.

Lemma le_bytes_length (n : nat) (v : Z) : length (le_bytes n v) = n.
Proof. revert v. induction n as [|n IH]; intros v; simpl; [|rewrite IH]; reflexivity. Qed.

Lemma le_value_range (l : list byte) : 0 <= le_value l < 2 ^ (8 * Z.of_nat (length l)).
Proof.
  induction l as [|b l IH].
  - simpl. lia.
  - cbn [le_value length]. pose proof (Z_of_byte_range b).
    replace (8 * Z.of_nat (S (length l))) with (8 + 8 * Z.of_nat (length l)) by lia.
    rewrite Z.pow_add_r by lia. change (2 ^ 8) with 256. nia.
Qed.

Lemma le_value_le_bytes (n : nat) (v : Z) :
  le_value (le_bytes n v) = v mod 2 ^ (8 * Z.of_nat n).
Proof.
  revert v. induction n as [|n IH]; intros v.
  - simpl. now rewrite Z.mod_1_r.
  - cbn [le_bytes le_value]. rewrite Z_of_byte_of_Z, IH.
    replace (8 * Z.of_nat (S n)) with (8 + 8 * Z.of_nat n) by lia.
    rewrite Z.pow_add_r by lia. change (2 ^ 8) with 256.
    rewrite Z.rem_mul_r by lia. reflexivity.
Qed.

Lemma store_bytes_out (m : Memory) (a : Z) (l : list byte) (x : Z) :
  x < a \/ a + Z.of_nat (length l) <= x -> store_bytes m a l x = m x.
Proof.
  intros H. unfold store_bytes.
  destruct (a <=? x) eqn:E1; destruct (x <? a + Z.of_nat (length l)) eqn:E2;
    simpl; try reflexivity; lia.
Qed.

Lemma store_bytes_in (m : Memory) (a : Z) (l : list byte) (i : nat) :
  (i < length l)%nat -> store_bytes m a l (a + Z.of_nat i) = nth i l x00.
Proof.
  intros H. unfold store_bytes.
  destruct (a <=? a + Z.of_nat i) eqn:E1;
    destruct (a + Z.of_nat i <? a + Z.of_nat (length l)) eqn:E2; simpl; try lia.
  f_equal. lia.
Qed.

Lemma load_bytes_length (m : Memory) (a : Z) (n : nat) : length (load_bytes m a n) = n.
Proof. unfold load_bytes. now rewrite length_map, length_seq. Qed.

Lemma load_bytes_ext (m m' : Memory) (a : Z) (n : nat) :
  (forall x, a <= x < a + Z.of_nat n -> m x = m' x) ->
  load_bytes m a n = load_bytes m' a n.
Proof.
  intros H. unfold load_bytes. apply map_ext_in. intros i Hi.
  apply in_seq in Hi. apply H. lia.
Qed.

Lemma nth_map_seq {A} (f : nat -> A) (n i : nat) (d : A) :
  (i < n)%nat -> nth i (map f (seq 0 n)) d = f i.
Proof.
  intros H. rewrite nth_indep with (d' := f 0%nat) by (now rewrite length_map, length_seq).
  now rewrite map_nth, seq_nth.
Qed.

Lemma load_store_bytes (m : Memory) (a : Z) (l : list byte) :
  load_bytes (store_bytes m a l) a (length l) = l.
Proof.
  apply nth_ext with (d := x00) (d' := x00).
  - apply load_bytes_length.
  - intros i Hi. rewrite load_bytes_length in Hi. unfold load_bytes.
    rewrite nth_map_seq by assumption. now apply store_bytes_in.
Qed.

Lemma to_bytes_length (n : nat) (v : Z) : length (to_bytes n v) = n.
Proof.
  unfold to_bytes. destruct big_endian; [rewrite length_rev|]; apply le_bytes_length.
Qed.

Lemma of_to_bytes (n : nat) (v : Z) : of_bytes (to_bytes n v) = v mod 2 ^ (8 * Z.of_nat n).
Proof.
  unfold of_bytes, to_bytes. destruct big_endian; [rewrite rev_involutive|];
    apply le_value_le_bytes.
Qed.

Lemma of_bytes_range (l : list byte) : 0 <= of_bytes l < 2 ^ (8 * Z.of_nat (length l)).
Proof.
  unfold of_bytes. destruct big_endian.
  - rewrite <- (length_rev l). apply le_value_range.
  - apply le_value_range.
Qed.

Lemma load_store_same (n : nat) (m : Memory) (a v : Z) :
  load n (store n m a v) a = v mod 2 ^ (8 * Z.of_nat n).
Proof.
  unfold load, store.
  rewrite <- (to_bytes_length n v) at 2. rewrite load_store_bytes. apply of_to_bytes.
Qed.

Lemma load_store_other (n k : nat) (m : Memory) (a a' v : Z) :
  a' + Z.of_nat k <= a \/ a + Z.of_nat n <= a' ->
  load k (store n m a v) a' = load k m a'.
Proof.
  intros H. unfold load, store. f_equal. apply load_bytes_ext. intros x Hx.
  apply store_bytes_out. rewrite to_bytes_length. lia.
Qed.

Lemma store_out (n : nat) (m : Memory) (a v x : Z) :
  x < a \/ a + Z.of_nat n <= x -> store n m a v x = m x.
Proof. intros H. unfold store. apply store_bytes_out. now rewrite to_bytes_length. Qed.

Lemma load32_range (m : Memory) (a : Z) : 0 <= load32 m a < 2 ^ 32.
Proof.
  unfold load32, load. pose proof (of_bytes_range (load_bytes m a 4)) as H.
  now rewrite load_bytes_length in H.
Qed.

Lemma load32_store32 (m : Memory) (a v : Z) : load32 (store32 m a v) a = u32 v.
Proof. unfold load32, store32. now rewrite load_store_same. Qed.

Lemma load32_ext (m m' : Memory) (a : Z) :
  (forall x, a <= x < a + 4 -> m x = m' x) -> load32 m a = load32 m' a.
Proof.
  intros H. unfold load32, load. f_equal. apply load_bytes_ext. intros x Hx.
  apply H. change (Z.of_nat 4) with 4 in Hx. lia.
Qed.

Lemma store_store_same (n : nat) (m : Memory) (a v x : Z) :
  store n (store n m a v) a v x = store n m a v x.
Proof.
  unfold store, store_bytes.
  destruct ((a <=? x) && (x <? a + Z.of_nat (length (to_bytes n v)))); reflexivity.
Qed.

(** ** Integer conversions *)

Lemma wrap_u_small (bits z : Z) : 0 <= z < 2 ^ bits -> wrap_u bits z = z.
Proof. intros H. unfold wrap_u. now apply Z.mod_small. Qed.

Lemma wrap_u_range (bits z : Z) : 0 <= bits -> 0 <= wrap_u bits z < 2 ^ bits.
Proof. intros H. unfold wrap_u. apply Z.mod_pos_bound. now apply Z.pow_pos_nonneg. Qed.

Lemma u8_small (z : Z) : 0 <= z < 256 -> u8 z = z.
Proof. intros H. now apply wrap_u_small. Qed.

Lemma u16_small (z : Z) : 0 <= z < 65536 -> u16 z = z.
Proof. intros H. now apply wrap_u_small. Qed.

Lemma u32_small (z : Z) : 0 <= z < 2 ^ 32 -> u32 z = z.
Proof. intros H. now apply wrap_u_small. Qed.

Lemma u16_s16 (x : Z) : u16 (s16 x) = u16 x.
Proof.
  unfold u16, s16, wrap_u, wrap_s. change (2 ^ (16 - 1)) with 32768.
  change (2 ^ 16) with 65536. rewrite Zminus_mod_idemp_l. f_equal. lia.
Qed.

Lemma u16_u16 (x : Z) : u16 (u16 x) = u16 x.
Proof. unfold u16, wrap_u. apply Z.mod_mod. lia. Qed.

Lemma u16_u32 (x : Z) : u16 (u32 x) = u16 x.
Proof.
  unfold u16, u32, wrap_u. change (2 ^ 32) with (2 ^ 16 * 2 ^ 16).
  rewrite Z.rem_mul_r by lia. rewrite Z.add_mod by lia.
  rewrite Z.mul_comm, Z.mod_mul by lia. rewrite Z.add_0_r. now rewrite !Z.mod_mod by lia.
Qed.

Lemma land_low16 (x : Z) : x .& 0xFFFF = u16 x.
Proof. change 0xFFFF with (Z.ones 16). now rewrite Z.land_ones by lia. Qed.

Lemma s16_small (x : Z) : -32768 <= x < 32768 -> s16 x = x.
Proof.
  intros H. unfold s16, wrap_s. change (2 ^ (16 - 1)) with 32768.
  change (2 ^ 16) with 65536. rewrite Z.mod_small; lia.
Qed.

Lemma s16_range (x : Z) : -32768 <= s16 x < 32768.
Proof.
  unfold s16, wrap_s. change (2 ^ (16 - 1)) with 32768. change (2 ^ 16) with 65536.
  pose proof (Z.mod_pos_bound (x + 32768) 65536). lia.
Qed.

(** Unfold the conversions to 8, 16 and 32 bits and leave linear
    arithmetic over quotients and remainders. *)
Ltac wrap_arith :=
  unfold u8, u16, u32, s16, wrap_u, wrap_s in *;
  change (2 ^ (16 - 1)) with 32768 in *;
  change (2 ^ 8) with 256 in *;
  change (2 ^ 16) with 65536 in *;
  change (2 ^ 32) with 4294967296 in *;
  Z.div_mod_to_equations; lia.

Lemma u32_land_ones (x : Z) : u32 x = x .& Z.ones 32.
Proof. unfold u32, wrap_u. now rewrite Z.land_ones by lia. Qed.

Lemma u32_u32 (x : Z) : u32 (u32 x) = u32 x.
Proof. unfold u32, wrap_u. apply Z.mod_mod. lia. Qed.

Lemma u32_load32 (m : Memory) (a : Z) : u32 (load32 m a) = load32 m a.
Proof. apply u32_small, load32_range. Qed.

Lemma wrap_s_small (n x : Z) :
  0 < n -> - 2 ^ (n - 1) <= x < 2 ^ (n - 1) -> wrap_s n x = x.
Proof.
  intros Hn H. unfold wrap_s.
  replace (2 ^ n) with (2 * 2 ^ (n - 1)).
  - rewrite Z.mod_small; lia.
  - rewrite <- Z.pow_succ_r by lia. f_equal. lia.
Qed.

Lemma wrap_s_mod (n x : Z) : wrap_s n (x mod 2 ^ n) = wrap_s n x.
Proof. unfold wrap_s. now rewrite Zplus_mod_idemp_l. Qed.

Lemma iptr_congr (a b : Z) : iptr (iptr a - iptr b) = iptr (a - b).
Proof.
  unfold iptr, wrap_s. set (h := 2 ^ (ptr_bits - 1)). set (m := 2 ^ ptr_bits).
  assert (Hm : m <> 0) by (apply Z.pow_nonzero; lia).
  f_equal. rewrite (Z.mod_eq (a + h) m), (Z.mod_eq (b + h) m) by assumption.
  replace (a + h - m * ((a + h) / m) - h - (b + h - m * ((b + h) / m) - h) + h)
    with (a - b + h + ((b + h) / m - (a + h) / m) * m) by ring.
  apply Z_mod_plus_full.
Qed.

Lemma iptr_small (x : Z) :
  - 2 ^ (ptr_bits - 1) <= x < 2 ^ (ptr_bits - 1) -> iptr x = x.
Proof.
  intros H. unfold iptr, wrap_s.
  replace (2 ^ ptr_bits) with (2 * 2 ^ (ptr_bits - 1)).
  - rewrite Z.mod_small; lia.
  - rewrite <- Z.pow_succ_r by lia. f_equal. lia.
Qed.

Lemma iptr_const (x : Z) : - 2 ^ 31 <= x < 2 ^ 31 -> iptr x = x.
Proof.
  intros H. apply iptr_small.
  assert (2 ^ 31 <= 2 ^ (ptr_bits - 1)) by (apply Z.pow_le_mono_r; lia). lia.
Qed.

Lemma uptr_land (x m : Z) : 0 <= m < 2 ^ 32 -> uptr x .& m = x .& m.
Proof.
  intros Hm. unfold uptr, wrap_u. rewrite <- Z.land_ones by lia.
  rewrite <- Z.land_assoc. f_equal.
  rewrite Z.land_comm, Z.land_ones by lia. apply Z.mod_small.
  split; [lia|]. apply Z.lt_le_trans with (2 ^ 32); [lia|].
  apply Z.pow_le_mono_r; lia.
Qed.

(** ** Bit fields *)

(** Or-ing a value below [2 ^ k] into a multiple of [2 ^ k] adds it. *)
Lemma lor_field (k hi lo : Z) :
  0 <= k -> hi mod 2 ^ k = 0 -> 0 <= lo < 2 ^ k -> hi .| lo = hi + lo.
Proof.
  intros Hk Hhi Hlo.
  assert (E : hi .& lo = 0).
  { apply Z.bits_inj'. intros i Hi. rewrite Z.land_spec, Z.bits_0.
    destruct (Z.lt_ge_cases i k) as [Hlt|Hge].
    - rewrite <- (Z.mod_pow2_bits_low hi k i) by lia. rewrite Hhi, Z.bits_0. reflexivity.
    - rewrite <- (Z.mod_small lo (2 ^ k)) by lia.
      rewrite Z.mod_pow2_bits_high by lia. apply andb_false_r. }
  rewrite <- Z.lxor_lor by assumption. symmetry. now apply Z.add_nocarry_lxor.
Qed.

(** A D-form word is the sum of its fields. *)
Lemma dform_sum (op d a imm : Z) :
  0 <= d < 32 -> 0 <= a < 32 -> 0 <= imm < 65536 ->
  op * 2 ^ 26 .| (d << 21) .| (a << 16) .| imm
  = op * 2 ^ 26 + d * 2 ^ 21 + a * 2 ^ 16 + imm.
Proof.
  intros Hd Ha Hi. rewrite !Z.shiftl_mul_pow2 by lia.
  rewrite (lor_field 26 (op * 2 ^ 26) (d * 2 ^ 21)); [| lia | apply Z.mod_mul; lia | lia].
  rewrite (lor_field 21 _ (a * 2 ^ 16)); [| lia | | lia].
  2:{ change (2 ^ 26) with (32 * 2 ^ 21). rewrite Z.mul_assoc, <- Z.mul_add_distr_r.
      apply Z.mod_mul. lia. }
  rewrite (lor_field 16 _ imm); [reflexivity | lia | | lia].
  change (2 ^ 26) with (1024 * 2 ^ 16). change (2 ^ 21) with (32 * 2 ^ 16).
  rewrite !Z.mul_assoc, <- !Z.mul_add_distr_r. apply Z.mod_mul. lia.
Qed.

Lemma dform_decode (op d a imm : Z) :
  0 <= op < 64 -> 0 <= d < 32 -> 0 <= a < 32 -> 0 <= imm < 65536 ->
  let w := op * 2 ^ 26 .| (d << 21) .| (a << 16) .| imm in
  w >> 26 = op /\ (w >> 21) .& 31 = d /\ (w >> 16) .& 31 = a /\ w .& 0xFFFF = imm.
Proof.
  intros Ho Hd Ha Hi w. subst w. rewrite dform_sum by assumption.
  rewrite !Z.shiftr_div_pow2 by lia.
  change 31 with (Z.ones 5). change 0xFFFF with (Z.ones 16). rewrite !Z.land_ones by lia.
  change (2 ^ 26) with 67108864. change (2 ^ 21) with 2097152.
  change (2 ^ 16) with 65536. change (2 ^ 5) with 32.
  repeat split; Z.div_mod_to_equations; lia.
Qed.

Lemma gpr_range (r : GPR) : 0 <= gpr r < 32.
Proof. destruct r; simpl; lia. Qed.

Lemma dform_range (op d a imm : Z) :
  0 <= op < 64 -> 0 <= d < 32 -> 0 <= a < 32 -> 0 <= imm < 65536 ->
  0 <= op * 2 ^ 26 .| (d << 21) .| (a << 16) .| imm < 2 ^ 32.
Proof.
  intros Ho Hd Ha Hi. rewrite dform_sum by assumption.
  change (2 ^ 26) with 67108864. change (2 ^ 21) with 2097152.
  change (2 ^ 16) with 65536. change (2 ^ 32) with 4294967296. lia.
Qed.

(** ** Appending *)

Lemma write_fixed (n : nat) (val : Z) (e : Emitter) :
  growMode = FixedSize -> write n val e = Done tt (appended n val e).
Proof. intros H. unfold write. rewrite H. reflexivity. Qed.

Lemma getCodeSize_used (e : Emitter) :
  0 <= used e < 2 ^ ptr_bits -> getCodeSize e = used e.
Proof.
  intros H. unfold getCodeSize, uptr, wrap_u, used in *.
  rewrite <- Zminus_mod. now apply Z.mod_small.
Qed.

Lemma room_no_grow (n : nat) (e : Emitter) :
  0 <= used e -> used e + Z.of_nat n < reservedSize e -> reservedSize e <= 2 ^ ptr_bits ->
  grows n e = false.
Proof.
  intros H1 H2 H3. unfold grows. rewrite getCodeSize_used by lia.
  unfold uptr, wrap_u. rewrite Z.mod_small by lia.
  rewrite Z.geb_leb. apply Z.leb_gt. lia.
Qed.

Lemma write_room (n : nat) (val : Z) (e : Emitter) :
  room (Z.of_nat n) e -> write n val e = Done tt (appended n val e).
Proof.
  intros [H|(H1 & H2 & H3)]; [now apply write_fixed|].
  unfold write. rewrite room_no_grow by assumption. now destruct growMode.
Qed.

Lemma room_appended (k : Z) (n : nat) (val : Z) (e : Emitter) :
  room (k + Z.of_nat n) e -> room k (appended n val e).
Proof.
  intros [H|(H1 & H2 & H3)]; [now left|]. right. unfold used, appended in *. cbn. lia.
Qed.

Lemma room_weaken (k k' : Z) (e : Emitter) : k' <= k -> room k e -> room k' e.
Proof. intros Hk [H|(H1 & H2 & H3)]; [now left|]. right. lia. Qed.

Lemma write32_room (w : Z) (e : Emitter) :
  room 4 e -> write32 w e = Done tt (appended 4 (u32 w) e).
Proof. intros H. unfold write32. now apply (write_room 4). Qed.

Lemma load32_appended_same (w : Z) (e : Emitter) :
  load32 (mem (appended 4 w e)) (currentPointer e) = u32 w.
Proof. unfold appended. cbn [mem]. apply load32_store32. Qed.

Lemma load32_appended_other (n : nat) (w : Z) (e : Emitter) (a : Z) :
  a + 4 <= currentPointer e \/ currentPointer e + Z.of_nat n <= a ->
  load32 (mem (appended n w e)) a = load32 (mem e) a.
Proof. intros H. unfold appended, load32. cbn [mem]. now apply load_store_other. Qed.

Lemma write_grows (n : nat) (val : Z) (e : Emitter) :
  growMode = AutoGrow -> grows n e = true ->
  write n val e = Done tt (appended n val (grow (getCodeSize e) e)).
Proof. intros Hmode Hg. unfold write. rewrite Hmode, Hg. reflexivity. Qed.

(** The test of [write] compares with [>=]: an append that exactly
    fills the buffer grows it too. *)
Lemma grows_iff (n : nat) (e : Emitter) :
  0 <= used e -> used e + Z.of_nat n < 2 ^ ptr_bits ->
  grows n e = true <-> reservedSize e <= used e + Z.of_nat n.
Proof.
  intros H1 H2. unfold grows. rewrite getCodeSize_used by lia.
  unfold uptr, wrap_u. rewrite Z.mod_small by lia.
  rewrite Z.geb_leb. apply Z.leb_le.
Qed.

(** A grow adds the grow step to the reserved size; when the new array
    lies in the address space, the used size and the used bytes are
    those of before. *)
Lemma grow_keeps_used (e : Emitter) :
  let e' := grow (getCodeSize e) e in
  reservedSize e' = uptr (reservedSize e + autoGrowSize e) /\
  (0 <= used e -> 0 <= code e' -> code e' + used e < 2 ^ ptr_bits ->
   used e' = used e /\
   forall i, 0 <= i < used e -> mem e' (code e' + i) = mem e (code e + i)).
Proof.
  intros e'. subst e'. unfold grow. cbn [reservedSize code currentPointer mem used].
  split; [reflexivity|]. intros H1 H2 H3.
  set (p := new_array e _) in *.
  rewrite getCodeSize_used by lia.
  assert (Ep : uptr p = p) by (apply wrap_u_small; lia).
  rewrite Ep. unfold uptr. rewrite (wrap_u_small ptr_bits (p + used e)) by lia.
  split; [unfold used at 1; cbn [currentPointer code]; lia|]. intros i Hi. unfold memcpy.
  destruct (Z.leb_spec p (p + i)); [|lia].
  destruct (Z.ltb_spec (p + i) (p + used e)); [|lia].
  cbn. f_equal. lia.
Qed.

(** Without a reallocation, [emit_words] leaves its words, in order, in
    the buffer from the cursor on, and moves the cursor past them. *)
Lemma emit_words_room (ws : list Z) (e : Emitter) :
  room (4 * Z.of_nat (length ws)) e ->
  exists e',
    emit_words ws e = Done tt e' /\
    currentPointer e' = currentPointer e + 4 * Z.of_nat (length ws) /\
    code e' = code e /\
    (forall i, (i < length ws)%nat ->
               load32 (mem e') (currentPointer e + 4 * Z.of_nat i) = u32 (nth i ws 0)) /\
    (forall x, x < currentPointer e -> mem e' x = mem e x).
Proof.
  revert e. induction ws as [|w ws IH]; intros e Hr.
  - exists e. cbn. repeat split; try lia.
  - cbn [emit_words length] in *. unfold bind.
    rewrite write32_room by (revert Hr; apply room_weaken; lia).
    destruct (IH (appended 4 (u32 w) e)) as (e' & E & Hc & Hb & Hw & Ho).
    { apply (room_appended _ 4). revert Hr. apply room_weaken. lia. }
    exists e'. split; [exact E|].
    cbn [appended currentPointer code mem] in Hc, Hb, Hw, Ho.
    split; [lia|]. split; [exact Hb|]. split.
    + intros [|i] Hi.
      * cbn [nth]. replace (currentPointer e + 4 * Z.of_nat 0) with (currentPointer e) by lia.
        rewrite <- (u32_u32 w), <- (load32_appended_same (u32 w) e).
        apply load32_ext. intros x Hx. apply Ho. lia.
      * cbn [nth]. rewrite <- Hw by lia. f_equal. lia.
    + intros x Hx. rewrite Ho by lia. apply store_out. lia.
Qed.

(** C6, as the code has it. In FixedSize mode an append of [n] bytes
    has no bounds check and no error branch: whatever the used and the
    reserved sizes are, it stores the value at the cursor and advances
    the cursor by [n], leaving the base pointer and the reserved size
    unchanged. *)
Theorem fixed_append_unchecked (n : nat) (val : Z) (e : Emitter) :
  growMode = FixedSize ->
  exists e',
    write n val e = Done tt e' /\
    load n (mem e') (currentPointer e) = val mod 2 ^ (8 * Z.of_nat n) /\
    (forall x, x < currentPointer e \/ currentPointer e + Z.of_nat n <= x ->
               mem e' x = mem e x) /\
    currentPointer e' = currentPointer e + Z.of_nat n /\
    code e' = code e /\
    reservedSize e' = reservedSize e.
Proof.
  intros Hmode. exists (appended n val e). split; [now apply write_fixed|].
  unfold appended. cbn [mem currentPointer code reservedSize].
  split; [apply load_store_same|]. split; [|auto].
  intros x Hx. now apply store_out.
Qed.

(** ** The rotate-and-mask aliases *)

(** An [rlwinm] word is the sum of its fields. *)
Lemma rlwinm_word_sum (setFlags : bool) (d s : GPR) (shift mb me : Z) :
  0 <= mb < 32 -> 0 <= me < 32 ->
  rlwinm_word setFlags d s shift mb me
  = 21 * 2 ^ 26 + gpr s * 2 ^ 21 + gpr d * 2 ^ 16 + shift mod 32 * 2 ^ 11
    + mb * 2 ^ 6 + me * 2 + bool_to_Z setFlags.
Proof.
  intros Hmb Hme. pose proof (gpr_range d) as Hd. pose proof (gpr_range s) as Hs.
  assert (Hsh : 0 <= shift mod 32 < 32) by (apply Z.mod_pos_bound; lia).
  assert (Hf : 0 <= bool_to_Z setFlags < 2) by (destruct setFlags; cbn; lia).
  unfold rlwinm_word. change 31 with (Z.ones 5). rewrite Z.land_ones by lia.
  change (2 ^ 5) with 32. change 0x54000000 with (21 * 2 ^ 26).
  rewrite !Z.shiftl_mul_pow2 by lia. change (2 ^ 1) with 2.
  change (2 ^ 26) with 67108864. change (2 ^ 21) with 2097152.
  change (2 ^ 16) with 65536. change (2 ^ 11) with 2048. change (2 ^ 6) with 64.
  rewrite (lor_field 26 _ (gpr s * 2097152))
    by (change (2 ^ 26) with 67108864; Z.div_mod_to_equations; lia).
  rewrite (lor_field 21 _ (gpr d * 65536))
    by (change (2 ^ 21) with 2097152; Z.div_mod_to_equations; lia).
  rewrite (lor_field 16 _ (shift mod 32 * 2048))
    by (change (2 ^ 16) with 65536; Z.div_mod_to_equations; lia).
  rewrite (lor_field 11 _ (mb * 64))
    by (change (2 ^ 11) with 2048; Z.div_mod_to_equations; lia).
  rewrite (lor_field 6 _ (me * 2))
    by (change (2 ^ 6) with 64; Z.div_mod_to_equations; lia).
  rewrite (lor_field 1 _ (bool_to_Z setFlags))
    by (change (2 ^ 1) with 2; Z.div_mod_to_equations; lia).
  reflexivity.
Qed.

Lemma rlwinm_word_range (setFlags : bool) (d s : GPR) (shift mb me : Z) :
  0 <= mb < 32 -> 0 <= me < 32 ->
  0 <= rlwinm_word setFlags d s shift mb me < 2 ^ 32.
Proof.
  intros Hmb Hme. rewrite rlwinm_word_sum by assumption.
  pose proof (gpr_range d) as Hd. pose proof (gpr_range s) as Hs.
  assert (Hsh : 0 <= shift mod 32 < 32) by (apply Z.mod_pos_bound; lia).
  assert (Hf : 0 <= bool_to_Z setFlags < 2) by (destruct setFlags; cbn; lia).
  change (2 ^ 26) with 67108864. change (2 ^ 21) with 2097152.
  change (2 ^ 16) with 65536. change (2 ^ 11) with 2048. change (2 ^ 6) with 64.
  change (2 ^ 32) with 4294967296. lia.
Qed.

(** The raw call with in-range fields: one append of the word. *)
Lemma rlwinm_single_word (setFlags : bool) (d s : GPR) (shift mb me : Z) :
  0 <= shift < 256 -> 0 <= mb < 32 -> 0 <= me < 32 ->
  rlwinm setFlags d s shift mb me = write 4 (rlwinm_word setFlags d s shift mb me).
Proof.
  intros H1 H2 H3. unfold rlwinm, write32.
  rewrite !u8_small by lia. now rewrite u32_small by now apply rlwinm_word_range.
Qed.

Lemma rlwinm_is_alias (setFlags : bool) (d s : GPR) (shift mb me : Z) :
  0 <= shift < 256 -> 0 <= mb < 32 -> 0 <= me < 32 ->
  alias_of_rlwinm setFlags d s (rlwinm setFlags d s shift mb me) shift mb me.
Proof.
  intros H1 H2 H3. split; [reflexivity|].
  split; [now apply rlwinm_single_word | now apply rlwinm_word_range].
Qed.

(** C3. For all GPRs [d], [s], every [setFlags] and all [n], [b] in
    0..31 ([n >= 1] for the two extract forms), each of [slwi], [srwi],
    [clrlwi], [clrrwi], [rotlwi], [rotrwi], [extlwi], [extrwi] behaves
    on every emitter exactly as the raw [rlwinm] call with the aliased
    fields, which appends the single 32-bit word [rlwinm_word] of these
    fields. *)
Theorem rlwinm_aliases (setFlags : bool) (d s : GPR) (n b : Z) :
  0 <= n <= 31 -> 0 <= b <= 31 ->
  let is_rlwinm := alias_of_rlwinm setFlags d s in
  is_rlwinm (slwi setFlags d s n) n 0 (31 - n) /\
  is_rlwinm (srwi setFlags d s n) (32 - n) n 31 /\
  is_rlwinm (clrlwi setFlags d s n) 0 n 31 /\
  is_rlwinm (clrrwi setFlags d s n) 0 0 (31 - n) /\
  is_rlwinm (rotlwi setFlags d s n) n 0 31 /\
  is_rlwinm (rotrwi setFlags d s n) (32 - n) 0 31 /\
  (1 <= n ->
   is_rlwinm (extlwi setFlags d s n b) b 0 (n - 1) /\
   is_rlwinm (extrwi setFlags d s n b) (b + n) (32 - n) 31).
Proof.
  intros Hn Hb is_rlwinm. subst is_rlwinm.
  assert (En : u8 n = n) by (apply u8_small; lia).
  assert (Eb : u8 b = b) by (apply u8_small; lia).
  unfold slwi, srwi, clrlwi, clrrwi, rotlwi, rotrwi, extlwi, extrwi.
  rewrite En, Eb.
  repeat split; intros; apply rlwinm_is_alias; lia.
Qed.

(** ** The load-immediate pseudo-op *)

Lemma addi_word_imm (d s : GPR) (i j : Z) : u16 i = u16 j -> addi_word d s i = addi_word d s j.
Proof. intros H. unfold addi_word. now rewrite H. Qed.

Lemma addis_word_imm (d s : GPR) (i j : Z) : u16 i = u16 j -> addis_word d s i = addis_word d s j.
Proof. intros H. unfold addis_word. now rewrite H. Qed.

Lemma exec_addi (d a : GPR) (imm : Z) (rf : RegFile) :
  exec_word (addi_word d a imm) rf
  = Some (set_reg rf (gpr d)
            (u32 ((if gpr a =? 0 then 0 else rf (gpr a)) + s16 (u16 imm)))).
Proof.
  unfold exec_word, addi_word. change 0x38000000 with (14 * 2 ^ 26).
  destruct (dform_decode 14 (gpr d) (gpr a) (u16 imm)) as (E1 & E2 & E3 & E4);
    try apply gpr_range; try lia; try (apply wrap_u_range; lia).
  rewrite E1, E2, E3, E4. reflexivity.
Qed.

Lemma exec_addis (d a : GPR) (imm : Z) (rf : RegFile) :
  exec_word (addis_word d a imm) rf
  = Some (set_reg rf (gpr d)
            (u32 ((if gpr a =? 0 then 0 else rf (gpr a)) + s16 (u16 imm) * 65536))).
Proof.
  unfold exec_word, addis_word. change 0x3C000000 with (15 * 2 ^ 26).
  destruct (dform_decode 15 (gpr d) (gpr a) (u16 imm)) as (E1 & E2 & E3 & E4);
    try apply gpr_range; try lia; try (apply wrap_u_range; lia).
  rewrite E1, E2, E3, E4. reflexivity.
Qed.

Lemma exec_ori (d s : GPR) (imm : Z) (rf : RegFile) :
  0 <= imm < 65536 ->
  exec_word (ori_word d s imm) rf = Some (set_reg rf (gpr d) (rf (gpr s) .| imm)).
Proof.
  intros Hi. unfold exec_word, ori_word. change 0x60000000 with (24 * 2 ^ 26).
  destruct (dform_decode 24 (gpr s) (gpr d) imm) as (E1 & E2 & E3 & E4);
    try apply gpr_range; try lia.
  rewrite E1, E2, E3, E4. reflexivity.
Qed.

Lemma set_reg_same (rf : RegFile) (r v : Z) : set_reg rf r v r = v.
Proof. unfold set_reg. now rewrite Z.eqb_refl. Qed.

Lemma set_reg_other (rf : RegFile) (r v x : Z) : x <> r -> set_reg rf r v x = rf x.
Proof. intros H. unfold set_reg. destruct (Z.eqb_spec x r); [contradiction | reflexivity]. Qed.

(** The words [liw] emits for a 32-bit value. *)
Lemma liw_emits (reg : GPR) (v : Z) (e : Emitter) :
  0 <= v < 2 ^ 32 ->
  liw reg v e =
  emit_words
    (if (v <=? 0x7FFF) || (v >=? 0xFFFF8000) then [addi_word reg r0 (v .& 0xFFFF)]
     else if v .& 0xFFFF =? 0 then [addis_word reg r0 (v >> 16)]
     else [addis_word reg r0 (v >> 16); ori_word reg reg (v .& 0xFFFF)]) e.
Proof.
  intros Hv. unfold liw. rewrite (u32_small v) by assumption.
  assert (Hhi : 0 <= v >> 16 < 65536).
  { rewrite Z.shiftr_div_pow2 by lia. change (2 ^ 16) with 65536.
    change (2 ^ 32) with (65536 * 65536) in Hv. Z.div_mod_to_equations. lia. }
  destruct ((v <=? 0x7FFF) || (v >=? 0xFFFF8000)).
  - unfold li, addi. cbn [emit_words]. unfold bind, ret, write32, write.
    rewrite (addi_word_imm reg r0 (s16 (s16 v)) (v .& 0xFFFF)); [reflexivity|].
    now rewrite !u16_s16, land_low16, u16_u16.
  - destruct (v .& 0xFFFF =? 0).
    + unfold lis, addis. cbn [emit_words]. unfold bind, ret, write32, write.
      rewrite (addis_word_imm reg r0 (s16 (u16 (v >> 16))) (v >> 16)); [reflexivity|].
      now rewrite u16_s16, u16_u16.
    + unfold lis, addis, ori. cbn [emit_words]. unfold bind, ret, write32, write.
      rewrite (addis_word_imm reg r0 (s16 (u16 (v >> 16))) (v >> 16))
        by now rewrite u16_s16, u16_u16.
      rewrite u16_u16, land_low16. reflexivity.
Qed.

(** The value [liw]'s words leave in the register. *)
Lemma liw_executes (reg : GPR) (v : Z) (rf : RegFile) :
  0 <= v < 2 ^ 32 ->
  exists rf',
    exec_words
      (if (v <=? 0x7FFF) || (v >=? 0xFFFF8000) then [addi_word reg r0 (v .& 0xFFFF)]
       else if v .& 0xFFFF =? 0 then [addis_word reg r0 (v >> 16)]
       else [addis_word reg r0 (v >> 16); ori_word reg reg (v .& 0xFFFF)]) rf
    = Some rf' /\
    rf' (gpr reg) = v /\
    forall r, r <> gpr reg -> rf' r = rf r.
Proof.
  intros Hv. rewrite land_low16, Z.shiftr_div_pow2 by lia.
  change (2 ^ 16) with 65536.
  assert (Hlo : 0 <= u16 v < 65536) by (apply (wrap_u_range 16); lia).
  assert (Hhi : 0 <= v / 65536 < 65536) by wrap_arith.
  destruct ((v <=? 0x7FFF) || (v >=? 0xFFFF8000)) eqn:E1.
  - cbn [exec_words]. rewrite exec_addi. eexists. split; [reflexivity|]. split.
    + rewrite set_reg_same. simpl (gpr r0 =? 0). cbv iota.
      apply orb_true_iff in E1. rewrite u16_u16.
      destruct E1 as [E1|E1]; [apply Z.leb_le in E1 | apply Z.geb_le in E1]; wrap_arith.
    + intros r Hr. now apply set_reg_other.
  - apply orb_false_iff in E1. destruct E1 as [E1 E2].
    apply Z.leb_gt in E1. rewrite Z.geb_leb in E2. apply Z.leb_gt in E2.
    destruct (u16 v =? 0) eqn:E3.
    + apply Z.eqb_eq in E3.
      cbn [exec_words]. rewrite exec_addis. eexists. split; [reflexivity|]. split.
      * rewrite set_reg_same. simpl (gpr r0 =? 0). cbv iota.
        pose proof (s16_range (u16 (v / 65536))) as Hs.
        assert (Es : s16 (u16 (v / 65536)) = v / 65536 \/
                     s16 (u16 (v / 65536)) = v / 65536 - 65536) by wrap_arith.
        destruct Es as [Es|Es]; rewrite Es; wrap_arith.
      * intros r Hr. now apply set_reg_other.
    + apply Z.eqb_neq in E3.
      cbn [exec_words]. rewrite exec_addis. rewrite exec_ori by assumption.
      eexists. split; [reflexivity|]. split.
      * rewrite !set_reg_same. simpl (gpr r0 =? 0). cbv iota.
        assert (Es : u32 (0 + s16 (u16 (v / 65536)) * 65536) = v / 65536 * 65536).
        { assert (Es : s16 (u16 (v / 65536)) = v / 65536 \/
                       s16 (u16 (v / 65536)) = v / 65536 - 65536) by wrap_arith.
          destruct Es as [Es|Es]; rewrite Es; wrap_arith. }
        rewrite Es. rewrite (lor_field 16); [wrap_arith | lia | | assumption].
        apply Z.mod_mul. lia.
      * intros r Hr. now rewrite !set_reg_other.
Qed.

(** The words of [liw] in the buffer. *)
Lemma liw_words_room (reg : GPR) (v : Z) (e : Emitter) :
  0 <= v < 2 ^ 32 ->
  let ws := if (v <=? 0x7FFF) || (v >=? 0xFFFF8000) then [addi_word reg r0 (v .& 0xFFFF)]
            else if v .& 0xFFFF =? 0 then [addis_word reg r0 (v >> 16)]
            else [addis_word reg r0 (v >> 16); ori_word reg reg (v .& 0xFFFF)] in
  room (4 * Z.of_nat (length ws)) e ->
  exists e',
    liw reg v e = Done tt e' /\
    currentPointer e' = currentPointer e + 4 * Z.of_nat (length ws) /\
    forall i, (i < length ws)%nat ->
              load32 (mem e') (currentPointer e + 4 * Z.of_nat i) = u32 (nth i ws 0).
Proof.
  intros Hv ws Hr. rewrite liw_emits by assumption. fold ws.
  destruct (emit_words_room ws e Hr) as (e' & E & Hc & _ & Hw & _).
  exists e'. auto.
Qed.

Lemma u32_liw_words (reg : GPR) (v : Z) :
  u32 (addi_word reg r0 (v .& 0xFFFF)) = addi_word reg r0 (v .& 0xFFFF) /\
  u32 (addis_word reg r0 (v >> 16)) = addis_word reg r0 (v >> 16) /\
  u32 (ori_word reg reg (v .& 0xFFFF)) = ori_word reg reg (v .& 0xFFFF).
Proof.
  pose proof (gpr_range reg) as Hg.
  assert (H16 : forall x, 0 <= u16 x < 65536) by (intros x; apply (wrap_u_range 16); lia).
  unfold addi_word, addis_word, ori_word.
  change 0x38000000 with (14 * 2 ^ 26). change 0x3C000000 with (15 * 2 ^ 26).
  change 0x60000000 with (24 * 2 ^ 26). rewrite land_low16.
  repeat split; apply u32_small, dform_range; auto; cbn; lia.
Qed.

(** C4. For every GPR [reg] and 32-bit value [v], [liw reg v] appends
    exactly the single [li] word when [v <= 0x7FFF] or [v >= 0xFFFF8000],
    else exactly the single [lis] word of [v >> 16] when the low halfword
    is zero, else exactly the two words [lis] of [v >> 16] then [ori] of
    the low halfword: it is the [write32] of these words in order, and
    without a reallocation they are the words in the buffer from the old
    cursor to the new one.  These words, executed on any register file,
    leave exactly [v] in [reg] and every other register unchanged. *)
Theorem liw_loads_value (reg : GPR) (v : Z) :
  0 <= v < 2 ^ 32 ->
  let li_w := addi_word reg r0 (v .& 0xFFFF) in
  let lis_w := addis_word reg r0 (v >> 16) in
  let ori_w := ori_word reg reg (v .& 0xFFFF) in
  let ws := if (v <=? 0x7FFF) || (v >=? 0xFFFF8000) then [li_w]
            else if v .& 0xFFFF =? 0 then [lis_w]
            else [lis_w; ori_w] in
  (forall e, liw reg v e = emit_words ws e) /\
  (forall e, room (4 * Z.of_nat (length ws)) e ->
     exists e',
       liw reg v e = Done tt e' /\
       currentPointer e' = currentPointer e + 4 * Z.of_nat (length ws) /\
       forall i, (i < length ws)%nat ->
                 load32 (mem e') (currentPointer e + 4 * Z.of_nat i) = nth i ws 0) /\
  (forall rf, exists rf',
      exec_words ws rf = Some rf' /\
      rf' (gpr reg) = v /\
      forall r, r <> gpr reg -> rf' r = rf r).
Proof.
  intros Hv li_w lis_w ori_w ws.
  split; [intros e; now apply liw_emits|].
  split; [|intros rf; now apply liw_executes].
  intros e Hr. destruct (liw_words_room reg v e Hv Hr) as (e' & E & Hc & Hw).
  exists e'. split; [exact E|]. split; [exact Hc|].
  intros i Hi. rewrite (Hw i Hi). fold li_w lis_w ori_w ws.
  destruct (u32_liw_words reg v) as (U1 & U2 & U3). fold li_w lis_w ori_w in U1, U2, U3.
  subst ws.
  destruct ((v <=? 0x7FFF) || (v >=? 0xFFFF8000)); [|destruct (v .& 0xFFFF =? 0)];
    destruct i as [|[|i]]; cbn [nth length] in *; try assumption; lia.
Qed.

(** ** The [align] directive *)




(** ** Branch emission *)

Lemma bcx_word_value (cond : Cond.t) (link : bool) :
  bcx_word cond link
  = 0x40800000 .| (if Cond.ord cond <=? 3 then 1 << 24 else 0)
    .| ((Cond.ord cond .& 3) << 16) .| (if link then 1 else 0).
Proof. destruct cond, link; reflexivity. Qed.

Lemma u32_bcx_word (cond : Cond.t) (link : bool) : u32 (bcx_word cond link) = bcx_word cond link.
Proof. destruct cond, link; reflexivity. Qed.

Lemma u32_bx_word (link : bool) : u32 (bx_word link) = bx_word link.
Proof. destruct link; reflexivity. Qed.

(** Without a reallocation, a branch is one word at the cursor, and the
    token holds the address of that word. *)
Lemma branch_room (e : Emitter) :
  room 4 e ->
  (forall cond link,
      bcx cond link e
      = Done (currentPointer e, Branch14) (appended 4 (bcx_word cond link) e) /\
      load32 (mem (appended 4 (bcx_word cond link) e)) (currentPointer e)
      = bcx_word cond link) /\
  (forall link,
      bx link e = Done (currentPointer e, Branch24) (appended 4 (bx_word link) e) /\
      load32 (mem (appended 4 (bx_word link) e)) (currentPointer e) = bx_word link).
Proof.
  intros Hr. split.
  - intros cond link. unfold bcx, emitBranch14, bind, getCurr, ret.
    rewrite write32_room, u32_bcx_word by assumption.
    split; [reflexivity|]. now rewrite load32_appended_same, u32_bcx_word.
  - intros link. unfold bx, bind, getCurr, ret.
    rewrite write32_room, u32_bx_word by assumption.
    split; [reflexivity|]. now rewrite load32_appended_same, u32_bx_word.
Qed.

(** When the append of a branch reallocates, the word lands at the
    cursor of the new buffer while the token keeps the cursor of the
    old one. *)
Lemma branch_grows (e : Emitter) :
  growMode = AutoGrow -> grows 4 e = true ->
  let e1 := grow (getCodeSize e) e in
  (forall cond link,
      bcx cond link e
      = Done (currentPointer e, Branch14) (appended 4 (bcx_word cond link) e1) /\
      load32 (mem (appended 4 (bcx_word cond link) e1)) (currentPointer e1)
      = bcx_word cond link) /\
  (forall link,
      bx link e = Done (currentPointer e, Branch24) (appended 4 (bx_word link) e1) /\
      load32 (mem (appended 4 (bx_word link) e1)) (currentPointer e1) = bx_word link).
Proof.
  intros Hmode Hg e1. split.
  - intros cond link. unfold bcx, emitBranch14, bind, getCurr, ret, write32.
    rewrite write_grows, u32_bcx_word by assumption. fold e1.
    split; [reflexivity|]. now rewrite load32_appended_same, u32_bcx_word.
  - intros link. unfold bx, bind, getCurr, ret, write32.
    rewrite write_grows, u32_bx_word by assumption. fold e1.
    split; [reflexivity|]. now rewrite load32_appended_same, u32_bx_word.
Qed.

(** ** Label fix-up *)

(** A patched word is already a 32-bit value: the conversion at the
    assignment to [*instrAddress] changes nothing. *)
Lemma u32_patch (w k x m : Z) :
  0 <= w < 2 ^ 32 -> m .& Z.ones 32 = m ->
  u32 (w .& u32 (Z.lnot k) .| (x .& m)) = w .& Z.lnot k .| (x .& m).
Proof.
  intros Hw Hm. apply u32_small in Hw. rewrite !u32_land_ones in *.
  apply Z.bits_inj'. intros i Hi.
  apply (f_equal (fun z => Z.testbit z i)) in Hw, Hm.
  rewrite !Z.land_spec in Hw, Hm.
  rewrite !Z.land_spec, !Z.lor_spec, !Z.land_spec, Z.lnot_spec by assumption.
  destruct (Z.testbit w i), (Z.testbit k i), (Z.testbit x i), (Z.testbit m i),
    (Z.testbit (Z.ones 32) i); simpl in *; congruence.
Qed.

Lemma u32_patch_aa (w k x m : Z) :
  0 <= w < 2 ^ 32 -> m .& Z.ones 32 = m ->
  u32 (w .& u32 (Z.lnot k) .| (x .& m) .| 2) = w .& Z.lnot k .| (x .& m) .| 2.
Proof.
  intros Hw Hm. rewrite u32_land_ones, Z.land_lor_distr_l.
  rewrite <- u32_land_ones, u32_patch by assumption. reflexivity.
Qed.

(** The displacement is the difference of the two addresses whenever
    that difference is an [intptr_t]. *)
Lemma label_disp_exact (B T : Z) :
  - 2 ^ (ptr_bits - 1) <= T - B < 2 ^ (ptr_bits - 1) -> label_disp B T = T - B.
Proof. intros H. unfold label_disp. rewrite iptr_congr. now apply iptr_small. Qed.

Lemma label_disp_offset (B d : Z) : - 2 ^ 31 <= d < 2 ^ 31 -> label_disp B (B + d) = d.
Proof.
  intros H. unfold label_disp. rewrite iptr_congr.
  replace (B + d - B) with d by ring. now apply iptr_const.
Qed.

Lemma label_disp_diff (B T : Z) : - 2 ^ 31 <= T - B < 2 ^ 31 -> label_disp B T = T - B.
Proof.
  intros H. apply label_disp_exact.
  assert (2 ^ 31 <= 2 ^ (ptr_bits - 1)) by (apply Z.pow_le_mono_r; lia). lia.
Qed.

Lemma poke32_patches (e : Emitter) (a v : Z) : patches e a (u32 v) (poke32 a v e).
Proof.
  unfold poke32. eexists. split; [reflexivity|].
  cbn [mem code currentPointer reservedSize autoGrowSize].
  rewrite load32_store32, u32_u32.
  repeat split. intros x Hx. unfold store32. apply store_out. lia.
Qed.

Lemma in_range_le_ge (x lo hi : Z) :
  (x <=? hi) && (x >=? lo) = true <-> lo <= x <= hi.
Proof. rewrite andb_true_iff, Z.geb_leb, !Z.leb_le. lia. Qed.

Lemma in_range_ge_le (x lo hi : Z) :
  (x >=? lo) && (x <=? hi) = true <-> lo <= x <= hi.
Proof. rewrite andb_true_iff, Z.geb_leb, !Z.leb_le. lia. Qed.

Lemma setLabel_unaligned (B T : Z) (type : BranchType) (e : Emitter) :
  label_disp B T .& 3 <> 0 ->
  setLabel (B, type) T e = Panic UnalignedBranchDisplacement.
Proof.
  intros Ha. unfold setLabel. cbn [fst snd].
  destruct (Z.eqb_spec (label_disp B T .& 3) 0); [contradiction | reflexivity].
Qed.

(** The two range tests of [setLabel], as propositions. *)
Lemma setLabel_range_test (type : BranchType) (x : Z) :
  (match type with
   | Branch14 => (x <=? INT16_MAX) && (x >=? INT16_MIN)
   | Branch24 => (x >=? INT26_MIN) && (x <=? INT26_MAX)
   end) = true <-> disp_min type <= x <= disp_max type.
Proof. destruct type; [apply in_range_le_ge | apply in_range_ge_le]. Qed.

Lemma setLabel_range_fail (type : BranchType) (x : Z) :
  ~ disp_min type <= x <= disp_max type ->
  (match type with
   | Branch14 => (x <=? INT16_MAX) && (x >=? INT16_MIN)
   | Branch24 => (x >=? INT26_MIN) && (x <=? INT26_MAX)
   end) = false.
Proof.
  intros H. apply not_true_iff_false. now rewrite setLabel_range_test.
Qed.

(** The relative form: the displacement is aligned and in range. *)
Lemma setLabel_relative (B T : Z) (type : BranchType) (e : Emitter) :
  label_disp B T .& 3 = 0 ->
  disp_min type <= label_disp B T <= disp_max type ->
  patches e B
    (load32 (mem e) B .& Z.lnot (patch_mask type) .| (label_disp B T .& field_mask type))
    (setLabel (B, type) T e).
Proof.
  intros Ha Hr. unfold setLabel. cbn [fst snd]. rewrite Ha. cbn [Z.eqb negb].
  apply setLabel_range_test in Hr.
  destruct type; cbn [patch_mask field_mask]; rewrite Hr; unfold bind, peek32;
    rewrite <- u32_patch by (apply load32_range || reflexivity); apply poke32_patches.
Qed.

(** The absolute fallback: the displacement is out of range and the
    target, as a signed address, is in range. *)
Lemma setLabel_absolute (B T : Z) (type : BranchType) (e : Emitter) :
  label_disp B T .& 3 = 0 ->
  ~ disp_min type <= label_disp B T <= disp_max type ->
  disp_min type <= iptr T <= disp_max type ->
  patches e B
    (load32 (mem e) B .& Z.lnot (patch_mask type) .| (T .& field_mask type) .| 2)
    (setLabel (B, type) T e).
Proof.
  intros Ha Hd Hr. unfold setLabel. cbn [fst snd]. rewrite Ha. cbn [Z.eqb negb].
  apply setLabel_range_fail in Hd. apply setLabel_range_test in Hr.
  destruct type; cbn [patch_mask field_mask]; rewrite Hd, Hr; unfold bind, peek32;
    rewrite uptr_land by lia;
    rewrite <- u32_patch_aa by (apply load32_range || reflexivity); apply poke32_patches.
Qed.

Lemma setLabel_out_of_range (B T : Z) (type : BranchType) (e : Emitter) :
  label_disp B T .& 3 = 0 ->
  ~ disp_min type <= label_disp B T <= disp_max type ->
  ~ disp_min type <= iptr T <= disp_max type ->
  setLabel (B, type) T e = Panic (invalid_label type (label_disp B T >> 2)).
Proof.
  intros Ha Hd Hr. unfold setLabel. cbn [fst snd]. rewrite Ha. cbn [Z.eqb negb].
  apply setLabel_range_fail in Hd. apply setLabel_range_fail in Hr.
  destruct type; rewrite Hd, Hr; reflexivity.
Qed.

(** C1. [setLabel] on a token [(B, type)] and a target [T], with [disp]
    the displacement it computes ([T - B] whenever that is an
    [intptr_t]) and [word] the word at [B]: a displacement with nonzero
    low two bits is fatal; otherwise, when [disp] is in the range of the
    branch kind, the word at [B] becomes
    [(word & ~0xFFFE) | (disp & 0xFFFC)]; else, when [T] itself is in
    that range as a signed address, it becomes
    [(word & ~0xFFFE) | (T & 0xFFFC) | 2]; else the call is fatal.  The
    range is [INT16_MIN, INT16_MAX] for Branch14; Branch24 has the range
    [-0x2000000, 0x1FFFFFF] and the masks [0x3FFFFFE] and [0x3FFFFFC].
    A successful call changes nothing but that word. *)
Theorem setLabel_cases (B T : Z) (type : BranchType) (e : Emitter) :
  let disp := label_disp B T in
  let word := load32 (mem e) B in
  let out := setLabel (B, type) T e in
  let in_range x := disp_min type <= x <= disp_max type in
  (- 2 ^ (ptr_bits - 1) <= T - B < 2 ^ (ptr_bits - 1) -> disp = T - B) /\
  (disp .& 3 <> 0 -> out = Panic UnalignedBranchDisplacement) /\
  (disp .& 3 = 0 -> in_range disp ->
   patches e B (word .& Z.lnot (patch_mask type) .| (disp .& field_mask type)) out) /\
  (disp .& 3 = 0 -> ~ in_range disp -> in_range (iptr T) ->
   patches e B (word .& Z.lnot (patch_mask type) .| (T .& field_mask type) .| 2) out) /\
  (disp .& 3 = 0 -> ~ in_range disp -> ~ in_range (iptr T) ->
   out = Panic (invalid_label type (disp >> 2))).
Proof.
  intros disp word out in_range. subst disp word out in_range. cbv beta.
  split; [apply label_disp_exact|].
  split; [apply setLabel_unaligned|].
  split; [apply setLabel_relative|].
  split; [apply setLabel_absolute | apply setLabel_out_of_range].
Qed.

(** Clearing a field and or-ing a value in, twice, is doing it once. *)
Lemma patch_idem (w k x : Z) : u32 (u32 (w .& k .| x) .& k .| x) = u32 (w .& k .| x).
Proof.
  rewrite !u32_land_ones. apply Z.bits_inj'. intros i Hi.
  rewrite !Z.land_spec, !Z.lor_spec, !Z.land_spec, !Z.lor_spec, !Z.land_spec.
  destruct (Z.testbit w i), (Z.testbit k i), (Z.testbit x i),
    (Z.testbit (Z.ones 32) i); reflexivity.
Qed.

Lemma poke32_twice (e : Emitter) (a k x : Z) :
  let f w := w .& k .| x in
  let e1 := match poke32 a (f (load32 (mem e) a)) e with Done _ e1 => e1 | Panic _ => e end in
  exists e2,
    poke32 a (f (load32 (mem e1) a)) e1 = Done tt e2 /\
    load32 (mem e2) a = load32 (mem e1) a /\
    same_emitter e1 e2.
Proof.
  intros f e1. subst e1 f. unfold poke32.
  cbn [mem code currentPointer reservedSize autoGrowSize].
  eexists. split; [reflexivity|].
  cbn [mem code currentPointer reservedSize autoGrowSize].
  rewrite !load32_store32, !u32_u32, !patch_idem. split; [reflexivity|].
  repeat split. intros y. unfold store32. apply store_store_same.
Qed.

(** C9. When [setLabel (token, target)] succeeds, that is when the
    branch is in range of its relative form or of the absolute
    fallback, a second call with the same token and target succeeds too
    and leaves the patched word, every other byte of memory and every
    field of the emitter as the first call left them. *)
Theorem setLabel_idempotent (label : BranchLabel) (T : Z) (e e1 : Emitter) :
  setLabel label T e = Done tt e1 ->
  exists e2,
    setLabel label T e1 = Done tt e2 /\
    load32 (mem e2) (fst label) = load32 (mem e1) (fst label) /\
    same_emitter e1 e2.
Proof.
  destruct label as [B type]. unfold setLabel. cbn [fst snd].
  set (disp := label_disp B T).
  destruct (negb (disp .& 3 =? 0)); [discriminate|].
  destruct type.
  - destruct ((disp <=? INT16_MAX) && (disp >=? INT16_MIN)).
    { unfold bind, peek32. intros H.
      pose proof (poke32_twice e B (u32 (Z.lnot 0xFFFE)) (disp .& 0xFFFC)) as P.
      cbv beta zeta in P. rewrite H in P. exact P. }
    destruct ((iptr T <=? INT16_MAX) && (iptr T >=? INT16_MIN)); [|discriminate].
    unfold bind, peek32. intros H.
    pose proof (poke32_twice e B (u32 (Z.lnot 0xFFFE)) (uptr T .& 0xFFFC .| 2)) as P.
    cbv beta zeta in P. rewrite <- !Z.lor_assoc in H |- *. rewrite H in P. exact P.
  - destruct ((disp >=? INT26_MIN) && (disp <=? INT26_MAX)).
    { unfold bind, peek32. intros H.
      pose proof (poke32_twice e B (u32 (Z.lnot 0x3FFFFFE)) (disp .& 0x3FFFFFC)) as P.
      cbv beta zeta in P. rewrite H in P. exact P. }
    destruct ((iptr T >=? INT26_MIN) && (iptr T <=? INT26_MAX)); [|discriminate].
    unfold bind, peek32. intros H.
    pose proof (poke32_twice e B (u32 (Z.lnot 0x3FFFFFE)) (uptr T .& 0x3FFFFFC .| 2)) as P.
    cbv beta zeta in P. rewrite <- !Z.lor_assoc in H |- *. rewrite H in P. exact P.
Qed.

(** ** The displacement a resolved branch encodes *)

(** Masking a word-aligned value with the displacement field mask of
    width [n] keeps its [n] low bits. *)
Lemma land_aligned_field (n x : Z) :
  2 <= n -> x .& 3 = 0 -> x .& Z.ldiff (Z.ones n) (Z.ones 2) = x mod 2 ^ n.
Proof.
  intros Hn Hx. rewrite <- Z.land_ones by lia. apply Z.bits_inj'. intros i Hi.
  rewrite !Z.land_spec, Z.ldiff_spec.
  destruct (Z.lt_ge_cases i 2) as [Hlt|Hge].
  - apply (f_equal (fun z => Z.testbit z i)) in Hx.
    change 3 with (Z.ones 2) in Hx.
    rewrite Z.land_spec, Z.bits_0, Z.ones_spec_low in Hx by lia.
    rewrite andb_true_r in Hx. now rewrite Hx.
  - rewrite (Z.ones_spec_high 2) by lia. now rewrite andb_true_r.
Qed.

Lemma branch_disp_patched (type : BranchType) (word disp : Z) :
  disp .& 3 = 0 -> disp_min type <= disp <= disp_max type ->
  let w := word .& Z.lnot (patch_mask type) .| (disp .& field_mask type) in
  branch_disp type w = disp /\ branch_aa w = false.
Proof.
  intros Ha Hr w. subst w. split.
  - unfold branch_disp.
    destruct type; cbn [patch_mask field_mask disp_min disp_max] in *;
      rewrite Z.land_lor_distr_l, <- !Z.land_assoc.
    + change (Z.lnot 0xFFFE .& 0xFFFC) with 0. change (0xFFFC .& 0xFFFC) with 0xFFFC.
      rewrite Z.land_0_r, Z.lor_0_l.
      change 0xFFFC with (Z.ldiff (Z.ones 16) (Z.ones 2)).
      rewrite land_aligned_field, wrap_s_mod by (lia || assumption).
      apply wrap_s_small; [lia|]. unfold INT16_MIN, INT16_MAX in Hr.
      change (2 ^ (16 - 1)) with 32768. lia.
    + change (Z.lnot 0x3FFFFFE .& 0x3FFFFFC) with 0.
      change (0x3FFFFFC .& 0x3FFFFFC) with 0x3FFFFFC.
      rewrite Z.land_0_r, Z.lor_0_l.
      change 0x3FFFFFC with (Z.ldiff (Z.ones 26) (Z.ones 2)).
      rewrite land_aligned_field, wrap_s_mod by (lia || assumption).
      apply wrap_s_small; [lia|]. unfold INT26_MIN, INT26_MAX in Hr.
      change (2 ^ (26 - 1)) with 33554432. lia.
  - unfold branch_aa. rewrite Z.lor_spec, !Z.land_spec.
    destruct type; cbn [patch_mask field_mask];
      [change (Z.testbit (Z.lnot 0xFFFE) 1) with false
      |change (Z.testbit (Z.lnot 0x3FFFFFE) 1) with false];
      [change (Z.testbit 0xFFFC 1) with false
      |change (Z.testbit 0x3FFFFFC 1) with false];
      now rewrite !andb_false_r.
Qed.

(** An aligned, in-range label is resolved to a word whose displacement
    field decodes to the displacement, in relative form. *)
Lemma setLabel_encodes (type : BranchType) (B T : Z) (e : Emitter) :
  label_disp B T .& 3 = 0 ->
  disp_min type <= label_disp B T <= disp_max type ->
  exists e',
    setLabel (B, type) T e = Done tt e' /\
    branch_disp type (load32 (mem e') B) = label_disp B T /\
    branch_aa (load32 (mem e') B) = false.
Proof.
  intros Ha Hr.
  destruct (setLabel_relative B T type e Ha Hr) as (e' & E & Hw & _).
  exists e'. split; [exact E|]. rewrite Hw. now apply branch_disp_patched.
Qed.

(** The forward scenario: the branch jumps over the [nop]. *)
Lemma forward_branch_words (e : Emitter) :
  room 8 e ->
  exists e',
    forward_branch e = Done tt e' /\
    load32 (mem e') (currentPointer e) = 0x40820008 /\
    load32 (mem e') (currentPointer e + 4) = 0x60000000 /\
    currentPointer e' = currentPointer e + 8 /\
    code e' = code e.
Proof.
  intros Hr. set (B := currentPointer e).
  unfold forward_branch, bne, bcx, emitBranch14, nop, ori, setLabel_here.
  unfold bind, getCurr, ret.
  rewrite write32_room by (revert Hr; apply room_weaken; lia).
  rewrite write32_room by (apply (room_appended 4 4); exact Hr).
  set (e2 := appended 4 _ (appended 4 _ e)).
  assert (Ec : currentPointer e2 = B + 8) by (subst e2 B; cbn; lia).
  rewrite Ec.
  pose proof (setLabel_relative B (B + 8) Branch14 e2) as H.
  rewrite label_disp_offset in H by lia.
  destruct H as (e' & E & Hw & Hout & Hc & Hp & _);
    [reflexivity | cbn; unfold INT16_MIN, INT16_MAX; lia |].
  exists e'. split; [exact E|].
  assert (W0 : load32 (mem e2) B = 0x40820000).
  { subst e2. rewrite load32_appended_other by (left; cbn; lia).
    subst B. now rewrite load32_appended_same. }
  assert (W1 : load32 (mem e2) (B + 4) = 0x60000000).
  { subst e2 B. change (currentPointer e + 4) with (currentPointer (appended 4 (u32 (bcx_word Cond.Ne false)) e)).
    now rewrite load32_appended_same. }
  split; [rewrite Hw, W0; reflexivity|].
  split.
  { rewrite <- W1. apply load32_ext. intros x Hx. apply Hout. lia. }
  split; [lia|]. rewrite Hc. reflexivity.
Qed.

(** The backward scenario: the branch jumps back to the [nop]. *)
Lemma backward_branch_words (e : Emitter) :
  room 8 e ->
  exists e',
    backward_branch e = Done tt e' /\
    load32 (mem e') (currentPointer e) = 0x60000000 /\
    load32 (mem e') (currentPointer e + 4) = 0x4082FFFC /\
    currentPointer e' = currentPointer e + 8 /\
    code e' = code e.
Proof.
  intros Hr. set (B := currentPointer e).
  unfold backward_branch, bne, bcx, emitBranch14, nop, ori.
  unfold bind, getCurr, ret.
  rewrite write32_room by (revert Hr; apply room_weaken; lia).
  rewrite write32_room by (apply (room_appended 4 4); exact Hr).
  set (e1 := appended 4 _ e). set (e2 := appended 4 _ e1).
  assert (Ec1 : currentPointer e1 = B + 4) by (subst e1 B; cbn; lia).
  assert (Ec2 : currentPointer e2 = B + 8) by (subst e2; cbn; lia).
  rewrite Ec1.
  pose proof (setLabel_relative (B + 4) B Branch14 e2) as H.
  rewrite label_disp_diff in H by lia. replace (B - (B + 4)) with (-4) in H by ring.
  destruct H as (e' & E & Hw & Hout & Hc & Hp & _);
    [reflexivity | cbn; unfold INT16_MIN, INT16_MAX; lia |].
  exists e'. split; [exact E|].
  assert (W0 : load32 (mem e2) B = 0x60000000).
  { subst e2. rewrite load32_appended_other by (left; lia).
    subst e1 B. now rewrite load32_appended_same. }
  assert (W1 : load32 (mem e2) (B + 4) = 0x40820000).
  { subst e2. rewrite <- Ec1. now rewrite load32_appended_same. }
  split.
  { rewrite <- W0. apply load32_ext. intros x Hx. apply Hout. lia. }
  split; [rewrite Hw, W1; reflexivity|].
  split; [lia|]. rewrite Hc. reflexivity.
Qed.

(** Resolving an aligned, in-range label with [setLabel] leaves a
    branch word in relative form whose displacement field decodes to
    the target minus the branch address; so a forward branch resolved to
    the word right after it encodes +4, and a branch at [B] resolved to
    an earlier address [T] encodes the negative displacement [T - B].
    On an emitter with room for two words, [L = bne (); nop ();
    setLabel (L)] leaves the words [0x40820008], [0x60000000] at the
    cursor, and [P = getCurr (); nop (); L = bne (); setLabel (L, P)]
    leaves the words [0x60000000], [0x4082FFFC]. *)
Theorem branch_resolution (type : BranchType) (B T : Z) (e : Emitter) :
  let resolved B T d :=
    exists e',
      setLabel (B, type) T e = Done tt e' /\
      branch_disp type (load32 (mem e') B) = d /\
      branch_aa (load32 (mem e') B) = false in
  let words (prog : M unit) w0 w1 :=
    exists e',
      prog e = Done tt e' /\
      load32 (mem e') (currentPointer e) = w0 /\
      load32 (mem e') (currentPointer e + 4) = w1 /\
      currentPointer e' = currentPointer e + 8 /\
      code e' = code e in
  (label_disp B T .& 3 = 0 ->
   disp_min type <= label_disp B T <= disp_max type ->
   resolved B T (label_disp B T)) /\
  ((T - B) .& 3 = 0 -> disp_min type <= T - B <= disp_max type ->
   label_disp B T = T - B /\ resolved B T (T - B)) /\
  resolved B (B + 4) 4 /\
  (T < B -> (T - B) .& 3 = 0 -> disp_min type <= T - B -> resolved B T (T - B)) /\
  (room 8 e -> words forward_branch 0x40820008 0x60000000) /\
  (room 8 e -> words backward_branch 0x60000000 0x4082FFFC).
Proof.
  intros resolved words. subst resolved words. cbv beta.
  assert (Hexact : forall T', (T' - B) .& 3 = 0 ->
            disp_min type <= T' - B <= disp_max type ->
            label_disp B T' = T' - B /\
            exists e', setLabel (B, type) T' e = Done tt e' /\
              branch_disp type (load32 (mem e') B) = T' - B /\
              branch_aa (load32 (mem e') B) = false).
  { intros T' Ha Hr.
    assert (Ed : label_disp B T' = T' - B).
    { apply label_disp_diff.
      destruct type; cbn in Hr; unfold INT16_MIN, INT16_MAX, INT26_MIN, INT26_MAX in Hr; lia. }
    split; [exact Ed|]. rewrite <- Ed. apply setLabel_encodes; rewrite Ed; assumption. }
  split; [apply setLabel_encodes|].
  split; [apply Hexact|].
  split.
  { specialize (Hexact (B + 4)). replace (B + 4 - B) with 4 in Hexact by ring.
    apply Hexact; [reflexivity|].
    destruct type; cbn; unfold INT16_MIN, INT16_MAX, INT26_MIN, INT26_MAX; lia. }
  split.
  { intros Hlt Ha Hmin. apply Hexact; [assumption|]. split; [assumption|].
    destruct type; cbn; unfold INT16_MAX, INT26_MAX; lia. }
  split; [apply forward_branch_words | apply backward_branch_words].
Qed.

(** ** The buffer of a FixedSize emitter *)

Lemma keeps_ret {A} (a : A) : keeps_buffer (ret a).
Proof. intros e. cbn. repeat split; lia. Qed.

Lemma keeps_panic {A} (f : Fatal) : keeps_buffer (@panic A f).
Proof. intros e. exact I. Qed.

Lemma keeps_bind {A B} (m : M A) (k : A -> M B) :
  keeps_buffer m -> (forall a, keeps_buffer (k a)) -> keeps_buffer (bind m k).
Proof.
  intros Hm Hk e. unfold bind. specialize (Hm e).
  destruct (m e) as [a e1|f]; [|exact I].
  specialize (Hk a e1). destruct (k a e1) as [b e2|f]; [|exact I].
  destruct Hm as (H1 & H2 & H3 & H4), Hk as (K1 & K2 & K3 & K4).
  repeat split; congruence || lia.
Qed.

Lemma keeps_getCurr : keeps_buffer getCurr.
Proof. intros e. cbn. repeat split; lia. Qed.

Lemma keeps_peek32 (a : Z) : keeps_buffer (peek32 a).
Proof. intros e. cbn. repeat split; lia. Qed.

Lemma keeps_poke32 (a v : Z) : keeps_buffer (poke32 a v).
Proof. intros e. cbn. repeat split; lia. Qed.

Section Fixed.

Hypothesis fixed_mode : growMode = FixedSize.

Lemma keeps_write (n : nat) (val : Z) : keeps_buffer (write n val).
Proof. intros e. rewrite write_fixed by assumption. cbn. repeat split; lia. Qed.

Lemma keeps_times (k : nat) (body : M unit) :
  keeps_buffer body -> keeps_buffer (times k body).
Proof.
  intros H. induction k as [|k IH]; cbn [times];
    [apply keeps_ret | apply keeps_bind; auto].
Qed.

Lemma keeps_write_array (n : nat) (array : list Z) : keeps_buffer (write_array n array).
Proof.
  induction array as [|v rest IH]; cbn [write_array];
    [apply keeps_ret | apply keeps_bind; auto using keeps_write].
Qed.

Lemma keeps_repeat (end_ : nat) (f : nat -> M unit) :
  (forall i, keeps_buffer (f i)) -> keeps_buffer (repeat_ end_ f).
Proof.
  intros H. unfold repeat_. induction (seq 0 end_) as [|i l IH]; cbn [fold_right];
    [apply keeps_ret | apply keeps_bind; auto].
Qed.

(** One step of a proof that an operation keeps the buffer: follow the
    structure of its definition down to the primitives. *)
Ltac keeps_step :=
  match goal with
  | |- keeps_buffer (bind _ _) => apply keeps_bind; [|intros]
  | |- keeps_buffer (ret _) => apply keeps_ret
  | |- keeps_buffer (panic _) => apply keeps_panic
  | |- keeps_buffer (write _ _) => apply keeps_write
  | |- keeps_buffer getCurr => apply keeps_getCurr
  | |- keeps_buffer (peek32 _) => apply keeps_peek32
  | |- keeps_buffer (poke32 _ _) => apply keeps_poke32
  | |- keeps_buffer (times _ _) => apply keeps_times
  | |- keeps_buffer (write_array _ _) => apply keeps_write_array
  | |- keeps_buffer (if ?c then _ else _) => destruct c
  | |- keeps_buffer (match ?t with Branch14 => _ | Branch24 => _ end) => destruct t
  | |- keeps_buffer _ =>
      progress unfold write8, write16, write32, write64, db, dh, dw, dd, df32, df64,
        db_array, dh_array, dw_array, dd_array, align, ud, nop, blr, bctr, bctrl,
        li, liu, lis, liw, mr, setz, ori, or_, addi, addis, addic, cntlzw, rlwinm,
        slwi, srwi, clrlwi, clrrwi, rotlwi, rotrwi, extlwi, extrwi,
        discard, bx, bx_addr, bcx, bne, emitBranch14, setLabel, setLabel_here, loop
  | |- keeps_buffer _ => progress cbv zeta
  end.

Ltac keeps := repeat keeps_step.

Lemma keeps_ds (str : list Z) : keeps_buffer (ds str).
Proof. induction str as [|c rest IH]; cbn [ds]; keeps. exact IH. Qed.

Lemma keeps_setLabel (label : BranchLabel) (address : Z) :
  keeps_buffer (setLabel label address).
Proof. keeps. Qed.

Lemma keeps_liw (reg : GPR) (imm : Z) : keeps_buffer (liw reg imm).
Proof. keeps. Qed.

Lemma keeps_loop (counter : GPR) (iterations : Z) (f : M unit) :
  keeps_buffer f -> keeps_buffer (loop counter iterations f).
Proof. intros H. keeps; assumption. Qed.

Lemma run_keeps_buffer (o : Op) : keeps_buffer (run o).
Proof.
  induction o using Op_ops_ind with (P0 := fun p => keeps_buffer (run_all p));
    cbn [run run_all]; try solve [keeps].
  - apply keeps_ds.
  - apply keeps_repeat. assumption.
  - apply keeps_loop. assumption.
  - apply keeps_bind; auto.
Qed.

Lemma run_all_keeps_buffer (p : Ops) : keeps_buffer (run_all p).
Proof.
  induction p as [|o rest IH]; cbn [run_all];
    [apply keeps_ret | apply keeps_bind; auto using run_keeps_buffer].
Qed.

End Fixed.

Lemma setBuffer_sets (pointer bufferSize : Z) (e : Emitter) :
  uptr bufferSize .& 3 = 0 ->
  exists e',
    setBuffer pointer bufferSize e = Done tt e' /\
    code e' = pointer /\ currentPointer e' = pointer /\
    reservedSize e' = uptr bufferSize.
Proof.
  intros H. unfold setBuffer. rewrite H. cbn. eexists. repeat split.
Qed.

(** C10. In FixedSize mode no emission operation (data directive,
    [align], [repeat], [loop], instruction, pseudo-op, branch) and no
    [setLabel], alone or in sequence, changes the base pointer or the
    reserved size when it returns, and the used size does not decrease;
    so an address between the base and the cursor, such as the address
    of a label token issued earlier, stays between the base and the
    cursor at the same offset.  [setBuffer] does set the base and the
    reserved size. *)
Theorem fixed_buffer_stable (p : Ops) (e e' : Emitter) :
  growMode = FixedSize ->
  run_all p e = Done tt e' ->
  code e' = code e /\
  reservedSize e' = reservedSize e /\
  used e <= used e' /\
  (forall label : BranchLabel,
      code e <= fst label < currentPointer e ->
      code e' <= fst label < currentPointer e' /\
      fst label - code e' = fst label - code e) /\
  (forall pointer bufferSize, uptr bufferSize .& 3 = 0 ->
      exists e2,
        setBuffer pointer bufferSize e = Done tt e2 /\
        code e2 = pointer /\ reservedSize e2 = uptr bufferSize).
Proof.
  intros Hmode Hrun. pose proof (run_all_keeps_buffer Hmode p e) as H.
  rewrite Hrun in H. destruct H as (H1 & H2 & H3 & H4).
  unfold used. repeat split; try lia; try congruence.
  intros pointer bufferSize Hb.
  destruct (setBuffer_sets pointer bufferSize e Hb) as (e2 & E & ? & ? & ?).
  exists e2. auto.
Qed.

(** * Further properties *)

(** ** Appending in either mode *)

Lemma write_keeps_used (n : nat) (val : Z) (e : Emitter) :
  0 <= used e < 2 ^ ptr_bits ->
  (growMode = AutoGrow -> grows n e = true -> alloc_fits e) ->
  exists e',
    write n val e = Done tt e' /\
    used e' = used e + Z.of_nat n /\
    (forall i, 0 <= i < used e -> mem e' (code e' + i) = mem e (code e + i)) /\
    load n (mem e') (code e' + used e) = val mod 2 ^ (8 * Z.of_nat n).
Proof.
  intros Hu Ha.
  assert (Hsame : forall e1, write n val e = Done tt (appended n val e1) ->
            used e1 = used e ->
            (forall i, 0 <= i < used e -> mem e1 (code e1 + i) = mem e (code e + i)) ->
            exists e', write n val e = Done tt e' /\
              used e' = used e + Z.of_nat n /\
              (forall i, 0 <= i < used e -> mem e' (code e' + i) = mem e (code e + i)) /\
              load n (mem e') (code e' + used e) = val mod 2 ^ (8 * Z.of_nat n)).
  { intros e1 E Hu1 Hm1. exists (appended n val e1). split; [exact E|].
    unfold appended, used in *. cbn [code currentPointer mem].
    split; [lia|]. split.
    - intros i Hi. rewrite store_out by lia. now apply Hm1.
    - replace (code e1 + (currentPointer e - code e)) with (currentPointer e1) by lia.
      apply load_store_same. }
  destruct growMode eqn:Hmode.
  - apply (Hsame e); [unfold write; now rewrite Hmode | reflexivity | reflexivity].
  - destruct (grows n e) eqn:Hg.
    + destruct (Ha eq_refl eq_refl) as [Hp Hq].
      destruct (grow_keeps_used e) as (_ & Hk).
      destruct Hk as [Hk1 Hk2]; [lia | exact Hp | exact Hq |].
      apply (Hsame (grow (getCodeSize e) e));
        [unfold write; now rewrite Hmode, Hg | exact Hk1 | exact Hk2].
    + apply (Hsame e); [unfold write; now rewrite Hmode, Hg | reflexivity | reflexivity].
Qed.

Lemma write_sizes (n : nat) (val : Z) (e e' : Emitter) :
  write n val e = Done tt e' ->
  reservedSize e'
  = match growMode with
    | AutoGrow => if grows n e then uptr (reservedSize e + autoGrowSize e)
                  else reservedSize e
    | FixedSize => reservedSize e
    end /\
  autoGrowSize e' = autoGrowSize e.
Proof.
  unfold write. intros E. injection E as <-.
  destruct growMode; [|destruct (grows n e)]; split; reflexivity.
Qed.

Lemma load_shift (n : nat) (m m' : Memory) (a a' : Z) :
  (forall j, 0 <= j < Z.of_nat n -> m (a + j) = m' (a' + j)) ->
  load n m a = load n m' a'.
Proof.
  intros H. unfold load, load_bytes. f_equal. apply map_ext_in.
  intros i Hi. apply in_seq in Hi. apply H. lia.
Qed.

(** What the constructor leaves: nothing used, the reserved size asked
    for, the default grow step. *)
Lemma constructed_sizes (m : Memory) (size : Z) (e : Emitter) :
  PPCEmitter m size = Done tt e ->
  used e = 0 /\ reservedSize e = uptr size /\ autoGrowSize e = 64 * 1024.
Proof.
  unfold PPCEmitter. destruct (uptr size =? 0).
  - intros [= <-]. repeat split.
  - destruct (negb (uptr size .& 3 =? 0)); [discriminate|].
    destruct (_ =? 0); [discriminate|]. intros [= <-].
    unfold used. cbn. repeat split. lia.
Qed.

(** A run of appends in AutoGrow mode from an emitter whose used size
    is within its reserved size, with an allocator whose arrays lie in
    the address space: every append returns, the used size stays within
    the reserved size, and the bytes used before and the values appended
    are at their offsets from the base of the buffer in use at the end. *)
Lemma write_array_grows (n : nat) (arr : list Z) (L : Z) (e : Emitter) :
  growMode = AutoGrow ->
  (forall e0 k, 0 < new_array e0 k /\ new_array e0 k + L < 2 ^ ptr_bits) ->
  0 <= used e <= reservedSize e ->
  Z.of_nat n <= autoGrowSize e ->
  used e + Z.of_nat n * Z.of_nat (length arr) <= L ->
  L + autoGrowSize e < 2 ^ ptr_bits ->
  exists e',
    write_array n arr e = Done tt e' /\
    used e' = used e + Z.of_nat n * Z.of_nat (length arr) /\
    used e' <= reservedSize e' /\
    (forall i, 0 <= i < used e -> mem e' (code e' + i) = mem e (code e + i)) /\
    (forall i, (i < length arr)%nat ->
       load n (mem e') (code e' + used e + Z.of_nat n * Z.of_nat i)
       = nth i arr 0 mod 2 ^ (8 * Z.of_nat n)).
Proof.
  intros Hmode Halloc. revert e. induction arr as [|v arr IH]; intros e Hu Hs HL Hw.
  - exists e. cbn [write_array length nth]. unfold ret.
    split; [reflexivity|]. split; [lia|]. split; [lia|].
    split; [reflexivity|]. intros i Hi. cbn in Hi. lia.
  - cbn [write_array length] in *. unfold bind.
    set (v' := wrap_u (8 * Z.of_nat n) v).
    assert (Hn : 0 <= Z.of_nat n) by lia.
    assert (Hlen : Z.of_nat (S (length arr)) = Z.of_nat (length arr) + 1) by lia.
    rewrite Hlen in HL.
    assert (Hstep : used e + Z.of_nat n + Z.of_nat n * Z.of_nat (length arr) <= L) by lia.
    assert (Hfit : alloc_fits e).
    { unfold alloc_fits. cbv zeta.
      destruct (Halloc e (uptr (reservedSize e + autoGrowSize e) / 4)). lia. }
    destruct (write_keeps_used n v' e) as (e1 & E1 & Hu1 & Hk1 & Hl1); [lia | auto |].
    rewrite E1.
    destruct (write_sizes n v' e e1 E1) as [Er Es]. rewrite Hmode in Er.
    assert (Hin : used e1 <= reservedSize e1).
    { destruct (grows n e) eqn:Hg; rewrite Er.
      - apply grows_iff in Hg; [|lia|lia].
        unfold uptr. rewrite wrap_u_small by lia. lia.
      - assert (~ reservedSize e <= used e + Z.of_nat n).
        { rewrite <- grows_iff by lia. congruence. }
        lia. }
    destruct (IH e1) as (e' & E & Hu' & Hin' & Hk' & Hl'); try lia.
    exists e'. split; [exact E|]. split; [lia|]. split; [exact Hin'|].
    split.
    + intros i Hi. rewrite Hk' by lia. now apply Hk1.
    + intros [|i] Hi.
      * cbn [nth]. rewrite Z.mul_0_r, Z.add_0_r.
        rewrite (load_shift n (mem e') (mem e1) _ (code e1 + used e)).
        -- rewrite Hl1. subst v'. unfold wrap_u. apply Z.mod_mod.
           apply Z.pow_nonzero; lia.
        -- intros j Hj. rewrite <- !Z.add_assoc. apply Hk'. lia.
      * cbn [nth]. rewrite <- (Hl' i) by lia. f_equal. lia.
Qed.

(** In AutoGrow mode an emitter the constructor built keeps what is
    appended to it, however often the buffer is reallocated on the way:
    after any array of values of [n] bytes each, with a grow step of at
    least [n] (the default is 64 KiB) and an allocator whose arrays lie
    in the address space, every append has returned, the used size is
    the size of the array and lies within the reserved size, and every
    element is readable at its offset from the base of the buffer now
    in use. *)
Theorem autogrow_keeps_data (m : Memory) (size : Z) (n : nat) (arr : list Z)
    (e0 : Emitter) :
  growMode = AutoGrow ->
  PPCEmitter m size = Done tt e0 ->
  let total := Z.of_nat n * Z.of_nat (length arr) in
  Z.of_nat n <= 64 * 1024 ->
  total + 64 * 1024 < 2 ^ ptr_bits ->
  (forall e k, 0 < new_array e k /\ new_array e k + total < 2 ^ ptr_bits) ->
  exists e',
    write_array n arr e0 = Done tt e' /\
    used e' = total /\
    used e' <= reservedSize e' /\
    forall i, (i < length arr)%nat ->
      load n (mem e') (code e' + Z.of_nat n * Z.of_nat i)
      = nth i arr 0 mod 2 ^ (8 * Z.of_nat n).
Proof.
  intros Hmode Hc total Hn Hw Halloc.
  destruct (constructed_sizes m size e0 Hc) as (Hu & Hr & Hs).
  assert (Hr0 : 0 <= reservedSize e0).
  { rewrite Hr. apply wrap_u_range. lia. }
  destruct (write_array_grows n arr total e0 Hmode Halloc)
    as (e' & E & Hu' & Hin & _ & Hl); try lia.
  exists e'. split; [exact E|]. split; [lia|]. split; [exact Hin|].
  intros i Hi. rewrite <- (Hl i Hi). f_equal. lia.
Qed.

(** In AutoGrow mode, with a grow step at least as large as the value
    appended, an append that starts within the reserved size ends within
    the reserved size. *)
Theorem autogrow_in_bounds (n : nat) (val : Z) (e : Emitter) :
  growMode = AutoGrow ->
  0 <= used e <= reservedSize e ->
  Z.of_nat n <= autoGrowSize e ->
  reservedSize e + autoGrowSize e < 2 ^ ptr_bits ->
  alloc_fits e ->
  exists e',
    write n val e = Done tt e' /\
    used e' = used e + Z.of_nat n /\
    0 <= used e' <= reservedSize e' /\
    (reservedSize e' = reservedSize e \/
     reservedSize e' = reservedSize e + autoGrowSize e).
Proof.
  intros Hmode Hu Hs Hw Ha.
  destruct (write_keeps_used n val e) as (e' & E & Hu' & _); [lia | auto |].
  exists e'. split; [exact E|]. split; [exact Hu'|].
  destruct (write_sizes n val e e' E) as [Er _]. rewrite Hmode in Er.
  destruct (grows n e) eqn:Hg; rewrite Er.
  - unfold uptr. rewrite wrap_u_small by lia. split; [lia | now right].
  - assert (Hn : ~ reservedSize e <= used e + Z.of_nat n).
    { rewrite <- grows_iff by lia. congruence. }
    split; [lia | now left].
Qed.

(** [setAutoGrowSize] accepts a step of zero, and then an append that
    goes past the reserved end reallocates to the same size and leaves
    the used size above the reserved size. *)
Theorem zero_step_overflows (n : nat) (val : Z) (e : Emitter) :
  growMode = AutoGrow ->
  0 <= used e -> 0 <= reservedSize e ->
  reservedSize e < used e + Z.of_nat n -> used e + Z.of_nat n < 2 ^ ptr_bits ->
  alloc_fits (with_step 0 e) ->
  exists e',
    (setAutoGrowSize 0 ;; write n val) e = Done tt e' /\
    reservedSize e' = reservedSize e /\
    used e' = used e + Z.of_nat n /\
    reservedSize e' < used e'.
Proof.
  intros Hmode Hu Hr Hover Hw Ha. unfold bind, setAutoGrowSize, uptr.
  rewrite (wrap_u_small ptr_bits 0) by (split; [lia | apply Z.pow_pos_nonneg; lia]).
  cbn [Z.land Z.eqb negb]. fold (with_step 0 e).
  assert (Hg : grows n (with_step 0 e) = true).
  { apply grows_iff; unfold with_step, used in *; cbn [currentPointer code reservedSize]; lia. }
  destruct (write_keeps_used n val (with_step 0 e)) as (e' & E & Hu' & _);
    [unfold with_step, used in *; cbn [currentPointer code]; lia | auto |].
  exists e'. split; [exact E|].
  destruct (write_sizes n val _ e' E) as [Er _]. rewrite Hmode, Hg in Er.
  cbn [reservedSize with_step autoGrowSize] in Er. rewrite Z.add_0_r in Er.
  unfold uptr in Er. rewrite wrap_u_small in Er by (unfold used in *; lia).
  split; [exact Er|]. unfold with_step, used in Hu'. cbn [currentPointer code] in Hu'.
  unfold used in *. split; lia.
Qed.

(** ** Relations every emission keeps *)

Section Respects.

Variable R : Emitter -> Emitter -> Prop.
(** Whether labels given by the caller may be resolved. *)
Variable patching : bool.

Hypothesis R_refl : forall e, R e e.
Hypothesis R_trans : forall e1 e2 e3, R e1 e2 -> R e2 e3 -> R e1 e3.
Hypothesis R_write : forall n val, respects R (write n val).
Hypothesis R_branch :
  forall cond link T, respects R (slot <- bcx cond link ;; setLabel slot T).
Hypothesis R_label :
  patching = true -> forall label T, respects R (setLabel label T).

Lemma respects_ret {A} (a : A) : respects R (ret a).
Proof. intros e. apply R_refl. Qed.

Lemma respects_panic {A} (f : Fatal) : respects R (@panic A f).
Proof. intros e. exact I. Qed.

Lemma respects_bind {A B} (m : M A) (k : A -> M B) :
  respects R m -> (forall a, respects R (k a)) -> respects R (bind m k).
Proof.
  intros Hm Hk e. unfold bind. specialize (Hm e).
  destruct (m e) as [a e1|f]; [|exact I].
  specialize (Hk a e1). destruct (k a e1) as [b e2|f]; [|exact I].
  eapply R_trans; eassumption.
Qed.

Lemma respects_getCurr : respects R getCurr.
Proof. intros e. apply R_refl. Qed.

Lemma respects_times (k : nat) (body : M unit) :
  respects R body -> respects R (times k body).
Proof.
  intros H. induction k as [|k IH]; cbn [times];
    [apply respects_ret | apply respects_bind; auto].
Qed.

Lemma respects_write_array (n : nat) (array : list Z) : respects R (write_array n array).
Proof.
  induction array as [|v rest IH]; cbn [write_array];
    [apply respects_ret | apply respects_bind; auto].
Qed.

Lemma respects_repeat (l : list nat) (f : nat -> M unit) :
  (forall i, In i l -> respects R (f i)) ->
  respects R (fold_right (fun i k => f i ;; k) (ret tt) l).
Proof.
  intros H. induction l as [|i l IH]; cbn [fold_right];
    [apply respects_ret | apply respects_bind].
  - apply H. now left.
  - intros _. apply IH. intros j Hj. apply H. now right.
Qed.

(** One step of a proof that an operation respects [R]: follow the
    structure of its definition down to the appends. *)
Ltac respects_step :=
  match goal with
  | |- respects _ (bind bne (fun slot => setLabel slot _)) =>
      apply (R_branch Cond.Ne false)
  | |- respects _ (bind _ _) => apply respects_bind; [|intros]
  | |- respects _ (ret _) => apply respects_ret
  | |- respects _ (panic _) => apply respects_panic
  | |- respects _ (write _ _) => apply R_write
  | |- respects _ getCurr => apply respects_getCurr
  | |- respects _ (times _ _) => apply respects_times
  | |- respects _ (write_array _ _) => apply respects_write_array
  | |- respects _ (if ?c then _ else _) => destruct c
  | |- respects _ _ =>
      progress unfold write8, write16, write32, write64, db, dh, dw, dd, df32, df64,
        db_array, dh_array, dw_array, dd_array, align, ud, nop, blr, bctr, bctrl,
        li, liu, lis, liw, mr, setz, ori, or_, addi, addis, addic, cntlzw, rlwinm,
        slwi, srwi, clrlwi, clrrwi, rotlwi, rotrwi, extlwi, extrwi,
        discard, bx, bx_addr, bne, emitBranch14, setLabel_here, loop
  | |- respects _ _ => progress cbv zeta
  end.

Lemma respects_ds (str : list Z) : respects R (ds str).
Proof. induction str as [|c rest IH]; cbn [ds]; repeat respects_step. exact IH. Qed.

Lemma respects_bcx (cond : Cond.t) (link : bool) : respects R (bcx cond link).
Proof. unfold bcx. repeat respects_step. Qed.

Lemma respects_loop (counter : GPR) (iterations : Z) (f : M unit) :
  respects R f -> respects R (loop counter iterations f).
Proof. intros H. repeat respects_step; assumption. Qed.

Lemma run_respects (o : Op) :
  patching = true \/ label_free o = true -> respects R (run o).
Proof.
  induction o using Op_ops_ind
    with (P0 := fun p => patching = true \/ label_free_all p = true -> respects R (run_all p));
    cbn [run run_all label_free label_free_all]; intros Hp;
    try solve [repeat respects_step].
  - apply respects_ds.
  - apply respects_repeat. intros i Hi. apply H.
    destruct Hp as [Hp|Hp]; [now left | right].
    rewrite forallb_forall in Hp. now apply Hp.
  - apply respects_loop. auto.
  - unfold discard. apply respects_bind; [apply respects_bcx | intros; apply respects_ret].
  - destruct Hp as [Hp|Hp]; [now apply R_label | discriminate].
  - destruct Hp as [Hp|Hp]; [|discriminate].
    unfold setLabel_here. apply respects_bind; [apply respects_getCurr | intros; now apply R_label].
  - apply respects_bind.
    + apply IHo. destruct Hp as [Hp|Hp]; [now left | right].
      now apply andb_true_iff in Hp.
    + intros _. apply IHo0. destruct Hp as [Hp|Hp]; [now left | right].
      now apply andb_true_iff in Hp.
Qed.

Lemma run_all_respects (p : Ops) :
  patching = true \/ label_free_all p = true -> respects R (run_all p).
Proof.
  induction p as [|o rest IH]; cbn [run_all label_free_all]; intros Hp.
  - apply respects_ret.
  - apply respects_bind.
    + apply run_respects. destruct Hp as [Hp|Hp]; [now left | right].
      now apply andb_true_iff in Hp.
    + intros _. apply IH. destruct Hp as [Hp|Hp]; [now left | right].
      now apply andb_true_iff in Hp.
Qed.

End Respects.

(** What [setLabel] leaves alone when it returns: every field of the
    emitter and every byte outside the word of the token. *)
Lemma setLabel_effect (label : BranchLabel) (T : Z) (e : Emitter) :
  match setLabel label T e with
  | Done _ e' =>
      code e' = code e /\ currentPointer e' = currentPointer e /\
      reservedSize e' = reservedSize e /\ autoGrowSize e' = autoGrowSize e /\
      (forall x, x < fst label \/ fst label + 4 <= x -> mem e' x = mem e x)
  | Panic _ => True
  end.
Proof.
  destruct label as [B type]. unfold setLabel. cbn [fst snd].
  destruct (negb (label_disp B T .& 3 =? 0)); [exact I|].
  destruct type;
    repeat match goal with
           | |- context [if ?c then _ else _] => destruct c
           end;
    try exact I; unfold bind, peek32, poke32;
    cbn [code currentPointer reservedSize autoGrowSize mem];
    repeat split; intros x Hx; apply store_out; cbn; lia.
Qed.

(** ** The sizes stay multiples of four *)

Lemma uptr_aligned (x : Z) : x mod 4 = 0 -> uptr x mod 4 = 0.
Proof.
  intros H. unfold uptr, wrap_u.
  replace ptr_bits with (2 + (ptr_bits - 2)) by lia.
  rewrite Z.pow_add_r by lia. change (2 ^ 2) with 4.
  assert (0 < 2 ^ (ptr_bits - 2)) by (apply Z.pow_pos_nonneg; lia).
  Z.div_mod_to_equations. nia.
Qed.

Lemma land3_mod4 (x : Z) : x .& 3 = x mod 4.
Proof. change 3 with (Z.ones 2). now rewrite Z.land_ones by lia. Qed.

Lemma write_sizes_kept (n : nat) (val : Z) : respects sizes_kept (write n val).
Proof.
  intros e. destruct (write n val e) as [[] e'|f] eqn:E; [|exact I].
  destruct (write_sizes n val e e' E) as [Er Ea]. intros [H1 H2].
  split; [|now rewrite Ea]. rewrite Er.
  destruct growMode; [exact H1|]. destruct (grows n e); [|exact H1].
  apply uptr_aligned. rewrite Z.add_mod, H1, H2 by lia. reflexivity.
Qed.

Lemma setLabel_sizes_kept (label : BranchLabel) (T : Z) :
  respects sizes_kept (setLabel label T).
Proof.
  intros e. pose proof (setLabel_effect label T e) as H.
  destruct (setLabel label T e) as [[] e'|f]; [|exact I].
  destruct H as (_ & _ & Hr & Ha & _). unfold sizes_kept, aligned_sizes.
  now rewrite Hr, Ha.
Qed.

Lemma run_all_sizes_kept (p : Ops) : respects sizes_kept (run_all p).
Proof.
  apply (run_all_respects sizes_kept true); try (now left).
  - intros e H. exact H.
  - intros e1 e2 e3 H1 H2 H. auto.
  - apply write_sizes_kept.
  - intros cond link T e. unfold bcx, emitBranch14, bind, getCurr, write32, ret.
    pose proof (write_sizes_kept 4 (u32 (bcx_word cond link)) e) as H1.
    destruct (write 4 (u32 (bcx_word cond link)) e) as [[] e1|f]; [|exact I].
    pose proof (setLabel_sizes_kept (currentPointer e, Branch14) T e1) as H2.
    destruct (setLabel _ T e1) as [[] e2|f]; [|exact I].
    intros H. auto.
  - intros _. apply setLabel_sizes_kept.
Qed.

(** The constructor, [setBuffer] and [setAutoGrowSize] only let sizes
    that are multiples of four through, and no emission, in either mode
    and also when it reallocates, breaks this: the number of words a
    reallocation asks for, [newSize / 4], is an exact quotient. *)
Theorem sizes_stay_aligned (p : Ops) :
  (forall m size e, PPCEmitter m size = Done tt e -> aligned_sizes e) /\
  (forall e e', aligned_sizes e ->
     (forall pointer size, setBuffer pointer size e = Done tt e' -> aligned_sizes e') /\
     (forall size, setAutoGrowSize size e = Done tt e' -> aligned_sizes e') /\
     (run_all p e = Done tt e' -> aligned_sizes e')) /\
  (forall e, aligned_sizes e ->
     4 * (uptr (reservedSize e + autoGrowSize e) / 4)
     = uptr (reservedSize e + autoGrowSize e)).
Proof.
  split; [|split].
  - intros m size e. unfold PPCEmitter.
    destruct (Z.eqb_spec (uptr size) 0) as [E0|_].
    + intros [= <-]. split; cbn; [now rewrite E0 | reflexivity].
    + destruct (Z.eqb_spec (uptr size .& 3) 0) as [E3|_]; [|discriminate].
      cbn [negb]. destruct (_ =? 0); [discriminate|]. intros [= <-].
      split; cbn; [now rewrite <- land3_mod4 | reflexivity].
  - intros e e' [H1 H2]. split; [|split].
    + intros pointer size. unfold setBuffer.
      destruct (Z.eqb_spec (uptr size .& 3) 0) as [E3|_]; [|discriminate].
      intros [= <-]. split; cbn; [now rewrite <- land3_mod4 | exact H2].
    + intros size. unfold setAutoGrowSize.
      destruct (Z.eqb_spec (uptr size .& 3) 0) as [E3|_]; [|discriminate].
      intros [= <-]. split; cbn; [exact H1 | now rewrite <- land3_mod4].
    + intros E. pose proof (run_all_sizes_kept p e) as H. rewrite E in H.
      apply H. now split.
  - intros e [H1 H2].
    assert (H : uptr (reservedSize e + autoGrowSize e) mod 4 = 0).
    { apply uptr_aligned. rewrite Z.add_mod, H1, H2 by lia. reflexivity. }
    Z.div_mod_to_equations. lia.
Qed.

(** ** Emitted bytes stay as they are *)

Lemma extends_refl (e : Emitter) : extends e e.
Proof. split; [lia | reflexivity]. Qed.

Lemma extends_trans (e1 e2 e3 : Emitter) : extends e1 e2 -> extends e2 e3 -> extends e1 e3.
Proof.
  intros [H1 H2] [H3 H4]. split; [lia|].
  intros x Hx. rewrite H4 by lia. now apply H2.
Qed.

Lemma write_extends (n : nat) (val : Z) :
  growMode = FixedSize -> respects extends (write n val).
Proof.
  intros Hmode e. rewrite write_fixed by assumption. unfold appended.
  split; cbn [currentPointer mem]; [lia|]. intros x Hx. apply store_out. lia.
Qed.

Lemma branch_extends (cond : Cond.t) (link : bool) (T : Z) :
  growMode = FixedSize ->
  respects extends (slot <- bcx cond link ;; setLabel slot T).
Proof.
  intros Hmode e. unfold bind.
  destruct (branch_room e) as [Hb _]; [now left|]. destruct (Hb cond link) as [-> _].
  pose proof (setLabel_effect (currentPointer e, Branch14) T
                (appended 4 (bcx_word cond link) e)) as H.
  destruct (setLabel _ T _) as [[] e'|f]; [|exact I].
  destruct H as (_ & Hc & _ & _ & Hm). cbn [fst appended currentPointer mem] in *.
  split; [lia|]. intros x Hx. rewrite Hm by lia. apply store_out. lia.
Qed.

Lemma run_all_extends (p : Ops) :
  growMode = FixedSize -> label_free_all p = true -> respects extends (run_all p).
Proof.
  intros Hmode Hp. apply (run_all_respects extends false); try (now right).
  - apply extends_refl.
  - apply extends_trans.
  - intros n val. now apply write_extends.
  - intros cond link T. now apply branch_extends.
  - discriminate.
Qed.

(** In FixedSize mode a sequence of emission operations that resolves
    no label given by the caller never moves the cursor backwards and
    never changes a byte below the cursor it started from: what was
    emitted before stays as it is. *)
Theorem emitted_bytes_stay (p : Ops) (e e' : Emitter) :
  growMode = FixedSize ->
  label_free_all p = true ->
  run_all p e = Done tt e' ->
  currentPointer e <= currentPointer e' /\
  forall x, x < currentPointer e -> mem e' x = mem e x.
Proof.
  intros Hmode Hp E. pose proof (run_all_extends p Hmode Hp e) as H.
  rewrite E in H. exact H.
Qed.

Lemma bcx_word_fields (cond : Cond.t) (link : bool) :
  bcx_word cond link .& Z.lnot 0xFFFE = bcx_word cond link.
Proof. destruct cond, link; reflexivity. Qed.

Lemma field14_small (d : Z) : d .& 3 = 0 -> 0 <= d <= INT16_MAX -> d .& 0xFFFC = d.
Proof.
  intros Ha Hd. change 0xFFFC with (Z.ldiff (Z.ones 16) (Z.ones 2)).
  rewrite land_aligned_field by (lia || assumption).
  apply Z.mod_small. unfold INT16_MAX in Hd. lia.
Qed.

(** A conditional branch, then any label-free code, then [setLabel] on
    the branch's token, in FixedSize mode: the branch word becomes its
    opcode or-ed with the number of bytes from the branch to the cursor,
    which is the displacement it encodes, in relative form; the code in
    between is left as it was emitted. *)
Theorem branch_over_code (cond : Cond.t) (link : bool) (p : Ops) (e e1 : Emitter) :
  growMode = FixedSize ->
  label_free_all p = true ->
  run_all p (appended 4 (bcx_word cond link) e) = Done tt e1 ->
  let B := currentPointer e in
  let d := currentPointer e1 - B in
  d .& 3 = 0 -> d <= INT16_MAX ->
  exists e',
    (L <- bcx cond link ;; run_all p ;; setLabel_here L) e = Done tt e' /\
    load32 (mem e') B = bcx_word cond link .| d /\
    branch_disp Branch14 (load32 (mem e') B) = d /\
    branch_aa (load32 (mem e') B) = false /\
    currentPointer e' = currentPointer e1 /\
    (forall x, x < B \/ B + 4 <= x -> mem e' x = mem e1 x).
Proof.
  intros Hmode Hp E B d Ha Hd.
  pose proof (run_all_extends p Hmode Hp (appended 4 (bcx_word cond link) e)) as Hx.
  rewrite E in Hx. destruct Hx as [Hc Hm].
  cbn [appended currentPointer] in Hc, Hm. fold B in Hc, Hm.
  assert (Hd4 : 4 <= d) by (subst d; lia).
  assert (W : load32 (mem e1) B = bcx_word cond link).
  { rewrite <- (u32_bcx_word cond link), <- (load32_appended_same (bcx_word cond link) e).
    apply load32_ext. intros x Hx. apply Hm. fold B in Hx. lia. }
  unfold bind. destruct (branch_room e) as [Hb _]; [now left|].
  destruct (Hb cond link) as [-> _]. rewrite E.
  unfold setLabel_here, bind, getCurr. fold B.
  replace (currentPointer e1) with (B + d) by (subst d; lia).
  assert (Hl : label_disp B (B + d) = d).
  { apply label_disp_offset. unfold INT16_MAX in Hd. lia. }
  destruct (setLabel_relative B (B + d) Branch14 e1) as (e' & E' & Hw & Hout & _ & Hcp & _).
  { now rewrite Hl. }
  { rewrite Hl. cbn [disp_min disp_max]. unfold INT16_MIN. lia. }
  exists e'. split; [exact E'|]. rewrite Hl, W in Hw. cbn [patch_mask field_mask] in Hw.
  rewrite bcx_word_fields, field14_small in Hw by (assumption || lia).
  split; [exact Hw|].
  destruct (branch_disp_patched Branch14 (bcx_word cond link) d Ha) as [D1 D2].
  { cbn [disp_min disp_max]. unfold INT16_MIN. lia. }
  cbv zeta in D1, D2. cbn [patch_mask field_mask] in D1, D2.
  rewrite bcx_word_fields, field14_small in D1, D2 by (assumption || lia).
  rewrite Hw. split; [exact D1|]. split; [exact D2|].
  split; [subst d; lia | exact Hout].
Qed.

(** ** Data directives *)

Lemma load_ext (n : nat) (m m' : Memory) (a : Z) :
  (forall x, a <= x < a + Z.of_nat n -> m x = m' x) -> load n m a = load n m' a.
Proof. intros H. unfold load. f_equal. now apply load_bytes_ext. Qed.

Lemma write_array_room (n : nat) (arr : list Z) (e : Emitter) :
  room (Z.of_nat n * Z.of_nat (length arr)) e ->
  exists e',
    write_array n arr e = Done tt e' /\
    currentPointer e' = currentPointer e + Z.of_nat n * Z.of_nat (length arr) /\
    code e' = code e /\
    (forall i, (i < length arr)%nat ->
       load n (mem e') (currentPointer e + Z.of_nat n * Z.of_nat i)
       = nth i arr 0 mod 2 ^ (8 * Z.of_nat n)) /\
    (forall x, x < currentPointer e -> mem e' x = mem e x).
Proof.
  revert e. induction arr as [|v arr IH]; intros e Hr.
  - exists e. cbn. repeat split; try lia.
  - cbn [write_array length] in *. unfold bind.
    rewrite write_room by (revert Hr; apply room_weaken; nia).
    set (v' := wrap_u (8 * Z.of_nat n) v).
    destruct (IH (appended n v' e)) as (e' & E & Hc & Hb & Hw & Ho).
    { apply (room_appended _ n). revert Hr. apply room_weaken. nia. }
    exists e'. split; [exact E|].
    cbn [appended currentPointer code mem] in Hc, Hb, Hw, Ho.
    split; [nia|]. split; [exact Hb|]. split.
    + intros [|i] Hi.
      * cbn [nth]. replace (currentPointer e + Z.of_nat n * Z.of_nat 0)
          with (currentPointer e) by lia.
        rewrite (load_ext n (mem e') (store n (mem e) (currentPointer e) v')).
        -- rewrite load_store_same. subst v'. unfold wrap_u. apply Z.mod_mod.
           apply Z.pow_nonzero; lia.
        -- intros x Hx. apply Ho. lia.
      * cbn [nth]. rewrite <- Hw by lia. f_equal. nia.
    + intros x Hx. rewrite Ho by lia. apply store_out. lia.
Qed.

(** Without a reallocation, each of the array directives lays the
    elements out one after the other from the cursor on, a byte, two,
    four or eight bytes each, moves the cursor past them and leaves
    what is below the old cursor alone. *)
Theorem write_array_layout (arr : list Z) (e : Emitter) :
  let lays (n : nat) (directive : list Z -> M unit) :=
    room (Z.of_nat n * Z.of_nat (length arr)) e ->
    exists e',
      directive arr e = Done tt e' /\
      currentPointer e' = currentPointer e + Z.of_nat n * Z.of_nat (length arr) /\
      (forall i, (i < length arr)%nat ->
         load n (mem e') (currentPointer e + Z.of_nat n * Z.of_nat i)
         = nth i arr 0 mod 2 ^ (8 * Z.of_nat n)) /\
      (forall x, x < currentPointer e -> mem e' x = mem e x) in
  lays 1%nat db_array /\ lays 2%nat dh_array /\ lays 4%nat dw_array /\ lays 8%nat dd_array.
Proof.
  cbv zeta. unfold db_array, dh_array, dw_array, dd_array.
  repeat split; intros Hr;
    match goal with
    | |- exists e', write_array ?n _ _ = _ /\ _ =>
        destruct (write_array_room n arr e Hr) as (e' & E & Hc & _ & Hw & Ho)
    end;
    exists e'; (split; [exact E|]); (split; [exact Hc|]); (split; [exact Hw | exact Ho]).
Qed.

Lemma c_str_nonzero (str : list Z) : Forall (fun c => u8 c <> 0) (c_str str).
Proof.
  induction str as [|c rest IH]; cbn [c_str]; [constructor|].
  destruct (Z.eqb_spec (u8 c) 0); constructor; assumption.
Qed.

Lemma ds_as_array (str : list Z) (e : Emitter) :
  ds str e = db_array (c_str str ++ [0]) e.
Proof.
  unfold db_array. revert e. induction str as [|c rest IH]; intros e.
  - reflexivity.
  - cbn [ds c_str]. destruct (u8 c =? 0); [reflexivity|].
    cbn [app write_array]. change (wrap_u (8 * Z.of_nat 1) c) with (u8 c).
    unfold bind, db, write8.
    destruct (write 1 (u8 c) e) as [u e1|f]; [apply IH | reflexivity].
Qed.

(** [ds] emits what the byte-array directive emits for the characters
    before the first NUL followed by a NUL; without a reallocation these
    are the bytes from the old cursor to the new one, and the NUL at the
    end is the only zero byte among them. *)
Theorem ds_layout (str : list Z) (e : Emitter) :
  let s := c_str str in
  let len := Z.of_nat (length s) in
  ds str e = db_array (s ++ [0]) e /\
  (room (len + 1) e ->
   exists e',
     ds str e = Done tt e' /\
     currentPointer e' = currentPointer e + len + 1 /\
     (forall i, (i < length s)%nat ->
        load 1 (mem e') (currentPointer e + Z.of_nat i) = u8 (nth i s 0) /\
        u8 (nth i s 0) <> 0) /\
     load 1 (mem e') (currentPointer e + len) = 0 /\
     (forall x, x < currentPointer e -> mem e' x = mem e x)).
Proof.
  intros s len. split; [apply ds_as_array|]. intros Hr.
  destruct (write_array_room 1 (s ++ [0]) e) as (e' & E & Hc & _ & Hw & Ho).
  { rewrite length_app. cbn [length]. revert Hr. apply room_weaken. subst len. lia. }
  rewrite length_app in Hc, Hw. cbn [length] in Hc, Hw.
  exists e'. split; [rewrite ds_as_array; exact E|]. split; [subst len; lia|].
  split; [|split; [|exact Ho]].
  - intros i Hi. specialize (Hw i ltac:(lia)).
    rewrite app_nth1 in Hw by assumption.
    replace (currentPointer e + Z.of_nat 1 * Z.of_nat i)
      with (currentPointer e + Z.of_nat i) in Hw by lia.
    split; [exact Hw|].
    pose proof (c_str_nonzero str) as Hz. rewrite Forall_forall in Hz.
    apply Hz. now apply nth_In.
  - specialize (Hw (length s) ltac:(lia)).
    rewrite app_nth2, Nat.sub_diag in Hw by lia. cbn [nth] in Hw.
    replace (currentPointer e + Z.of_nat 1 * Z.of_nat (length s))
      with (currentPointer e + len) in Hw by (subst len; lia).
    exact Hw.
Qed.


(** The bits outside the patch mask are those of the word patched. *)
Lemma patched_outside (type : BranchType) (w x : Z) :
  (w .& Z.lnot (patch_mask type) .| (x .& field_mask type)) .& Z.lnot (patch_mask type)
  = w .& Z.lnot (patch_mask type).
Proof.
  rewrite Z.land_lor_distr_l, <- !Z.land_assoc, Z.land_diag.
  destruct type; cbn [patch_mask field_mask].
  - change (0xFFFC .& Z.lnot 0xFFFE) with 0. now rewrite Z.land_0_r, Z.lor_0_r.
  - change (0x3FFFFFC .& Z.lnot 0x3FFFFFE) with 0. now rewrite Z.land_0_r, Z.lor_0_r.
Qed.

(** ** The [loop] directive *)

Lemma aligned_back (k : Z) : k .& 3 = 0 -> (- (k + 4)) .& 3 = 0.
Proof. rewrite !land3_mod4. intros H. Z.div_mod_to_equations. lia. Qed.

Lemma u32_addic_dec (c : GPR) :
  u32 (addic_word true c c (s16 (-1))) = addic_word true c c (-1).
Proof.
  unfold addic_word. cbn [negb]. rewrite u16_s16.
  change 0x34000000 with (13 * 2 ^ 26). apply u32_small, dform_range.
  - lia.
  - apply gpr_range.
  - apply gpr_range.
  - apply (wrap_u_range 16). lia.
Qed.

(** [loop] with a count of zero emits nothing, not even the body.
    Otherwise, in FixedSize mode, after the load of the counter and the
    body come the decrement [addic.] of the counter by one and a [bne]
    whose displacement leads back to the first byte of the body. *)
Theorem loop_layout (counter : GPR) (iterations : Z) (f : M unit) (e : Emitter) :
  (uptr iterations = 0 -> loop counter iterations f e = Done tt e) /\
  (growMode = FixedSize -> uptr iterations <> 0 ->
   forall e1 e2,
     liw counter (uptr iterations) e = Done tt e1 ->
     f e1 = Done tt e2 ->
     let body := currentPointer e1 in
     let dec := currentPointer e2 in
     let k := dec - body in
     0 <= k -> k .& 3 = 0 -> k + 4 <= 32768 ->
     exists e',
       loop counter iterations f e = Done tt e' /\
       currentPointer e' = dec + 8 /\
       load32 (mem e') dec = addic_word true counter counter (-1) /\
       branch_disp Branch14 (load32 (mem e') (dec + 4)) = body - (dec + 4) /\
       branch_aa (load32 (mem e') (dec + 4)) = false /\
       load32 (mem e') (dec + 4) .& Z.lnot 0xFFFE = bcx_word Cond.Ne false /\
       (forall x, x < dec -> mem e' x = mem e2 x)).
Proof.
  split.
  - intros H0. unfold loop. rewrite H0. reflexivity.
  - intros Hmode Hn e1 e2 E1 E2 body dec k Hk Ha Hmax. unfold loop.
    destruct (Z.eqb_spec (uptr iterations) 0); [contradiction|].
    unfold bind. rewrite E1. unfold getCurr at 1. rewrite E2.
    unfold addic, bne, bcx, emitBranch14, bind, getCurr, ret.
    rewrite !write32_room by now left.
    rewrite u32_addic_dec, u32_bcx_word.
    set (e3 := appended 4 _ e2). set (e4 := appended 4 _ e3).
    fold body. change (currentPointer e3) with (dec + 4).
    assert (Hl : label_disp (dec + 4) body = - (k + 4)).
    { rewrite label_disp_diff; subst k; lia. }
    destruct (setLabel_relative (dec + 4) body Branch14 e4)
      as (e' & E' & Hw & Hout & _ & Hcp & _).
    { rewrite Hl. now apply aligned_back. }
    { rewrite Hl. cbn [disp_min disp_max]. unfold INT16_MIN, INT16_MAX. lia. }
    exists e'. split; [exact E'|].
    assert (W : load32 (mem e4) (dec + 4) = bcx_word Cond.Ne false).
    { subst e4. change (dec + 4) with (currentPointer e3).
      rewrite load32_appended_same. apply u32_bcx_word. }
    rewrite Hl, W in Hw. cbn [patch_mask field_mask] in Hw.
    destruct (branch_disp_patched Branch14 (bcx_word Cond.Ne false) (- (k + 4)))
      as [D1 D2].
    { now apply aligned_back. }
    { cbn [disp_min disp_max]. unfold INT16_MIN, INT16_MAX. lia. }
    cbv zeta in D1, D2. cbn [patch_mask field_mask] in D1, D2.
    split; [rewrite Hcp; subst e4 e3 dec; cbn; lia|].
    split.
    { rewrite (load32_ext (mem e') (mem e4)) by (intros x Hx; apply Hout; lia).
      subst e4. rewrite load32_appended_other by (left; cbn; lia).
      subst e3 dec. rewrite load32_appended_same.
      rewrite <- u32_addic_dec. apply u32_u32. }
    rewrite Hw. split; [rewrite D1; subst k; lia|]. split; [exact D2|].
    split.
    { rewrite (patched_outside Branch14). apply bcx_word_fields. }
    intros x Hx. rewrite Hout by lia. subst e4 e3. unfold appended. cbn [mem currentPointer].
    fold dec. rewrite !store_out by (cbn; lia). reflexivity.
Qed.

(** ** Resolving a label again *)

(** A successful [setLabel] is one assignment to the word of the token:
    the bits of the patch mask are cleared and a value within the mask
    is or-ed in, the value depending on the token and the target only. *)
Lemma setLabel_done_form (B T : Z) (type : BranchType) (e e' : Emitter) :
  setLabel (B, type) T e = Done tt e' ->
  exists x,
    x .& u32 (Z.lnot (patch_mask type)) = 0 /\
    forall e0,
      setLabel (B, type) T e0
      = poke32 B (load32 (mem e0) B .& u32 (Z.lnot (patch_mask type)) .| x) e0.
Proof.
  unfold setLabel. cbn [fst snd]. set (disp := label_disp B T).
  destruct (negb (disp .& 3 =? 0)); [discriminate|].
  destruct type; cbn [patch_mask].
  - destruct ((disp <=? INT16_MAX) && (disp >=? INT16_MIN)).
    { intros _. exists (disp .& 0xFFFC). split; [|reflexivity].
      rewrite <- Z.land_assoc. change (0xFFFC .& u32 (Z.lnot 0xFFFE)) with 0.
      apply Z.land_0_r. }
    destruct ((iptr T <=? INT16_MAX) && (iptr T >=? INT16_MIN)); [|discriminate].
    intros _. exists (uptr T .& 0xFFFC .| 2). split.
    + rewrite Z.land_lor_distr_l, <- Z.land_assoc.
      change (0xFFFC .& u32 (Z.lnot 0xFFFE)) with 0.
      change (2 .& u32 (Z.lnot 0xFFFE)) with 0. now rewrite Z.land_0_r.
    + intros e0. unfold bind, peek32. now rewrite <- !Z.lor_assoc.
  - destruct ((disp >=? INT26_MIN) && (disp <=? INT26_MAX)).
    { intros _. exists (disp .& 0x3FFFFFC). split; [|reflexivity].
      rewrite <- Z.land_assoc. change (0x3FFFFFC .& u32 (Z.lnot 0x3FFFFFE)) with 0.
      apply Z.land_0_r. }
    destruct ((iptr T >=? INT26_MIN) && (iptr T <=? INT26_MAX)); [|discriminate].
    intros _. exists (uptr T .& 0x3FFFFFC .| 2). split.
    + rewrite Z.land_lor_distr_l, <- Z.land_assoc.
      change (0x3FFFFFC .& u32 (Z.lnot 0x3FFFFFE)) with 0.
      change (2 .& u32 (Z.lnot 0x3FFFFFE)) with 0. now rewrite Z.land_0_r.
    + intros e0. unfold bind, peek32. now rewrite <- !Z.lor_assoc.
Qed.

Lemma store_store_over (n : nat) (m : Memory) (a v v' x : Z) :
  store n (store n m a v) a v' x = store n m a v' x.
Proof.
  unfold store, store_bytes. rewrite !to_bytes_length.
  destruct ((a <=? x) && (x <? a + Z.of_nat n)); reflexivity.
Qed.

(** Patching over a patch: the first value leaves no trace. *)
Lemma patch_over (w k x1 x2 : Z) :
  x1 .& k = 0 -> u32 (u32 (w .& k .| x1) .& k .| x2) = u32 (w .& k .| x2).
Proof.
  intros H. rewrite !u32_land_ones. apply Z.bits_inj'. intros i Hi.
  apply (f_equal (fun z => Z.testbit z i)) in H.
  rewrite Z.land_spec, Z.bits_0 in H.
  rewrite !Z.land_spec, !Z.lor_spec, !Z.land_spec, !Z.lor_spec, !Z.land_spec.
  destruct (Z.testbit w i), (Z.testbit k i), (Z.testbit x1 i), (Z.testbit x2 i),
    (Z.testbit (Z.ones 32) i); simpl in *; congruence.
Qed.

(** Resolving a token to a second target overrides the first: the
    emitter is left as if the token had been resolved to the second
    target only.  A label can be re-targeted. *)
Theorem setLabel_last_wins (label : BranchLabel) (T1 T2 : Z) (e e1 e2 : Emitter) :
  setLabel label T1 e = Done tt e1 ->
  setLabel label T2 e = Done tt e2 ->
  exists e12,
    setLabel label T2 e1 = Done tt e12 /\
    same_emitter e2 e12.
Proof.
  destruct label as [B type]. intros E1 E2.
  destruct (setLabel_done_form B T1 type e e1 E1) as (x1 & Hx1 & F1).
  destruct (setLabel_done_form B T2 type e e2 E2) as (x2 & _ & F2).
  rewrite F1 in E1. rewrite F2 in E2. rewrite F2.
  unfold poke32 in *. injection E1 as <-. injection E2 as <-.
  eexists. split; [reflexivity|].
  unfold same_emitter. cbn [code currentPointer reservedSize autoGrowSize mem].
  repeat split. intros y.
  rewrite load32_store32, u32_u32, patch_over by assumption.
  unfold store32. apply store_store_over.
Qed.

(** A successful [setLabel] changes no bit of the word outside the
    patch mask: the opcode, the condition fields of a conditional
    branch and the link bit are those the branch was emitted with. *)
Theorem setLabel_keeps_opcode (B T : Z) (type : BranchType) (e e' : Emitter) :
  setLabel (B, type) T e = Done tt e' ->
  load32 (mem e') B .& Z.lnot (patch_mask type)
  = load32 (mem e) B .& Z.lnot (patch_mask type).
Proof.
  intros E.
  destruct (Z.eq_dec (label_disp B T .& 3) 0) as [Ha|Ha].
  2:{ rewrite setLabel_unaligned in E by assumption. discriminate. }
  assert (D : forall x, {disp_min type <= x <= disp_max type} +
                        {~ disp_min type <= x <= disp_max type}).
  { intros x. destruct (Z_le_dec (disp_min type) x), (Z_le_dec x (disp_max type));
      (left; lia) || (right; lia). }
  destruct (D (label_disp B T)) as [Hr|Hr].
  - destruct (setLabel_relative B T type e Ha Hr) as (e0 & E0 & Hw & _).
    rewrite E in E0. injection E0 as <-. rewrite Hw. apply patched_outside.
  - destruct (D (iptr T)) as [Hr'|Hr'].
    + destruct (setLabel_absolute B T type e Ha Hr Hr') as (e0 & E0 & Hw & _).
      rewrite E in E0. injection E0 as <-. rewrite Hw.
      rewrite Z.land_lor_distr_l, patched_outside.
      destruct type; cbn [patch_mask];
        [change (2 .& Z.lnot 0xFFFE) with 0 | change (2 .& Z.lnot 0x3FFFFFE) with 0];
        apply Z.lor_0_r.
    + rewrite setLabel_out_of_range in E by assumption. discriminate.
Qed.

(** ** The absolute form, and branches to a known address *)

Lemma uptr_iptr (x : Z) : uptr (iptr x) = uptr x.
Proof.
  unfold uptr, iptr, wrap_u, wrap_s. rewrite Zminus_mod_idemp_l. f_equal. lia.
Qed.

Lemma iptr_land (x m : Z) : 0 <= m < 2 ^ 32 -> iptr x .& m = x .& m.
Proof.
  intros Hm. rewrite <- (uptr_land (iptr x)), uptr_iptr by assumption.
  now apply uptr_land.
Qed.

(** When [setLabel] falls back to the absolute form for a word-aligned
    target, the word has its AA bit set and its displacement field
    decodes to the target address. *)
Theorem setLabel_absolute_decodes (type : BranchType) (B T : Z) (e : Emitter) :
  label_disp B T .& 3 = 0 ->
  ~ disp_min type <= label_disp B T <= disp_max type ->
  disp_min type <= iptr T <= disp_max type ->
  iptr T .& 3 = 0 ->
  exists e',
    setLabel (B, type) T e = Done tt e' /\
    branch_aa (load32 (mem e') B) = true /\
    branch_disp type (load32 (mem e') B) = iptr T.
Proof.
  intros Ha Hd Hr Hta.
  destruct (setLabel_absolute B T type e Ha Hd Hr) as (e' & E & Hw & _).
  exists e'. split; [exact E|]. rewrite Hw. split.
  - unfold branch_aa. rewrite Z.lor_spec. change (Z.testbit 2 1) with true.
    apply orb_true_r.
  - destruct (branch_disp_patched type (load32 (mem e) B) (iptr T) Hta Hr) as [D _].
    cbv zeta in D. rewrite iptr_land in D by (destruct type; cbn; lia).
    rewrite <- D. unfold branch_disp. destruct type; cbn [patch_mask field_mask];
      f_equal; rewrite (Z.land_lor_distr_l _ 2);
      [change (2 .& 0xFFFC) with 0 | change (2 .& 0x3FFFFFC) with 0];
      now rewrite Z.lor_0_r.
Qed.

Lemma label_disp_low (B T : Z) : B .& 3 = 0 -> label_disp B T .& 3 = T .& 3.
Proof.
  intros HB. unfold label_disp. rewrite iptr_congr, iptr_land by lia.
  rewrite !land3_mod4 in *. Z.div_mod_to_equations. lia.
Qed.

Lemma bx_word_outside (link : bool) :
  bx_word link .& u32 (Z.lnot 0x3FFFFFE) = bx_word link.
Proof. destruct link; reflexivity. Qed.

(** With the cursor on a word boundary and no reallocation, a branch to
    a known address, [bx (address)], does what [bx ()] followed by
    [setLabel] on its token and the address does: the same fatal error,
    or the same emitter and memory. *)
Theorem bx_addr_as_label (link : bool) (T : Z) (e : Emitter) :
  room 4 e ->
  0 <= currentPointer e < 2 ^ ptr_bits ->
  currentPointer e .& 3 = 0 ->
  match bx_addr link T e, (L <- bx link ;; setLabel L T) e with
  | Done _ e1, Done _ e2 => same_emitter e1 e2
  | Panic f1, Panic f2 => f1 = f2
  | _, _ => False
  end.
Proof.
  intros Hr Hc Ha. set (B := currentPointer e) in *.
  unfold bind. destruct (branch_room e Hr) as [_ Hb]. destruct (Hb link) as [-> Hw0].
  fold B in Hw0 |- *.
  unfold bx_addr, bind, getCurr. fold B.
  assert (EB : uptr B = B) by (apply wrap_u_small; exact Hc). rewrite EB.
  fold (label_disp B T). unfold setLabel. cbn [fst snd].
  rewrite (label_disp_low B T Ha), (uptr_land T 3) by lia.
  destruct (negb (T .& 3 =? 0)); [reflexivity|].
  set (disp := label_disp B T).
  destruct ((disp >=? INT26_MIN) && (disp <=? INT26_MAX)).
  - unfold bind, peek32, poke32. rewrite write32_room by assumption.
    rewrite Hw0, bx_word_outside. unfold appended, same_emitter.
    cbn [code currentPointer reservedSize autoGrowSize mem]. fold B.
    repeat split. intros x. unfold store32. rewrite store_store_over.
    unfold bx_word. now rewrite <- !Z.lor_assoc, (Z.lor_comm (bool_to_Z link)).
  - destruct ((iptr T >=? INT26_MIN) && (iptr T <=? INT26_MAX)); [|reflexivity].
    unfold bind, peek32, poke32. rewrite write32_room by assumption.
    rewrite Hw0, bx_word_outside. unfold appended, same_emitter.
    cbn [code currentPointer reservedSize autoGrowSize mem]. fold B.
    repeat split. intros x. unfold store32. rewrite store_store_over.
    unfold bx_word. f_equal. f_equal.
    rewrite <- !Z.lor_assoc. f_equal.
    rewrite (Z.lor_comm (bool_to_Z link)). now rewrite <- Z.lor_assoc.
Qed.

(** ** The conditions of the conditional branches *)

(** Every conditional branch the header emits is a [bc] on CR0 that
    leaves the counter alone and is taken exactly when the condition it
    is named after holds; its link bit is the [link] argument and its
    displacement is still empty. *)
Theorem bcx_tests_condition (cond : Cond.t) (link : bool) (cr : Z -> bool) (ctr : Z) :
  let w := bcx_word cond link in
  w >> 26 = 16 /\
  bc_taken w cr ctr = holds cond cr /\
  Z.testbit w 0 = link /\
  branch_aa w = false /\
  branch_disp Branch14 w = 0.
Proof.
  destruct cond, link; cbv zeta; repeat split; try reflexivity;
    unfold bc_taken, holds;
    match goal with
    | |- context [bcx_word ?c ?l] =>
        let v := eval vm_compute in (bcx_word c l) in change (bcx_word c l) with v
    end;
    cbn [Z.shiftr Z.shiftl Z.land Z.testbit Pos.testbit Pos.land Z.of_N Pos.div2
         Pos.iter Z.div2 orb andb Z.pos_sub Z.opp Z.succ_double Z.pred_double Z.double
         Pos.pred_double Pos.succ];
    try (destruct (cr _); reflexivity).
Qed.

(** ** The encodings of the three-register arithmetic instructions *)

Lemma lor_swap (h x a : Z) : h .| x .| a = h .| a .| x.
Proof. rewrite <- !Z.lor_assoc. f_equal. apply Z.lor_comm. Qed.

Lemma arith3_base_low (m : Arith3) :
  let x := (arith3_base m - 31 * 2 ^ 26) / 2 in
  arith3_base m = 31 * 2 ^ 26 + 2 * x /\ 0 <= x < 1024.
Proof. destruct m; vm_compute; repeat split; easy. Qed.

(** An X-form word is the sum of its fields. *)
Lemma xform_sum (base x a b c f : Z) :
  base = 31 * 2 ^ 26 + 2 * x -> 0 <= x < 1024 ->
  0 <= a < 32 -> 0 <= b < 32 -> 0 <= c < 32 -> 0 <= f < 2 ->
  base .| (a << 21) .| (b << 16) .| (c << 11) .| f
  = 31 * 2 ^ 26 + a * 2 ^ 21 + b * 2 ^ 16 + (c * 2 ^ 11 + 2 * x + f).
Proof.
  intros -> Hx Ha Hb Hc Hf.
  rewrite <- (lor_field 26 (31 * 2 ^ 26) (2 * x));
    [| lia | apply Z.mod_mul; lia | change (2 ^ 26) with 67108864; lia].
  rewrite (lor_swap _ (2 * x) (a << 21)), (lor_swap _ (2 * x) (b << 16)),
    (lor_swap _ (2 * x) (c << 11)).
  rewrite <- (Z.lor_assoc _ (2 * x) f).
  rewrite <- (Z.lor_assoc _ (c << 11)).
  assert (E1 : 2 * x .| f = 2 * x + f).
  { apply (lor_field 1); [lia | | change (2 ^ 1) with 2; lia].
    rewrite Z.mul_comm. apply Z.mod_mul. lia. }
  assert (E2 : c << 11 .| (2 * x .| f) = c * 2 ^ 11 + 2 * x + f).
  { rewrite E1, Z.shiftl_mul_pow2 by lia.
    rewrite (lor_field 11); [lia | lia | apply Z.mod_mul; lia |].
    change (2 ^ 11) with 2048. lia. }
  rewrite dform_sum; [rewrite E2; reflexivity | lia | lia |].
  rewrite E2. change (2 ^ 11) with 2048. lia.
Qed.

Lemma bool_to_Z_range (f : bool) : 0 <= bool_to_Z f < 2.
Proof. destruct f; cbn; lia. Qed.

Lemma arith3_word_sum (m : Arith3) (setFlags : bool) (d a b : GPR) :
  arith3_word m setFlags d a b
  = 31 * 2 ^ 26 + gpr d * 2 ^ 21 + gpr a * 2 ^ 16
    + (gpr b * 2 ^ 11 + (arith3_base m - 31 * 2 ^ 26) + bool_to_Z setFlags).
Proof.
  destruct (arith3_base_low m) as [Eb Hx]. set (x := (_ - _) / 2) in *.
  unfold arith3_word.
  rewrite (xform_sum _ x) by (auto using gpr_range, bool_to_Z_range).
  rewrite Eb. f_equal. lia.
Qed.

Lemma gpr_inj (r r' : GPR) : gpr r = gpr r' -> r = r'.
Proof. destruct r, r'; intros H; try reflexivity; discriminate H. Qed.

Lemma arith3_base_inj (m m' : Arith3) :
  arith3_base m = arith3_base m' ->
  m = m' \/ (m = Mullwo /\ m' = Divw) \/ (m = Divw /\ m' = Mullwo).
Proof.
  destruct m, m'; intros H; try (left; reflexivity); try discriminate H;
    [right; left | right; right]; split; reflexivity.
Qed.

(** Two calls of the three-register arithmetic functions emit the same
    word only if they are the same call, with one exception: [mullwo]
    has the constant of [divw], so these two emit the same word for the
    same operands. *)
Theorem arith3_words_distinct (m m' : Arith3) (sf sf' : bool) (d a b d' a' b' : GPR) :
  arith3_word m sf d a b = arith3_word m' sf' d' a' b' <->
  sf = sf' /\ d = d' /\ a = a' /\ b = b' /\
  (m = m' \/ (m = Mullwo /\ m' = Divw) \/ (m = Divw /\ m' = Mullwo)).
Proof.
  split.
  - rewrite !arith3_word_sum. intros H.
    destruct (arith3_base_low m) as [Eb Hx]. destruct (arith3_base_low m') as [Eb' Hx'].
    set (x := (_ - _) / 2) in *. set (x' := (arith3_base m' - _) / 2) in *.
    pose proof (gpr_range d). pose proof (gpr_range a). pose proof (gpr_range b).
    pose proof (gpr_range d'). pose proof (gpr_range a'). pose proof (gpr_range b').
    assert (Hf : 0 <= bool_to_Z sf < 2) by (destruct sf; cbn; lia).
    assert (Hf' : 0 <= bool_to_Z sf' < 2) by (destruct sf'; cbn; lia).
    rewrite Eb, Eb' in H.
    change (2 ^ 26) with 67108864 in *. change (2 ^ 21) with 2097152 in *.
    change (2 ^ 16) with 65536 in *. change (2 ^ 11) with 2048 in *.
    assert (Ed : gpr d = gpr d') by lia. assert (Ea : gpr a = gpr a') by lia.
    assert (Eg : gpr b = gpr b') by lia. assert (Ex : x = x') by lia.
    assert (Ef : bool_to_Z sf = bool_to_Z sf') by lia.
    split; [destruct sf, sf'; cbn in Ef; congruence|].
    split; [now apply gpr_inj|]. split; [now apply gpr_inj|]. split; [now apply gpr_inj|].
    apply arith3_base_inj. rewrite Eb, Eb'. now rewrite Ex.
  - intros (-> & -> & -> & -> & [->|[[-> ->]|[-> ->]]]); reflexivity.
Qed.

(** ** Sign extension *)

Lemma pow2_split (n : Z) : 0 < n -> 2 ^ n = 2 * 2 ^ (n - 1).
Proof. intros H. rewrite <- Z.pow_succ_r by lia. f_equal. lia. Qed.

Lemma wrap_s_congr (n x : Z) : exists q, wrap_s n x = x + q * 2 ^ n.
Proof.
  unfold wrap_s. exists (- ((x + 2 ^ (n - 1)) / 2 ^ n)).
  destruct (Z.eq_dec (2 ^ n) 0) as [E|E].
  - rewrite E, Z.mod_0_r. lia.
  - rewrite Z.mod_eq by assumption. lia.
Qed.

Lemma wrap_s_range (n x : Z) : 0 < n -> - 2 ^ (n - 1) <= wrap_s n x < 2 ^ (n - 1).
Proof.
  intros Hn. unfold wrap_s. rewrite (pow2_split n Hn).
  assert (0 < 2 ^ (n - 1)) by (apply Z.pow_pos_nonneg; lia).
  pose proof (Z.mod_pos_bound (x + 2 ^ (n - 1)) (2 * 2 ^ (n - 1))). lia.
Qed.

Lemma wrap_s_unique (n x r q : Z) :
  0 < n -> - 2 ^ (n - 1) <= r < 2 ^ (n - 1) -> r = x + q * 2 ^ n -> wrap_s n x = r.
Proof.
  intros Hn Hr Hq. unfold wrap_s.
  replace (x + 2 ^ (n - 1)) with (r + 2 ^ (n - 1) + (- q) * 2 ^ n) by lia.
  rewrite Z_mod_plus_full, Z.mod_small; [lia|]. rewrite (pow2_split n Hn). lia.
Qed.

(** [signExtend32] reads the low [startingSize] bits of its argument as
    a two's complement number and returns it as a 32-bit value. *)
Theorem signExtend32_extends (value startingSize : Z) :
  1 <= startingSize <= 32 ->
  signExtend32 value startingSize = u32 (wrap_s startingSize value).
Proof.
  intros Hs. unfold signExtend32.
  rewrite (u32_small startingSize) by lia.
  rewrite (u32_small (32 - startingSize)) by lia.
  set (k := 32 - startingSize). set (r := wrap_s startingSize value).
  assert (Hk : 0 <= k) by (subst k; lia).
  assert (Hp : 0 < 2 ^ k) by (apply Z.pow_pos_nonneg; lia).
  assert (E32 : 2 ^ 32 = 2 ^ startingSize * 2 ^ k).
  { rewrite <- Z.pow_add_r by lia. f_equal. subst k. lia. }
  assert (E31 : 2 ^ (32 - 1) = 2 ^ (startingSize - 1) * 2 ^ k).
  { rewrite <- Z.pow_add_r by lia. f_equal. subst k. lia. }
  assert (Hr : - 2 ^ (startingSize - 1) <= r < 2 ^ (startingSize - 1))
    by (apply wrap_s_range; lia).
  destruct (wrap_s_congr startingSize value) as [q1 Hq1]. fold r in Hq1.
  destruct (wrap_s_congr 32 (u32 value)) as [q2 Hq2].
  assert (Hu : u32 value = value - value / 2 ^ 32 * 2 ^ 32).
  { unfold u32, wrap_u. rewrite Z.mod_eq by lia. lia. }
  rewrite Z.shiftl_mul_pow2 by assumption.
  rewrite (wrap_s_unique 32 _ (r * 2 ^ k) (q1 - (q2 - value / 2 ^ 32) * 2 ^ k)).
  - rewrite Z.shiftr_div_pow2, Z.div_mul by lia. reflexivity.
  - lia.
  - rewrite E31. nia.
  - rewrite Hq2, Hu, Hq1, E32. ring.
Qed.

(** ** The load-immediate pseudo-ops, executed *)

Lemma s16_u16_small (x : Z) : 0 <= x < 0x8000 -> s16 (u16 x) = x.
Proof. intros H. rewrite u16_small by lia. apply s16_small. lia. Qed.

(** [liu], "load immediate (unsigned)", emits one [addi] for an
    immediate below [0x8000] and else an [addi] of zero followed by an
    [ori]; executed, these words leave the immediate, zero extended, in
    the register and every other register unchanged. *)
Theorem liu_loads_unsigned (reg : GPR) (imm : Z) :
  let imm16 := u16 imm in
  let ws := if imm16 <? 0x8000 then [addi_word reg r0 imm16]
            else [addi_word reg r0 0; ori_word reg reg imm16] in
  (forall e, liu reg imm e = emit_words ws e) /\
  (forall rf, exists rf',
      exec_words ws rf = Some rf' /\
      rf' (gpr reg) = imm16 /\
      forall r, r <> gpr reg -> rf' r = rf r).
Proof.
  intros imm16 ws.
  assert (Hi : 0 <= imm16 < 65536) by (apply (wrap_u_range 16); lia).
  split.
  - intros e. subst ws. unfold liu. fold imm16.
    destruct (imm16 <? 0x8000).
    + unfold li, addi. cbn [emit_words]. unfold bind, ret, write32, write.
      rewrite (addi_word_imm reg r0 (s16 (s16 imm16)) imm16); [reflexivity|].
      now rewrite !u16_s16.
    + unfold li, addi, ori. cbn [emit_words]. unfold bind, ret, write32, write.
      rewrite (addi_word_imm reg r0 (s16 (s16 0)) 0) by reflexivity.
      subst imm16. rewrite u16_u16. reflexivity.
  - intros rf. subst ws. destruct (Z.ltb_spec imm16 0x8000) as [Hlt|Hge].
    + cbn [exec_words]. rewrite exec_addi. eexists. split; [reflexivity|]. split.
      * rewrite set_reg_same. simpl (gpr r0 =? 0). cbv iota.
        rewrite s16_u16_small by lia. apply u32_small. lia.
      * intros r Hr. now apply set_reg_other.
    + cbn [exec_words]. rewrite exec_addi, exec_ori by assumption.
      eexists. split; [reflexivity|]. split.
      * rewrite !set_reg_same. reflexivity.
      * intros r Hr. now rewrite !set_reg_other.
Qed.

(** [li] leaves its immediate, sign extended to 32 bits, in the
    register, and [lis] leaves its immediate in the upper halfword with
    a zero lower halfword; each is one word, and no other register
    changes. *)
Theorem li_lis_load (reg : GPR) (imm : Z) :
  (forall e, li reg imm e = emit_words [addi_word reg r0 imm] e) /\
  (forall e, lis reg imm e = emit_words [addis_word reg r0 imm] e) /\
  (forall rf, exists rf',
      exec_words [addi_word reg r0 imm] rf = Some rf' /\
      rf' (gpr reg) = u32 (s16 imm) /\
      forall r, r <> gpr reg -> rf' r = rf r) /\
  (forall rf, exists rf',
      exec_words [addis_word reg r0 imm] rf = Some rf' /\
      rf' (gpr reg) = u16 imm * 65536 /\
      forall r, r <> gpr reg -> rf' r = rf r).
Proof.
  split; [|split; [|split]].
  - intros e. unfold li, addi. cbn [emit_words]. unfold bind, ret, write32, write.
    rewrite (addi_word_imm reg r0 (s16 (s16 imm)) imm); [reflexivity|].
    now rewrite !u16_s16.
  - intros e. unfold lis, addis. cbn [emit_words]. unfold bind, ret, write32, write.
    rewrite (addis_word_imm reg r0 (s16 (u16 imm)) imm); [reflexivity|].
    now rewrite u16_s16, u16_u16.
  - intros rf. cbn [exec_words]. rewrite exec_addi. eexists. split; [reflexivity|]. split.
    + rewrite set_reg_same. simpl (gpr r0 =? 0). cbv iota. f_equal.
      wrap_arith.
    + intros r Hr. now apply set_reg_other.
  - intros rf. cbn [exec_words]. rewrite exec_addis. eexists. split; [reflexivity|]. split.
    + rewrite set_reg_same. simpl (gpr r0 =? 0). cbv iota.
      assert (Hu : 0 <= u16 imm < 65536) by (apply (wrap_u_range 16); lia).
      assert (Es : s16 (u16 imm) = u16 imm \/ s16 (u16 imm) = u16 imm - 65536)
        by wrap_arith.
      destruct Es as [Es|Es]; rewrite Es; wrap_arith.
    + intros r Hr. now apply set_reg_other.
Qed.

(** ** Register moves and subtraction, executed *)

Lemma xform_decode (x a b c f : Z) :
  0 <= x < 1024 -> 0 <= a < 32 -> 0 <= b < 32 -> 0 <= c < 32 -> 0 <= f < 2 ->
  let w := 31 * 2 ^ 26 + a * 2 ^ 21 + b * 2 ^ 16 + (c * 2 ^ 11 + 2 * x + f) in
  w >> 26 = 31 /\ (w >> 21) .& 31 = a /\ (w >> 16) .& 31 = b /\
  (w >> 11) .& 31 = c /\ (w >> 1) .& 1023 = x /\ 0 <= w < 2 ^ 32.
Proof.
  intros Hx Ha Hb Hc Hf w. subst w.
  assert (L5 : forall y, y .& 31 = y mod 32).
  { intros y. change 31 with (Z.ones 5). now rewrite Z.land_ones by lia. }
  assert (L10 : forall y, y .& 1023 = y mod 1024).
  { intros y. change 1023 with (Z.ones 10). now rewrite Z.land_ones by lia. }
  rewrite !L5, L10, !Z.shiftr_div_pow2 by lia.
  change (2 ^ 26) with 67108864. change (2 ^ 21) with 2097152.
  change (2 ^ 16) with 65536. change (2 ^ 11) with 2048.
  change (2 ^ 1) with 2. change (2 ^ 32) with 4294967296.
  repeat split; Z.div_mod_to_equations; lia.
Qed.

Lemma write32_small (w : Z) : 0 <= w < 2 ^ 32 -> write32 w = write 4 w.
Proof. intros H. unfold write32. now rewrite u32_small. Qed.

Lemma or_computes (setFlags : bool) (d s1 s2 : GPR) (rf : RegFile) :
  computes (or_ setFlags d s1 s2) rf d (rf (gpr s1) .| rf (gpr s2)).
Proof.
  pose proof (xform_sum 0x7C000378 444 (gpr s1) (gpr d) (gpr s2) (bool_to_Z setFlags)
                eq_refl ltac:(lia) (gpr_range s1) (gpr_range d) (gpr_range s2)
                (bool_to_Z_range setFlags)) as Es.
  destruct (xform_decode 444 (gpr s1) (gpr d) (gpr s2) (bool_to_Z setFlags)
              ltac:(lia) (gpr_range s1) (gpr_range d) (gpr_range s2)
              (bool_to_Z_range setFlags)) as (E1 & E2 & E3 & E4 & E5 & Hw).
  rewrite <- Es in E1, E2, E3, E4, E5, Hw. fold (or_word setFlags d s1 s2) in *.
  exists (or_word setFlags d s1 s2). split; [exact Hw|].
  split; [unfold or_; now apply write32_small|].
  unfold exec_insn. rewrite E1, E2, E3, E4, E5. reflexivity.
Qed.

Lemma subf_computes (m : Arith3) (setFlags : bool) (d a b : GPR) (rf : RegFile) :
  m = Subf \/ m = Subfo ->
  computes (arith3 m setFlags d a b) rf d (u32 (rf (gpr b) - rf (gpr a))).
Proof.
  intros Hm. destruct (arith3_base_low m) as [Eb Hx]. set (x := (_ - _) / 2) in *.
  pose proof (arith3_word_sum m setFlags d a b) as Es.
  replace (arith3_base m - 31 * 2 ^ 26) with (2 * x) in Es by lia.
  destruct (xform_decode x (gpr d) (gpr a) (gpr b) (bool_to_Z setFlags)
              Hx (gpr_range d) (gpr_range a) (gpr_range b)
              (bool_to_Z_range setFlags)) as (E1 & E2 & E3 & E4 & E5 & Hw).
  rewrite <- Es in E1, E2, E3, E4, E5, Hw.
  exists (arith3_word m setFlags d a b). split; [exact Hw|].
  split; [unfold arith3; now apply write32_small|].
  unfold exec_insn. rewrite E1, E2, E3, E4, E5.
  destruct Hm as [-> | ->]; reflexivity.
Qed.

(** [mr] copies its source register to its destination, [nop] changes
    no register, and [sub] and [subo], which exchange the sources of
    [subf] and [subfo], leave the first source minus the second in the
    destination. *)
Theorem moves_and_differences (setFlags : bool) (d s1 s2 : GPR) (rf : RegFile) :
  computes (mr setFlags d s1) rf d (rf (gpr s1)) /\
  computes (sub setFlags d s1 s2) rf d (u32 (rf (gpr s1) - rf (gpr s2))) /\
  computes (subo setFlags d s1 s2) rf d (u32 (rf (gpr s1) - rf (gpr s2))) /\
  (exists w rf',
      0 <= w < 2 ^ 32 /\ nop = write 4 w /\
      exec_insn w rf = Some rf' /\ forall r, rf' r = rf r).
Proof.
  split; [|split; [|split]].
  - unfold mr. rewrite <- (Z.lor_diag (rf (gpr s1))). apply or_computes.
  - unfold sub, subf. apply subf_computes. now left.
  - unfold subo, subfo. apply subf_computes. now right.
  - exists 0x60000000, (set_reg rf 0 (rf 0 .| 0)).
    split; [split; [discriminate | reflexivity]|]. split; [reflexivity|].
    split; [reflexivity|]. intros r. unfold set_reg.
    destruct (Z.eqb_spec r 0) as [->|_]; [apply Z.lor_0_r | reflexivity].
Qed.

(** ** The rotate-and-mask aliases, executed *)

Lemma exec_rlwinm (setFlags : bool) (d s : GPR) (sh mb me : Z) (rf : RegFile) :
  0 <= mb < 32 -> 0 <= me < 32 ->
  exec_insn (rlwinm_word setFlags d s sh mb me) rf
  = Some (set_reg rf (gpr d) (rotl32 (rf (gpr s)) (sh mod 32) .& rlw_mask mb me)).
Proof.
  intros Hmb Hme.
  unfold exec_insn. rewrite rlwinm_word_sum by assumption.
  pose proof (gpr_range d) as Hd. pose proof (gpr_range s) as Hs.
  pose proof (bool_to_Z_range setFlags) as Hf.
  assert (Hm : 0 <= sh mod 32 < 32) by (apply Z.mod_pos_bound; lia).
  set (w := 21 * 2 ^ 26 + _ + _ + _ + _ + _ + _).
  assert (L5 : forall y, y .& 31 = y mod 32).
  { intros y. change 31 with (Z.ones 5). now rewrite Z.land_ones by lia. }
  assert (E1 : w >> 26 = 21 /\ (w >> 21) .& 31 = gpr s /\ (w >> 16) .& 31 = gpr d /\
               (w >> 11) .& 31 = sh mod 32 /\ (w >> 6) .& 31 = mb /\ (w >> 1) .& 31 = me).
  { subst w. rewrite !L5, !Z.shiftr_div_pow2 by lia.
    change (2 ^ 26) with 67108864. change (2 ^ 21) with 2097152.
    change (2 ^ 16) with 65536. change (2 ^ 11) with 2048. change (2 ^ 6) with 64.
    change (2 ^ 1) with 2.
    repeat split; Z.div_mod_to_equations; lia. }
  destruct E1 as (E1 & E2 & E3 & E4 & E5 & E6).
  rewrite E1, E2, E3, E4, E5, E6. reflexivity.
Qed.

Lemma rlwinm_computes (setFlags : bool) (d s : GPR) (sh mb me : Z) (rf : RegFile) :
  0 <= sh < 256 -> 0 <= mb < 32 -> 0 <= me < 32 ->
  computes (rlwinm setFlags d s sh mb me) rf d
    (rotl32 (rf (gpr s)) (sh mod 32) .& rlw_mask mb me).
Proof.
  intros Hsh Hmb Hme. exists (rlwinm_word setFlags d s sh mb me).
  split; [now apply rlwinm_word_range|]. split; [now apply rlwinm_single_word|].
  now apply exec_rlwinm.
Qed.

Lemma computes_value (op : M unit) (rf : RegFile) (d : GPR) (v v' : Z) :
  v = v' -> computes op rf d v -> computes op rf d v'.
Proof. now intros ->. Qed.

Lemma tb_u32 (x i : Z) : Z.testbit (u32 x) i = (i <? 32) && Z.testbit x i.
Proof. unfold u32, wrap_u. apply Z.testbit_mod_pow2. lia. Qed.

Lemma tb_shl (x n i : Z) :
  0 <= i -> Z.testbit (x << n) i = (n <=? i) && Z.testbit x (i - n).
Proof.
  intros Hi. rewrite Z.shiftl_spec by assumption.
  destruct (Z.leb_spec n i); [reflexivity|]. apply Z.testbit_neg_r. lia.
Qed.

Lemma tb_high (x i : Z) : 0 <= x < 2 ^ 32 -> 32 <= i -> Z.testbit x i = false.
Proof.
  intros Hx Hi. rewrite <- (Z.mod_small x (2 ^ 32)) by lia.
  apply Z.mod_pow2_bits_high. lia.
Qed.

(** Equality of two words built from [x] with shifts, masks and
    conversions, bit by bit. *)
Ltac bits_step :=
  first
    [ rewrite Z.land_spec | rewrite Z.lor_spec | rewrite tb_u32
    | rewrite Z.shiftr_spec by lia | rewrite tb_shl by lia
    | rewrite Z.testbit_ones_nonneg by lia | rewrite Z.testbit_mod_pow2 by lia
    | match goal with
      | |- context [?a <? ?b] => destruct (Z.ltb_spec a b)
      | |- context [?a <=? ?b] => destruct (Z.leb_spec a b)
      end; cbn [andb orb] ].

Ltac bits x Hx :=
  let i := fresh "i" in
  let Hi := fresh "Hi" in
  apply Z.bits_inj'; intros i Hi;
  repeat bits_step;
  repeat match goal with
         | |- context [Z.testbit x ?j] =>
             first [rewrite (tb_high x j Hx) by lia
                   | rewrite (Z.testbit_neg_r x j) by lia]
         end;
  cbn [andb orb]; rewrite ?andb_false_r, ?orb_false_r, ?andb_true_r;
  try reflexivity; try lia; try (f_equal; lia).

Lemma slwi_value (x n : Z) :
  0 <= x < 2 ^ 32 -> 0 <= n <= 31 ->
  rotl32 x (n mod 32) .& rlw_mask 0 (31 - n) = u32 (x << n).
Proof.
  intros Hx Hn. rewrite Z.mod_small by lia. unfold rotl32, rlw_mask.
  destruct (Z.leb_spec 0 (31 - n)); [|lia]. bits x Hx.
Qed.

Lemma shift_back (n : Z) : 0 <= n <= 31 -> (32 - n) mod 32 = if n =? 0 then 0 else 32 - n.
Proof.
  intros Hn. destruct (Z.eqb_spec n 0) as [->|Hne]; [reflexivity|].
  apply Z.mod_small. lia.
Qed.

Lemma srwi_value (x n : Z) :
  0 <= x < 2 ^ 32 -> 0 <= n <= 31 ->
  rotl32 x ((32 - n) mod 32) .& rlw_mask n 31 = x >> n.
Proof.
  intros Hx Hn. rewrite shift_back by assumption. unfold rotl32, rlw_mask.
  destruct (Z.leb_spec n 31); [|lia].
  destruct (Z.eqb_spec n 0) as [->|Hne]; bits x Hx.
Qed.

Lemma clrlwi_value (x n : Z) :
  0 <= x < 2 ^ 32 -> 0 <= n <= 31 ->
  rotl32 x (0 mod 32) .& rlw_mask n 31 = x mod 2 ^ (32 - n).
Proof.
  intros Hx Hn. change (0 mod 32) with 0. unfold rotl32, rlw_mask.
  destruct (Z.leb_spec n 31); [|lia]. bits x Hx.
Qed.

Lemma clrrwi_value (x n : Z) :
  0 <= x < 2 ^ 32 -> 0 <= n <= 31 ->
  rotl32 x (0 mod 32) .& rlw_mask 0 (31 - n) = (x >> n) << n.
Proof.
  intros Hx Hn. change (0 mod 32) with 0. unfold rotl32, rlw_mask.
  destruct (Z.leb_spec 0 (31 - n)); [|lia]. bits x Hx.
Qed.

Lemma rotlwi_value (x n : Z) :
  0 <= x < 2 ^ 32 -> 0 <= n <= 31 ->
  rotl32 x (n mod 32) .& rlw_mask 0 31 = u32 (x << n) .| (x >> (32 - n)).
Proof.
  intros Hx Hn. rewrite Z.mod_small by lia. unfold rotl32, rlw_mask.
  change (0 <=? 31) with true. cbv iota. bits x Hx.
Qed.

Lemma rotrwi_value (x n : Z) :
  0 <= x < 2 ^ 32 -> 0 <= n <= 31 ->
  rotl32 x ((32 - n) mod 32) .& rlw_mask 0 31 = (x >> n) .| u32 (x << (32 - n)).
Proof.
  intros Hx Hn. rewrite shift_back by assumption. unfold rotl32, rlw_mask.
  change (0 <=? 31) with true. cbv iota.
  destruct (Z.eqb_spec n 0) as [->|Hne]; bits x Hx.
Qed.

Lemma extlwi_value (x n b : Z) :
  0 <= x < 2 ^ 32 -> 1 <= n -> 0 <= b -> b + n <= 32 ->
  rotl32 x (b mod 32) .& rlw_mask 0 (n - 1) = (u32 (x << b) >> (32 - n)) << (32 - n).
Proof.
  intros Hx Hn Hb Hbn. rewrite Z.mod_small by lia. unfold rotl32, rlw_mask.
  destruct (Z.leb_spec 0 (n - 1)); [|lia]. bits x Hx.
Qed.

Lemma extrwi_value (x n b : Z) :
  0 <= x < 2 ^ 32 -> 1 <= n -> 0 <= b -> b + n <= 32 ->
  rotl32 x ((b + n) mod 32) .& rlw_mask (32 - n) 31 = (x >> (32 - b - n)) mod 2 ^ n.
Proof.
  intros Hx Hn Hb Hbn. unfold rotl32, rlw_mask.
  destruct (Z.leb_spec (32 - n) 31); [|lia].
  destruct (Z.eq_dec (b + n) 32) as [E|E].
  - rewrite E. change (32 mod 32) with 0. bits x Hx.
  - rewrite Z.mod_small by lia. bits x Hx.
Qed.

(** The aliases of [rlwinm] compute what their names say.  On a source
    register holding the 32-bit value [x], and for a count [n] from 0 to
    31: [slwi] shifts [x] left by [n] and [srwi] shifts it right;
    [clrlwi] clears the [n] high bits and [clrrwi] the [n] low bits;
    [rotlwi] rotates left and [rotrwi] right by [n]; and for a field of
    [n >= 1] bits that starts [b] bits below the most significant bit,
    [extlwi] moves the field to the top and clears the rest, [extrwi]
    moves it to the bottom and clears the rest.  Each is one word and
    writes the destination register only. *)
Theorem shift_aliases_compute (setFlags : bool) (d s : GPR) (n b : Z) (rf : RegFile) :
  0 <= n <= 31 -> 0 <= b ->
  0 <= rf (gpr s) < 2 ^ 32 ->
  let x := rf (gpr s) in
  computes (slwi setFlags d s n) rf d (u32 (x << n)) /\
  computes (srwi setFlags d s n) rf d (x >> n) /\
  computes (clrlwi setFlags d s n) rf d (x mod 2 ^ (32 - n)) /\
  computes (clrrwi setFlags d s n) rf d ((x >> n) << n) /\
  computes (rotlwi setFlags d s n) rf d (u32 (x << n) .| (x >> (32 - n))) /\
  computes (rotrwi setFlags d s n) rf d ((x >> n) .| u32 (x << (32 - n))) /\
  (1 <= n -> b + n <= 32 ->
   computes (extlwi setFlags d s n b) rf d ((u32 (x << b) >> (32 - n)) << (32 - n)) /\
   computes (extrwi setFlags d s n b) rf d ((x >> (32 - b - n)) mod 2 ^ n)).
Proof.
  intros Hn Hb Hx x.
  assert (En : u8 n = n) by (apply u8_small; lia).
  unfold slwi, srwi, clrlwi, clrrwi, rotlwi, rotrwi, extlwi, extrwi. rewrite En.
  repeat split.
  - eapply computes_value; [|apply rlwinm_computes; lia]. now apply slwi_value.
  - eapply computes_value; [|apply rlwinm_computes; lia]. now apply srwi_value.
  - eapply computes_value; [|apply rlwinm_computes; lia]. now apply clrlwi_value.
  - eapply computes_value; [|apply rlwinm_computes; lia]. now apply clrrwi_value.
  - eapply computes_value; [|apply rlwinm_computes; lia]. now apply rotlwi_value.
  - eapply computes_value; [|apply rlwinm_computes; lia]. now apply rotrwi_value.
  - rewrite (u8_small b) by lia.
    eapply computes_value; [|apply rlwinm_computes; lia]. now apply extlwi_value.
  - rewrite (u8_small b) by lia.
    eapply computes_value; [|apply rlwinm_computes; lia]. now apply extrwi_value.
Qed.

(** ** [setz], executed *)

Lemma clz32_range (x : Z) : 0 <= x < 2 ^ 32 -> 0 <= clz32 x <= 32 /\ (clz32 x = 32 <-> x = 0).
Proof.
  intros Hx. unfold clz32. destruct (Z.eqb_spec x 0) as [->|Hne].
  - split; [lia | tauto].
  - pose proof (Z.log2_nonneg x).
    assert (Z.log2 x < 32) by (apply Z.log2_lt_pow2; lia). lia.
Qed.

Lemma exec_cntlzw (d s : GPR) (rf : RegFile) :
  exec_insn (cntlzw_word d s) rf = Some (set_reg rf (gpr d) (clz32 (rf (gpr s)))).
Proof.
  assert (Hz : 0 <= 0 < 32) by lia. assert (Hf : 0 <= 0 < 2) by lia.
  pose proof (xform_sum 0x7C000034 26 (gpr s) (gpr d) 0 0
                eq_refl ltac:(lia) (gpr_range s) (gpr_range d) Hz Hf) as Es.
  destruct (xform_decode 26 (gpr s) (gpr d) 0 0
              ltac:(lia) (gpr_range s) (gpr_range d) Hz Hf) as (E1 & E2 & E3 & E4 & E5 & _).
  rewrite <- Es in E1, E2, E3, E4, E5. change (0 << 11) with 0 in *.
  rewrite !Z.lor_0_r in *. fold (cntlzw_word d s) in *.
  unfold exec_insn. rewrite E1, E2, E3, E5. reflexivity.
Qed.

(** [setz] is a [cntlzw] followed by a shift right by five; executed on
    a 32-bit source value, the two words leave 1 in the destination if
    the source is zero and 0 otherwise, and change no other register. *)
Theorem setz_tests_zero (d s : GPR) (rf : RegFile) :
  0 <= rf (gpr s) < 2 ^ 32 ->
  let ws := [cntlzw_word d s; rlwinm_word false d d 27 5 31] in
  (forall e, setz d s e = emit_words ws e) /\
  exists rf',
    exec_insns ws rf = Some rf' /\
    rf' (gpr d) = (if rf (gpr s) =? 0 then 1 else 0) /\
    forall r, r <> gpr d -> rf' r = rf r.
Proof.
  intros Hx ws. split.
  - intros e. subst ws. unfold setz, cntlzw, srwi, rlwinm. cbn [emit_words].
    unfold bind, ret, write32, write. reflexivity.
  - subst ws. cbn [exec_insns]. rewrite exec_cntlzw, exec_rlwinm by lia.
    eexists. split; [reflexivity|].
    destruct (clz32_range (rf (gpr s)) Hx) as [Hc Hz]. split.
    + rewrite !set_reg_same.
      change (27 mod 32) with ((32 - 5) mod 32). rewrite srwi_value by lia.
      rewrite Z.shiftr_div_pow2 by lia. change (2 ^ 5) with 32.
      destruct (Z.eqb_spec (rf (gpr s)) 0) as [E0|E0].
      * apply Hz in E0. rewrite E0. reflexivity.
      * apply Z.div_small. assert (clz32 (rf (gpr s)) <> 32) by tauto. lia.
    + intros r Hr. now rewrite !set_reg_other.
Qed.

(** ** The encodings of the loads and stores *)

Lemma mem_base_opcode (m : MemOp) :
  let op := mem_base m / 2 ^ 26 in
  mem_base m = op * 2 ^ 26 /\ 32 <= op < 48.
Proof. destruct m; vm_compute; repeat split; easy. Qed.

Lemma mem_base_inj (m m' : MemOp) : mem_base m = mem_base m' -> m = m'.
Proof. destruct m, m'; intros H; try reflexivity; discriminate H. Qed.

Lemma s16_s16 (x : Z) : s16 (s16 x) = s16 x.
Proof. apply s16_small. apply s16_range. Qed.

Lemma s16_u16 (x : Z) : s16 (u16 x) = s16 x.
Proof. apply (wrap_s_mod 16). Qed.

(** A load or store with an offset that is an [int16_t] is one word
    that decodes to what was encoded: the primary opcode is that of the
    function's constant, the register fields are the two registers, and
    the low halfword, sign extended, is the offset, negative or not; so
    two calls emit the same word only if they are the same call. *)
Theorem mem_words_decode (m : MemOp) (reg base : GPR) (offset : Z) :
  - 32768 <= offset < 32768 ->
  let w := mem_word m reg base (s16 offset) in
  mem_op m reg base offset = write 4 w /\
  0 <= w < 2 ^ 32 /\
  w >> 26 = mem_base m >> 26 /\
  (w >> 21) .& 31 = gpr reg /\
  (w >> 16) .& 31 = gpr base /\
  s16 (w .& 0xFFFF) = offset /\
  (forall m' reg' base' offset',
      - 32768 <= offset' < 32768 ->
      mem_word m' reg' base' (s16 offset') = w ->
      m' = m /\ reg' = reg /\ base' = base /\ offset' = offset).
Proof.
  intros Ho w.
  assert (D : forall m r b o,
             let v := mem_word m r b (s16 o) in
             0 <= v < 2 ^ 32 /\ v >> 26 = mem_base m / 2 ^ 26 /\
             (v >> 21) .& 31 = gpr r /\ (v >> 16) .& 31 = gpr b /\
             v .& 0xFFFF = u16 (s16 o)).
  { intros m0 r b o v. subst v. unfold mem_word.
    destruct (mem_base_opcode m0) as [Eb Hop]. set (op := _ / _) in *. rewrite Eb.
    assert (Hu : 0 <= u16 (s16 o) < 65536) by (apply (wrap_u_range 16); lia).
    destruct (dform_decode op (gpr r) (gpr b) (u16 (s16 o)))
      as (E1 & E2 & E3 & E4); try apply gpr_range; try lia.
    split; [apply dform_range; try apply gpr_range; lia|]. auto. }
  destruct (D m reg base offset) as (Hw & E1 & E2 & E3 & E4). fold w in Hw, E1, E2, E3, E4.
  split; [unfold mem_op; cbv zeta; fold w; apply write32_small; exact Hw|].
  clearbody w.
  split; [exact Hw|].
  split; [rewrite (Z.shiftr_div_pow2 (mem_base m)) by lia; exact E1|].
  split; [exact E2|]. split; [exact E3|].
  split; [rewrite E4, s16_u16, s16_s16; apply s16_small; lia|].
  intros m' reg' base' offset' Ho' Ew.
  destruct (D m' reg' base' offset') as (_ & F1 & F2 & F3 & F4).
  rewrite Ew in F1, F2, F3, F4.
  split.
  { apply mem_base_inj. destruct (mem_base_opcode m) as [-> _].
    destruct (mem_base_opcode m') as [-> _]. congruence. }
  split; [apply gpr_inj; congruence|]. split; [apply gpr_inj; congruence|].
  assert (Es : s16 (u16 (s16 offset')) = s16 (u16 (s16 offset))) by congruence.
  rewrite !s16_u16, !s16_s16, !s16_small in Es by lia. exact Es.
Qed.

End Emitter.


(** * Instances on a 32-bit big-endian host *)

(** The constructor, with the allocator [next_block] on a zeroed memory. *)
Lemma fresh_constructed (bufferSize : Z) :
  0 < bufferSize < 2 ^ 32 -> Z.land bufferSize 3 = 0 ->
  PPCEmitter 32 next_block zero_memory bufferSize = Done tt (fresh bufferSize).
Proof.
  intros H1 H2. unfold PPCEmitter, uptr. rewrite wrap_u_small by lia.
  destruct (Z.eqb_spec bufferSize 0); [lia|]. rewrite H2. reflexivity.
Qed.

(** [slwi (r3, r4, 5)] and [extrwi (r3, r4, 5, 3)]. *)
Lemma rlwinm_aliases_witness :
  0 <= 5 <= 31 /\ 0 <= 3 <= 31 /\
  slwi 32 true FixedSize next_block false r3 r4 5
  = rlwinm 32 true FixedSize next_block false r3 r4 5 0 26 /\
  extrwi 32 true FixedSize next_block false r3 r4 5 3
  = write 32 true FixedSize next_block 4 (rlwinm_word false r3 r4 8 27 31).
Proof.
  assert (Hn : 0 <= 5 <= 31) by lia. assert (Hb : 0 <= 3 <= 31) by lia.
  pose proof (rlwinm_aliases 32 true FixedSize next_block false r3 r4 5 3 Hn Hb) as H.
  cbv zeta in H. unfold alias_of_rlwinm in H.
  destruct H as ((H1 & _) & _ & _ & _ & _ & _ & H2).
  assert (H5 : 1 <= 5) by lia. destruct (H2 H5) as (_ & (_ & H3 & _)).
  split; [exact Hn|]. split; [exact Hb|]. split; [exact H1 | exact H3].
Defined.

(** [liw (r1, 0x12345678)] on a freshly constructed AutoGrow emitter: [lis]
    then [ori]. *)
Lemma liw_loads_value_witness :
  32 <= 32 /\
  0 <= 0x12345678 < 2 ^ 32 /\
  room 32 AutoGrow 8 (fresh (64 * 1024)) /\
  (forall e, liw 32 true AutoGrow next_block r1 0x12345678 e
             = emit_words 32 true AutoGrow next_block [0x3C201234; 0x60215678] e) /\
  (exists e',
      liw 32 true AutoGrow next_block r1 0x12345678 (fresh (64 * 1024)) = Done tt e' /\
      currentPointer e' = 0x100008 /\
      load32 true (mem e') 0x100000 = 0x3C201234 /\
      load32 true (mem e') 0x100004 = 0x60215678) /\
  (forall rf, exists rf',
      exec_words [0x3C201234; 0x60215678] rf = Some rf' /\
      rf' 1 = 0x12345678 /\
      forall r, r <> 1 -> rf' r = rf r).
Proof.
  assert (Hw : 32 <= 32) by discriminate.
  assert (Hv : 0 <= 0x12345678 < 2 ^ 32) by (split; [discriminate | reflexivity]).
  assert (Hr : room 32 AutoGrow 8 (fresh (64 * 1024))).
  { right. cbn. repeat split; discriminate || reflexivity. }
  split; [exact Hw|]. split; [exact Hv|]. split; [exact Hr|].
  destruct (liw_loads_value 32 true AutoGrow next_block Hw r1 0x12345678 Hv)
    as (H1 & H2 & H3).
  split; [exact H1|]. split; [|exact H3].
  destruct (H2 (fresh (64 * 1024)) Hr) as (e' & E & Hc & Hl).
  exists e'. split; [exact E|]. split; [exact Hc|].
  split; [exact (Hl 0%nat (le_S 1 1 (le_n 1))) | exact (Hl 1%nat (le_n 2))].
Defined.

(** A Branch14 token resolved eight bytes ahead, and an unaligned one. *)
Lemma setLabel_cases_witness :
  32 <= 32 /\
  patches true (sample 8 64) 0x1000 8
    (setLabel 32 true (0x1000, Branch14) 0x1008 (sample 8 64)) /\
  setLabel 32 true (0x1002, Branch24) 0x1008 (sample 8 64)
  = Panic UnalignedBranchDisplacement.
Proof.
  assert (Hw : 32 <= 32) by discriminate. split; [exact Hw|].
  split.
  - destruct (setLabel_cases 32 true Hw 0x1000 0x1008 Branch14 (sample 8 64))
      as (_ & _ & H & _).
    apply H; [reflexivity | split; discriminate].
  - destruct (setLabel_cases 32 true Hw 0x1002 0x1008 Branch24 (sample 8 64))
      as (_ & H & _).
    apply H. discriminate.
Defined.

(** [X], an operation applied to a concrete emitter, returns, and the
    emitter it returns is [result X d]. *)
Ltac returns X :=
  let E := fresh "E" in
  match goal with
  | |- _ = Done tt (result X ?d) => change (X = Done tt (result X d))
  end;
  destruct X as [[] ?|?] eqn:E; [reflexivity | discriminate E].

(** Resolving the same Branch14 token twice. *)
Lemma setLabel_idempotent_witness :
  exists e1,
    setLabel 32 true (0x1000, Branch14) 0x1008 (sample 8 64) = Done tt e1 /\
    exists e2,
      setLabel 32 true (0x1000, Branch14) 0x1008 e1 = Done tt e2 /\
      load32 true (mem e2) 0x1000 = load32 true (mem e1) 0x1000 /\
      same_emitter e1 e2.
Proof.
  set (X := setLabel 32 true (0x1000, Branch14) 0x1008 (sample 8 64)).
  assert (HX : X = Done tt (result X (sample 8 64))) by returns X.
  exists (result X (sample 8 64)). split; [exact HX|].
  exact (setLabel_idempotent 32 true (0x1000, Branch14) 0x1008 (sample 8 64) _ HX).
Defined.

(** The forward scenario on a freshly constructed AutoGrow emitter. *)
Lemma branch_resolution_witness :
  32 <= 32 /\
  room 32 AutoGrow 8 (fresh (64 * 1024)) /\
  exists e',
    forward_branch 32 true AutoGrow next_block (fresh (64 * 1024)) = Done tt e' /\
    load32 true (mem e') 0x100000 = 0x40820008 /\
    load32 true (mem e') 0x100004 = 0x60000000 /\
    currentPointer e' = 0x100008 /\
    code e' = 0x100000.
Proof.
  assert (Hw : 32 <= 32) by discriminate.
  assert (Hr : room 32 AutoGrow 8 (fresh (64 * 1024))).
  { right. cbn. repeat split; discriminate || reflexivity. }
  split; [exact Hw|]. split; [exact Hr|].
  destruct (branch_resolution 32 true AutoGrow next_block Hw Branch14 0 0 (fresh (64 * 1024)))
    as (_ & _ & _ & _ & H & _).
  exact (H Hr).
Defined.

(** [db (7); align (4); liw (r3, 0x12345678)] on a FixedSize emitter. *)
Lemma fixed_buffer_stable_witness :
  FixedSize = FixedSize /\
  exists e',
    run_all 32 true FixedSize next_block
      (Ocons (Odb 7) (Ocons (Oalign 4) (Ocons (Oliw r3 0x12345678) Onil)))
      (fresh 64)
    = Done tt e' /\
    code e' = code (fresh 64) /\
    reservedSize e' = reservedSize (fresh 64) /\
    used (fresh 64) <= used e'.
Proof.
  split; [reflexivity|].
  set (X := run_all _ _ _ _ _ _).
  assert (HX : X = Done tt (result X (fresh 64))) by returns X.
  exists (result X (fresh 64)). split; [exact HX|].
  destruct (fixed_buffer_stable 32 true FixedSize next_block _ _ _ eq_refl HX)
    as (H1 & H2 & H3 & _).
  split; [exact H1|]. split; [exact H2 | exact H3].
Defined.

(** A word appended to a FixedSize emitter whose buffer is full. *)
Lemma fixed_append_unchecked_witness :
  FixedSize = FixedSize /\
  exists e',
    write 32 true FixedSize next_block 4 0x60000000 (sample 4 4) = Done tt e' /\
    load true 4 (mem e') 0x1004 = 0x60000000 /\
    currentPointer e' = 0x1008 /\
    reservedSize e' = 4.
Proof.
  split; [reflexivity|].
  destruct (fixed_append_unchecked 32 true FixedSize next_block 4 0x60000000
              (sample 4 4) eq_refl) as (e' & E & Hl & _ & Hc & _ & Hr).
  exists e'. split; [exact E|]. split; [exact Hl|]. split; [exact Hc | exact Hr].
Defined.

(** C6, as stated, fails: a FixedSize emitter whose 4-byte buffer is
    full appends a word past the reserved size and returns normally. *)
Lemma fixed_overflow_not_fatal :
  used (sample 4 4) + 4 > reservedSize (sample 4 4) /\
  exists e',
    write32 32 true FixedSize next_block 0x60000000 (sample 4 4) = Done tt e' /\
    load32 true (mem e') 0x1004 = 0x60000000 /\
    used e' = 8 /\ reservedSize e' = 4.
Proof.
  split; [reflexivity|].
  set (X := write32 _ _ _ _ _ _).
  exists (result X (sample 4 4)). split; [returns X|].
  repeat split; vm_compute; reflexivity.
Qed.

(** C2 on [PPCEmitter <AutoGrow> gen (4); gen.bne ();]. The append
    reallocates: the branch word [0x40820000] is written at the start of
    the new buffer, [0x200000], and the token returned holds the cursor
    of before the append, [0x100000], in the old buffer, where no branch
    word is. *)
Theorem branch_token_stale :
  PPCEmitter 32 next_block zero_memory 4 = Done tt (fresh 4) /\
  exists e',
    bne 32 true AutoGrow next_block (fresh 4) = Done (0x100000, Branch14) e' /\
    code e' = 0x200000 /\
    currentPointer e' = 0x200004 /\
    load32 true (mem e') 0x200000 = 0x40820000 /\
    load32 true (mem e') 0x100000 = 0.
Proof.
  split; [reflexivity|].
  set (X := bne _ _ _ _ _).
  exists (result X (fresh 4)). split.
  - destruct X as [l e'|f] eqn:E; [|discriminate E]. cbn [result]. f_equal.
    apply (f_equal (fun o => match o with Done a _ => a | Panic _ => (0, Branch24) end)) in E.
    vm_compute in E. symmetry. exact E.
  - repeat split; vm_compute; reflexivity.
Qed.

(** C5 on [PPCEmitter <FixedSize> gen; gen.db (7); gen.align (4);].
    The cursor is one byte past a word boundary; [align (4)] appends one
    zero byte, as many as the remainder, and leaves the cursor two bytes
    past the boundary. *)
Theorem align_misses_boundary :
  PPCEmitter 32 next_block zero_memory (64 * 1024) = Done tt (fresh (64 * 1024)) /\
  exists e1 e2,
    db 32 true FixedSize next_block 7 (fresh (64 * 1024)) = Done tt e1 /\
    currentPointer e1 mod 4 = 1 /\
    align 32 true FixedSize next_block 4 e1 = Done tt e2 /\
    currentPointer e2 = currentPointer e1 + 1 /\
    mem e2 (currentPointer e1) = x00 /\
    currentPointer e2 mod 4 = 2.
Proof.
  split; [reflexivity|].
  set (X1 := db _ _ _ _ _ _).
  set (X2 := align 32 true FixedSize next_block 4 (result X1 (fresh 0))).
  exists (result X1 (fresh 0)), (result X2 (fresh 0)).
  split; [returns X1|]. split; [vm_compute; reflexivity|].
  split; [returns X2|].
  repeat split; vm_compute; reflexivity.
Qed.

(** C7 on [PPCEmitter <AutoGrow> gen (8); gen.nop (); gen.nop ();]. The
    second [nop] exactly fills the 8-byte buffer, it does not push the
    cursor past the reserved end, and the buffer is grown all the same:
    the test of [write] is [>=]. *)
Theorem grow_on_exact_fill :
  PPCEmitter 32 next_block zero_memory 8 = Done tt (fresh 8) /\
  exists e1 e2,
    nop 32 true AutoGrow next_block (fresh 8) = Done tt e1 /\
    code e1 = 0x100000 /\
    used e1 + 4 = reservedSize e1 /\
    grows 32 4 e1 = true /\
    nop 32 true AutoGrow next_block e1 = Done tt e2 /\
    code e2 = 0x200000 /\
    reservedSize e2 = 8 + 64 * 1024 /\
    used e2 = 8.
Proof.
  split; [reflexivity|].
  set (X1 := nop 32 true AutoGrow next_block (fresh 8)).
  set (X2 := nop 32 true AutoGrow next_block (result X1 (fresh 0))).
  exists (result X1 (fresh 0)), (result X2 (fresh 0)).
  split; [returns X1|].
  split; [vm_compute; reflexivity|]. split; [vm_compute; reflexivity|].
  split; [vm_compute; reflexivity|]. split; [returns X2|].
  repeat split; vm_compute; reflexivity.
Qed.

(** C8 on [PPCEmitter <AutoGrow> gen (8); L = gen.bne (); gen.nop ();
    gen.setLabel (L);] and on [P = gen.getCurr (); gen.nop ();
    L = gen.bne (); gen.setLabel (L, P);].  The second append fills the
    8-byte buffer exactly and reallocates.  In the forward sequence the
    token still holds the address of the branch in the old buffer while
    the target is the cursor in the new one: with the new array 1 MiB
    away the displacement is out of range and [setLabel] is fatal; with
    the new array 16 bytes away [setLabel] patches the released word,
    and the buffer in use holds [0x40820000], an unresolved branch,
    where the claim has [0x40820008].  In the backward sequence the
    branch word goes to the new buffer and the token holds the old
    cursor: the buffer in use holds [0x40820000] where the claim has
    [0x4082FFFC], and the patch lands in the released buffer. *)
Theorem branch_unresolved_after_grow :
  PPCEmitter 32 next_block zero_memory 8 = Done tt (fresh 8) /\
  PPCEmitter 32 near_block zero_memory 8 = Done tt (fresh 8) /\
  forward_branch 32 true AutoGrow next_block (fresh 8) = Panic (InvalidLabel14 262146) /\
  (exists e',
      forward_branch 32 true AutoGrow near_block (fresh 8) = Done tt e' /\
      code e' = 0x100010 /\
      currentPointer e' = 0x100018 /\
      load32 true (mem e') 0x100010 = 0x40820000 /\
      load32 true (mem e') 0x100014 = 0x60000000 /\
      load32 true (mem e') 0x100000 = 0x40820018) /\
  (exists e',
      backward_branch 32 true AutoGrow next_block (fresh 8) = Done tt e' /\
      code e' = 0x200000 /\
      currentPointer e' = 0x200008 /\
      load32 true (mem e') 0x200000 = 0x60000000 /\
      load32 true (mem e') 0x200004 = 0x40820000 /\
      load32 true (mem e') 0x100004 = 0x0000FFFC).
Proof.
  split; [reflexivity|]. split; [reflexivity|]. split; [|split].
  - set (X := forward_branch 32 true AutoGrow next_block (fresh 8)).
    assert (F : match X with Done _ _ => None | Panic f => Some f end
                = Some (InvalidLabel14 262146)) by (vm_compute; reflexivity).
    destruct X as [u e'|f]; [discriminate F | injection F as ->; reflexivity].
  - set (X := forward_branch 32 true AutoGrow near_block (fresh 8)).
    exists (result X (fresh 0)). split; [returns X|].
    repeat split; vm_compute; reflexivity.
  - set (X := backward_branch 32 true AutoGrow next_block (fresh 8)).
    exists (result X (fresh 0)). split; [returns X|].
    repeat split; vm_compute; reflexivity.
Qed.

(** * Instances of the further properties *)

(** Two words appended to a 4-byte AutoGrow emitter: the first append
    moves the buffer. *)
Lemma autogrow_keeps_data_witness :
  32 <= 32 /\ AutoGrow = AutoGrow /\
  PPCEmitter 32 other_block zero_memory 4 = Done tt (fresh 4) /\
  (forall e k, 0 < other_block e k /\ other_block e k + 8 < 2 ^ 32) /\
  exists e',
    dw_array 32 true AutoGrow other_block [0x60000000; 0x4E800020] (fresh 4) = Done tt e' /\
    used e' = 8 /\
    used e' <= reservedSize e' /\
    load true 4 (mem e') (code e') = 0x60000000 /\
    load true 4 (mem e') (code e' + 4) = 0x4E800020.
Proof.
  assert (Hw : 32 <= 32) by discriminate.
  assert (Hc : PPCEmitter 32 other_block zero_memory 4 = Done tt (fresh 4)) by reflexivity.
  assert (Ha : forall e k, 0 < other_block e k /\
                           other_block e k + Z.of_nat 4 * Z.of_nat 2 < 2 ^ 32).
  { intros e k. unfold other_block. destruct (code e =? 0x100000); split; reflexivity. }
  split; [exact Hw|]. split; [reflexivity|]. split; [exact Hc|]. split; [exact Ha|].
  destruct (autogrow_keeps_data 32 true AutoGrow other_block Hw zero_memory 4 4
              [0x60000000; 0x4E800020] (fresh 4) eq_refl Hc
              ltac:(discriminate) eq_refl Ha) as (e' & E & Hu & Hin & Hl).
  exists e'. split; [exact E|]. split; [exact Hu|]. split; [exact Hin|].
  split.
  - rewrite <- (Z.add_0_r (code e')). exact (Hl 0%nat (le_S 1 1 (le_n 1))).
  - exact (Hl 1%nat (le_n 2)).
Defined.

(** The second word of an 8-byte AutoGrow buffer. *)
Lemma autogrow_in_bounds_witness :
  32 <= 32 /\ AutoGrow = AutoGrow /\
  0 <= used (sample 4 8) <= reservedSize (sample 4 8) /\
  4 <= autoGrowSize (sample 4 8) /\
  alloc_fits 32 next_block (sample 4 8) /\
  exists e',
    write 32 true AutoGrow next_block 4 0x60000000 (sample 4 8) = Done tt e' /\
    used e' = 8 /\
    0 <= used e' <= reservedSize e'.
Proof.
  assert (Hw : 32 <= 32) by discriminate.
  assert (Hu : 0 <= used (sample 4 8) <= reservedSize (sample 4 8))
    by (split; discriminate).
  assert (Hs : Z.of_nat 4 <= autoGrowSize (sample 4 8)) by discriminate.
  assert (Hr : reservedSize (sample 4 8) + autoGrowSize (sample 4 8) < 2 ^ 32)
    by reflexivity.
  assert (Ha : alloc_fits 32 next_block (sample 4 8)) by (split; [discriminate | reflexivity]).
  split; [exact Hw|]. split; [reflexivity|]. split; [exact Hu|]. split; [exact Hs|].
  split; [exact Ha|].
  destruct (autogrow_in_bounds 32 true AutoGrow next_block Hw 4 0x60000000 (sample 4 8)
              eq_refl Hu Hs Hr Ha) as (e' & E & Hu' & Hb & _).
  exists e'. split; [exact E|]. split; [exact Hu' | exact Hb].
Defined.

(** A grow step of zero, then a word appended to a full buffer. *)
Lemma zero_step_overflows_witness :
  32 <= 32 /\ AutoGrow = AutoGrow /\
  reservedSize (sample 8 8) < used (sample 8 8) + 4 /\
  alloc_fits 32 next_block (with_step 0 (sample 8 8)) /\
  exists e',
    bind (setAutoGrowSize 32 0) (fun _ => write 32 true AutoGrow next_block 4 0x60000000)
      (sample 8 8) = Done tt e' /\
    reservedSize e' = 8 /\
    used e' = 12.
Proof.
  assert (Hw : 32 <= 32) by discriminate.
  assert (H1 : 0 <= used (sample 8 8)) by discriminate.
  assert (H2 : 0 <= reservedSize (sample 8 8)) by discriminate.
  assert (H3 : reservedSize (sample 8 8) < used (sample 8 8) + Z.of_nat 4) by reflexivity.
  assert (H4 : used (sample 8 8) + Z.of_nat 4 < 2 ^ 32) by reflexivity.
  assert (Ha : alloc_fits 32 next_block (with_step 0 (sample 8 8)))
    by (split; [discriminate | reflexivity]).
  split; [exact Hw|]. split; [reflexivity|]. split; [exact H3|]. split; [exact Ha|].
  destruct (zero_step_overflows 32 true AutoGrow next_block Hw 4 0x60000000 (sample 8 8)
              eq_refl H1 H2 H3 H4 Ha) as (e' & E & Hr & Hu & _).
  exists e'. split; [exact E|]. split; [exact Hr | exact Hu].
Defined.

(** [db (7); nop ()] on a 4-byte AutoGrow emitter, which reallocates. *)
Lemma sizes_stay_aligned_witness :
  32 <= 32 /\
  aligned_sizes (fresh 4) /\
  exists e',
    run_all 32 true AutoGrow next_block (Ocons (Odb 7) (Ocons Onop Onil)) (fresh 4)
    = Done tt e' /\
    aligned_sizes e'.
Proof.
  assert (Hw : 32 <= 32) by discriminate.
  assert (Ha : aligned_sizes (fresh 4)) by (split; reflexivity).
  split; [exact Hw|]. split; [exact Ha|].
  set (X := run_all _ _ _ _ _ _).
  assert (HX : X = Done tt (result X (fresh 4))) by returns X.
  exists (result X (fresh 4)). split; [exact HX|].
  destruct (sizes_stay_aligned 32 true AutoGrow next_block Hw
              (Ocons (Odb 7) (Ocons Onop Onil))) as (_ & H & _).
  destruct (H (fresh 4) (result X (fresh 4)) Ha) as (_ & _ & H3).
  exact (H3 HX).
Defined.

(** [db (7); liw (r3, 0x12345678)] after four bytes already emitted. *)
Lemma emitted_bytes_stay_witness :
  32 <= 32 /\ FixedSize = FixedSize /\
  exists e',
    run_all 32 true FixedSize next_block
      (Ocons (Odb 7) (Ocons (Oliw r3 0x12345678) Onil)) (sample 4 64)
    = Done tt e' /\
    currentPointer (sample 4 64) <= currentPointer e' /\
    forall x, x < currentPointer (sample 4 64) -> mem e' x = mem (sample 4 64) x.
Proof.
  assert (Hw : 32 <= 32) by discriminate.
  split; [exact Hw|]. split; [reflexivity|].
  set (X := run_all _ _ _ _ _ _).
  assert (HX : X = Done tt (result X (sample 4 64))) by returns X.
  exists (result X (sample 4 64)). split; [exact HX|].
  exact (emitted_bytes_stay 32 true FixedSize next_block Hw
           (Ocons (Odb 7) (Ocons (Oliw r3 0x12345678) Onil)) _ _ eq_refl eq_refl HX).
Defined.

(** [L = bne (); nop (); nop (); setLabel (L)]: twelve bytes forward. *)
Lemma branch_over_code_witness :
  32 <= 32 /\ FixedSize = FixedSize /\
  exists e',
    bind (bcx 32 true FixedSize next_block Cond.Ne false)
      (fun L => bind (run_all 32 true FixedSize next_block (Ocons Onop (Ocons Onop Onil)))
                  (fun _ => setLabel_here 32 true L))
      (sample 0 64) = Done tt e' /\
    load32 true (mem e') 0x1000 = 0x4082000C /\
    branch_disp Branch14 (load32 true (mem e') 0x1000) = 12 /\
    branch_aa (load32 true (mem e') 0x1000) = false.
Proof.
  assert (Hw : 32 <= 32) by discriminate.
  split; [exact Hw|]. split; [reflexivity|].
  set (X := run_all 32 true FixedSize next_block (Ocons Onop (Ocons Onop Onil))
              (appended true 4 (bcx_word Cond.Ne false) (sample 0 64))).
  assert (HX : X = Done tt (result X (sample 0 64))) by returns X.
  assert (Ed : currentPointer (result X (sample 0 64)) - currentPointer (sample 0 64) = 12)
    by (vm_compute; reflexivity).
  pose proof (branch_over_code 32 true FixedSize next_block Hw Cond.Ne false
                (Ocons Onop (Ocons Onop Onil)) (sample 0 64) (result X (sample 0 64))
                eq_refl eq_refl HX) as H.
  cbv zeta in H. rewrite Ed in H.
  destruct (H eq_refl ltac:(discriminate)) as (e' & E & H1 & H2 & H3 & _).
  exists e'. split; [exact E|]. split; [exact H1|]. split; [exact H2 | exact H3].
Defined.

(** [dh (arr, 2)] for the halfwords [0x1234] and [0x5678]. *)
Lemma write_array_layout_witness :
  32 <= 32 /\
  room 32 FixedSize 4 (fresh 64) /\
  exists e',
    dh_array 32 true FixedSize next_block [0x1234; 0x5678] (fresh 64) = Done tt e' /\
    currentPointer e' = 0x100004 /\
    load true 2 (mem e') 0x100002 = 0x5678.
Proof.
  assert (Hw : 32 <= 32) by discriminate.
  assert (Hr : room 32 FixedSize 4 (fresh 64)) by (left; reflexivity).
  split; [exact Hw|]. split; [exact Hr|].
  destruct (write_array_layout 32 true FixedSize next_block Hw [0x1234; 0x5678] (fresh 64))
    as (_ & H & _).
  destruct (H Hr) as (e' & E & Hc & Hl & _).
  exists e'. split; [exact E|]. split; [exact Hc|]. exact (Hl 1%nat (le_n 2)).
Defined.

(** [ds] of the characters 'H', 'i', NUL, '!'. *)
Lemma ds_layout_witness :
  32 <= 32 /\
  room 32 FixedSize 3 (fresh 64) /\
  exists e',
    ds 32 true FixedSize next_block [72; 105; 0; 33] (fresh 64) = Done tt e' /\
    currentPointer e' = 0x100003 /\
    load true 1 (mem e') 0x100001 = 105 /\
    load true 1 (mem e') 0x100002 = 0.
Proof.
  assert (Hw : 32 <= 32) by discriminate.
  assert (Hr : room 32 FixedSize 3 (fresh 64)) by (left; reflexivity).
  split; [exact Hw|]. split; [exact Hr|].
  destruct (ds_layout 32 true FixedSize next_block Hw [72; 105; 0; 33] (fresh 64))
    as (_ & H).
  destruct (H Hr) as (e' & E & Hc & Hl & Hz & _).
  exists e'. split; [exact E|]. split; [exact Hc|].
  split; [exact (proj1 (Hl 1%nat (le_n 2))) | exact Hz].
Defined.


(** [loop (r3, 10, nop)]: the [bne] leads eight bytes back. *)
Lemma loop_layout_witness :
  32 <= 32 /\ FixedSize = FixedSize /\
  loop 32 true FixedSize next_block r3 0 (nop 32 true FixedSize next_block) (sample 0 64)
  = Done tt (sample 0 64) /\
  exists e',
    loop 32 true FixedSize next_block r3 10 (nop 32 true FixedSize next_block) (sample 0 64)
    = Done tt e' /\
    currentPointer e' = 0x1010 /\
    branch_disp Branch14 (load32 true (mem e') 0x100C) = -8 /\
    branch_aa (load32 true (mem e') 0x100C) = false.
Proof.
  assert (Hw : 32 <= 32) by discriminate.
  split; [exact Hw|]. split; [reflexivity|].
  split.
  { exact (proj1 (loop_layout 32 true FixedSize next_block Hw r3 0
                    (nop 32 true FixedSize next_block) (sample 0 64)) eq_refl). }
  set (X1 := liw 32 true FixedSize next_block r3 (uptr 32 10) (sample 0 64)).
  assert (HX1 : X1 = Done tt (result X1 (sample 0 64))) by returns X1.
  set (X2 := nop 32 true FixedSize next_block (result X1 (sample 0 64))).
  assert (HX2 : X2 = Done tt (result X2 (sample 0 64))) by returns X2.
  assert (E1 : currentPointer (result X1 (sample 0 64)) = 0x1004) by (vm_compute; reflexivity).
  assert (E2 : currentPointer (result X2 (sample 0 64)) = 0x1008) by (vm_compute; reflexivity).
  pose proof (proj2 (loop_layout 32 true FixedSize next_block Hw r3 10
                       (nop 32 true FixedSize next_block) (sample 0 64))
                eq_refl ltac:(discriminate) _ _ HX1 HX2) as H.
  cbv zeta in H. rewrite E1, E2 in H.
  destruct (H ltac:(discriminate) eq_refl ltac:(discriminate))
    as (e' & E & Hc & _ & Hd & Ha & _).
  exists e'. split; [exact E|]. split; [exact Hc|]. split; [exact Hd | exact Ha].
Defined.

(** A Branch14 token resolved to one target and then to another. *)
Lemma setLabel_last_wins_witness :
  exists e1 e2,
    setLabel 32 true (0x1000, Branch14) 0x1008 (sample 8 64) = Done tt e1 /\
    setLabel 32 true (0x1000, Branch14) 0x1010 (sample 8 64) = Done tt e2 /\
    exists e12,
      setLabel 32 true (0x1000, Branch14) 0x1010 e1 = Done tt e12 /\
      same_emitter e2 e12.
Proof.
  set (X1 := setLabel 32 true (0x1000, Branch14) 0x1008 (sample 8 64)).
  set (X2 := setLabel 32 true (0x1000, Branch14) 0x1010 (sample 8 64)).
  assert (HX1 : X1 = Done tt (result X1 (sample 8 64))) by returns X1.
  assert (HX2 : X2 = Done tt (result X2 (sample 8 64))) by returns X2.
  exists (result X1 (sample 8 64)), (result X2 (sample 8 64)).
  split; [exact HX1|]. split; [exact HX2|].
  exact (setLabel_last_wins 32 true (0x1000, Branch14) 0x1008 0x1010 (sample 8 64) _ _ HX1 HX2).
Defined.

(** The bits outside the patch mask of a resolved Branch24 token. *)
Lemma setLabel_keeps_opcode_witness :
  32 <= 32 /\
  exists e1,
    setLabel 32 true (0x1000, Branch24) 0x1008 (sample 8 64) = Done tt e1 /\
    Z.land (load32 true (mem e1) 0x1000) (Z.lnot 0x3FFFFFE)
    = Z.land (load32 true (mem (sample 8 64)) 0x1000) (Z.lnot 0x3FFFFFE).
Proof.
  assert (Hw : 32 <= 32) by discriminate. split; [exact Hw|].
  set (X1 := setLabel 32 true (0x1000, Branch24) 0x1008 (sample 8 64)).
  assert (HX1 : X1 = Done tt (result X1 (sample 8 64))) by returns X1.
  exists (result X1 (sample 8 64)). split; [exact HX1|].
  exact (setLabel_keeps_opcode 32 true Hw 0x1000 0x1008 Branch24 (sample 8 64) _ HX1).
Defined.

(** A Branch14 token at [0x100000] resolved to the address [0x100]. *)
Lemma setLabel_absolute_decodes_witness :
  32 <= 32 /\
  Z.land (label_disp 32 0x100000 0x100) 3 = 0 /\
  ~ disp_min Branch14 <= label_disp 32 0x100000 0x100 <= disp_max Branch14 /\
  disp_min Branch14 <= iptr 32 0x100 <= disp_max Branch14 /\
  exists e',
    setLabel 32 true (0x100000, Branch14) 0x100 (fresh 64) = Done tt e' /\
    branch_aa (load32 true (mem e') 0x100000) = true /\
    branch_disp Branch14 (load32 true (mem e') 0x100000) = 0x100.
Proof.
  assert (Hw : 32 <= 32) by discriminate.
  assert (Ha : Z.land (label_disp 32 0x100000 0x100) 3 = 0) by reflexivity.
  assert (Hd : ~ disp_min Branch14 <= label_disp 32 0x100000 0x100 <= disp_max Branch14).
  { intros [H _]. apply H. reflexivity. }
  assert (Hr : disp_min Branch14 <= iptr 32 0x100 <= disp_max Branch14)
    by (split; discriminate).
  split; [exact Hw|]. split; [exact Ha|]. split; [exact Hd|]. split; [exact Hr|].
  destruct (setLabel_absolute_decodes 32 true Hw Branch14 0x100000 0x100 (fresh 64)
              Ha Hd Hr eq_refl) as (e' & E & H1 & H2).
  exists e'. split; [exact E|]. split; [exact H1 | exact H2].
Defined.

(** [b (address)] sixteen bytes ahead of an aligned cursor. *)
Lemma bx_addr_as_label_witness :
  32 <= 32 /\
  room 32 FixedSize 4 (fresh 64) /\
  Z.land (currentPointer (fresh 64)) 3 = 0 /\
  match bx_addr 32 true FixedSize next_block false 0x100010 (fresh 64),
        bind (bx 32 true FixedSize next_block false)
          (fun L => setLabel 32 true L 0x100010) (fresh 64) with
  | Done _ e1, Done _ e2 => same_emitter e1 e2
  | Panic f1, Panic f2 => f1 = f2
  | _, _ => False
  end.
Proof.
  assert (Hw : 32 <= 32) by discriminate.
  assert (Hr : room 32 FixedSize 4 (fresh 64)) by (left; reflexivity).
  assert (Hc : 0 <= currentPointer (fresh 64) < 2 ^ 32)
    by (split; [discriminate | reflexivity]).
  split; [exact Hw|]. split; [exact Hr|]. split; [reflexivity|].
  exact (bx_addr_as_label 32 true FixedSize next_block Hw false 0x100010 (fresh 64)
           Hr Hc eq_refl).
Defined.

(** [mullwo] and [divw] on the same operands, and [add] against [addo]. *)
Lemma arith3_words_distinct_witness :
  arith3_word Mullwo true r3 r4 r5 = arith3_word Divw true r3 r4 r5 /\
  arith3_word Add false r3 r4 r5 <> arith3_word Addo false r3 r4 r5.
Proof.
  split.
  - apply (proj2 (arith3_words_distinct Mullwo Divw true true r3 r4 r5 r3 r4 r5)).
    repeat split. right. left. split; reflexivity.
  - intros H.
    apply (proj1 (arith3_words_distinct Add Addo false false r3 r4 r5 r3 r4 r5)) in H.
    destruct H as (_ & _ & _ & _ & [H|[[H _]|[H _]]]); discriminate H.
Defined.

(** The 16-bit pattern [0xFFFF] is minus one. *)
Lemma signExtend32_extends_witness :
  1 <= 16 <= 32 /\ signExtend32 0xFFFF 16 = 0xFFFFFFFF.
Proof.
  assert (H : 1 <= 16 <= 32) by (split; discriminate).
  split; [exact H|]. exact (signExtend32_extends 0xFFFF 16 H).
Defined.

(** [liu (r3, 0x9000)]: an [addi] of zero and an [ori]. *)
Lemma liu_loads_unsigned_witness :
  exists rf',
    exec_words [addi_word r3 r0 0; ori_word r3 r3 0x9000] (fun _ => 7) = Some rf' /\
    rf' 3 = 0x9000 /\ rf' 4 = 7.
Proof.
  destruct (liu_loads_unsigned 32 true FixedSize next_block r3 0x9000) as (_ & H).
  destruct (H (fun _ => 7)) as (rf' & E & H1 & H2).
  exists rf'. split; [exact E|]. split; [exact H1|].
  apply (H2 4). discriminate.
Defined.

(** [li (r3, -2)] and [lis (r3, 0x1234)]. *)
Lemma li_lis_load_witness :
  (exists rf',
      exec_words [addi_word r3 r0 (-2)] (fun _ => 7) = Some rf' /\
      rf' 3 = 0xFFFFFFFE /\ rf' 4 = 7) /\
  (exists rf',
      exec_words [addis_word r3 r0 0x1234] (fun _ => 7) = Some rf' /\
      rf' 3 = 0x12340000 /\ rf' 4 = 7).
Proof.
  split.
  - destruct (li_lis_load 32 true FixedSize next_block r3 (-2)) as (_ & _ & H & _).
    destruct (H (fun _ => 7)) as (rf' & E & H1 & H2).
    exists rf'. split; [exact E|]. split; [exact H1|]. apply (H2 4). discriminate.
  - destruct (li_lis_load 32 true FixedSize next_block r3 0x1234) as (_ & _ & _ & H).
    destruct (H (fun _ => 7)) as (rf' & E & H1 & H2).
    exists rf'. split; [exact E|]. split; [exact H1|]. apply (H2 4). discriminate.
Defined.

(** [mr (r3, r4)] and [sub (r3, r4, r5)] on registers that hold their
    own number. *)
Lemma moves_and_differences_witness :
  computes 32 true FixedSize next_block
    (mr 32 true FixedSize next_block false r3 r4) (fun r => r) r3 4 /\
  computes 32 true FixedSize next_block
    (sub 32 true FixedSize next_block false r3 r4 r5) (fun r => r) r3 0xFFFFFFFF.
Proof.
  destruct (moves_and_differences 32 true FixedSize next_block false r3 r4 r5 (fun r => r))
    as (H1 & H2 & _).
  split; [exact H1 | exact H2].
Defined.

(** [slwi (r3, r4, 5)] and [extrwi (r3, r4, 8, 4)] on [0x12345678]. *)
Lemma shift_aliases_compute_witness :
  0 <= 8 <= 31 /\ 4 + 8 <= 32 /\
  computes 32 true FixedSize next_block
    (slwi 32 true FixedSize next_block false r3 r4 8) (fun _ => 0x12345678) r3 0x34567800 /\
  computes 32 true FixedSize next_block
    (srwi 32 true FixedSize next_block false r3 r4 8) (fun _ => 0x12345678) r3 0x123456 /\
  computes 32 true FixedSize next_block
    (extrwi 32 true FixedSize next_block false r3 r4 8 4) (fun _ => 0x12345678) r3 0x23.
Proof.
  assert (Hn : 0 <= 8 <= 31) by (split; discriminate).
  assert (Hb : 0 <= 4) by discriminate.
  assert (Hx : 0 <= (fun _ : Z => 0x12345678) (gpr r4) < 2 ^ 32)
    by (split; [discriminate | reflexivity]).
  split; [exact Hn|]. split; [discriminate|].
  destruct (shift_aliases_compute 32 true FixedSize next_block false r3 r4 8 4
              (fun _ => 0x12345678) Hn Hb Hx) as (H1 & H2 & _ & _ & _ & _ & H7).
  split; [exact H1|]. split; [exact H2|].
  exact (proj2 (H7 ltac:(discriminate) ltac:(discriminate))).
Defined.

(** [setz (r3, r4)] with zero in every register. *)
Lemma setz_tests_zero_witness :
  exists rf',
    exec_insns [cntlzw_word r3 r4; rlwinm_word false r3 r3 27 5 31] (fun _ => 0) = Some rf' /\
    rf' 3 = 1 /\ rf' 4 = 0.
Proof.
  assert (Hx : 0 <= (fun _ : Z => 0) (gpr r4) < 2 ^ 32)
    by (split; [discriminate | reflexivity]).
  destruct (setz_tests_zero 32 true FixedSize next_block r3 r4 (fun _ => 0) Hx)
    as (_ & rf' & E & H1 & H2).
  exists rf'. split; [exact E|]. split; [exact H1|]. apply (H2 4). discriminate.
Defined.

(** [stw (r3, r1, -8)]. *)
Lemma mem_words_decode_witness :
  - 32768 <= -8 < 32768 /\
  stw 32 true FixedSize next_block r3 r1 (-8)
  = write 32 true FixedSize next_block 4 0x9061FFF8 /\
  s16 (Z.land 0x9061FFF8 0xFFFF) = -8.
Proof.
  assert (Ho : - 32768 <= -8 < 32768) by (split; [discriminate | reflexivity]).
  split; [exact Ho|].
  destruct (mem_words_decode 32 true FixedSize next_block Stw r3 r1 (-8) Ho)
    as (H1 & _ & _ & _ & _ & H2 & _).
  split; [exact H1 | exact H2].
Defined.
